(** * w3cli: the command handlers of index.js

    A shallow embedding of the handlers that do more than forward one call:
    [list] (cursor pagination), [remove] (upload removal and shard fan-out),
    [createDelegation] (archive export) and [usageReport] with its generator
    [getSpaceUsageReports].

    The handlers are asynchronous JavaScript functions that talk to a service
    client, to the console and to a CAR writer.  They are embedded in a small
    monad over the chronological trace of the effects performed so far.  The
    service client and the libraries the handlers import are deterministic
    oracles that may depend on that whole trace, so a stateful collaborator is
    covered. *)

From Stdlib Require Import String Ascii List ZArith Bool Arith Lia.
From Stdlib Require Import Permutation DecimalString.
Import ListNotations.
Open Scope string_scope.
Open Scope list_scope.

(** String concatenation, as in a template literal. *)
Infix "+++" := String.append (right associativity, at level 60).

(** ** Values *)

(** Content identifiers and DIDs are carried by their string form, the one a
    template literal prints. *)
Definition CID := string.
Definition CARLink := string.
Definition DID := string.

(** A [Date], as milliseconds since the epoch. *)
Definition Date := Z.

(** A thrown value: an [Error] with its [name] and, when it has one, its
    [message]. *)
Record Error := mkError { err_name : string; err_message : option string }.

(** [err.message ?? err] inside a template literal. *)
Definition message_or_error (err : Error) : string :=
  match err_message err with
  | Some m => m
  | None => err_name err
  end.

(** The state a promise settles in; also used for a synchronous call that may
    throw. *)
Inductive Settled (A : Type) : Type :=
| Fulfilled (value : A)
| Rejected (reason : Error).
Arguments Fulfilled {A} value.
Arguments Rejected {A} reason.

Definition is_rejected {A} (s : Settled A) : bool :=
  match s with
  | Fulfilled _ => false
  | Rejected _ => true
  end.

(** JavaScript truthiness of [string | undefined]. *)
Definition truthy (s : option string) : bool :=
  match s with
  | Some s => negb (s =? "")
  | None => false
  end.

(** Truthiness of [xs.length]. *)
Definition has_length {A} (xs : list A) : bool :=
  match xs with
  | [] => false
  | _ :: _ => true
  end.

Definition nl : string := String (ascii_of_nat 10) EmptyString.

(** [`${n}`] for an array length. *)
Definition nat_to_string (n : nat) : string :=
  NilZero.string_of_uint (Nat.to_uint n).

(** The decimal digits of an integer, after its sign. *)
Definition integer_to_string (z : Z) : string :=
  NilZero.string_of_int (Z.to_int z).

(** ** Numbers

    A JavaScript number is a double.  The numbers the handlers compute with
    are byte counts, so the embedding covers the doubles that are integers,
    the two infinities and NaN. *)
Inductive Number : Type :=
| Finite (z : Z)
| PlusInfinity
| MinusInfinity
| NaN.

(** [Number.MAX_SAFE_INTEGER], 2^53 - 1. *)
Definition MAX_SAFE_INTEGER : Z := 9007199254740991.

(** The number an integer denotes: the double nearest to it, the one with
    the even significand when two are as near; an integer that rounds to
    2^1024 or beyond denotes an infinity.  Every integer up to 2^53 in
    magnitude is a double. *)
Definition to_number (z : Z) : Number :=
  let a := Z.abs z in
  if (a <=? MAX_SAFE_INTEGER + 1)%Z then Finite z
  else
    let e := (Z.log2 a - 52)%Z in
    let q := Z.shiftr a e in
    let r := Z.land a (Z.ones e) in
    let half := Z.shiftl 1 (e - 1) in
    let q' := if (half <? r)%Z || ((r =? half)%Z && Z.odd q)
              then (q + 1)%Z else q in
    let m := Z.shiftl q' e in
    if (2 ^ 1024 <=? m)%Z
    then (if (z <? 0)%Z then MinusInfinity else PlusInfinity)
    else Finite (Z.sgn z * m).

(** [a + b]: the exact sum, rounded to a double. *)
Definition number_add (a b : Number) : Number :=
  match a, b with
  | NaN, _ | _, NaN => NaN
  | PlusInfinity, MinusInfinity | MinusInfinity, PlusInfinity => NaN
  | PlusInfinity, _ | _, PlusInfinity => PlusInfinity
  | MinusInfinity, _ | _, MinusInfinity => MinusInfinity
  | Finite x, Finite y => to_number (x + y)
  end.

(** [`${x}`] is [Number::toString]: the digits of the least number of
    significant digits [k] for which some [s] of [k] digits and some [n] have
    [s * 10^(n - k)] round to [x], the nearest to [x] when there are several;
    these digits are followed by zeros when [n <= 21] and by an exponent
    otherwise. *)

(** [x] is the double nearest to [v]. *)
Definition denotes (x v : Z) : bool :=
  match to_number v with
  | Finite y => (y =? x)%Z
  | _ => false
  end.

Definition decimal_length (x : Z) : Z :=
  Z.of_nat (String.length (integer_to_string x)).

(** The pairs [(s, n)] with [s] of [k] digits and [s * 10^(n - k)] rounding
    to [x], among which the nearest to [x] is. *)
Definition candidates (x k : Z) : list (Z * Z) :=
  flat_map
    (fun n =>
       let j := (n - k)%Z in
       if (j <? 0)%Z then []
       else
         filter
           (fun c =>
              (10 ^ (k - 1) <=? fst c)%Z && (fst c <? 10 ^ k)%Z
              && denotes x (fst c * 10 ^ j))
           [((x / 10 ^ j)%Z, n); ((x / 10 ^ j + 1)%Z, n)])
    [decimal_length x; (decimal_length x + 1)%Z].

Definition distance (x k : Z) (c : Z * Z) : Z :=
  Z.abs (fst c * 10 ^ (snd c - k) - x).

(** The candidate nearest to [x], the even one when two are as near. *)
Fixpoint closest (x k : Z) (cs : list (Z * Z)) : option (Z * Z) :=
  match cs with
  | [] => None
  | c :: rest =>
      match closest x k rest with
      | None => Some c
      | Some c' =>
          if (distance x k c <? distance x k c')%Z then Some c
          else if (distance x k c' <? distance x k c)%Z then Some c'
          else if Z.even (fst c) then Some c else Some c'
      end
  end.

Fixpoint shortest (x : Z) (ks : list Z) : option (Z * Z * Z) :=
  match ks with
  | [] => None
  | k :: rest =>
      match closest x k (candidates x k) with
      | Some (s, n) => Some (s, k, n)
      | None => shortest x rest
      end
  end.

Fixpoint zeros (n : nat) : string :=
  match n with
  | O => ""
  | S n' => "0" +++ zeros n'
  end.

(** The text of a double [x >= 0] that is an integer.  Up to 2^53 every
    integer is a double, so that the shortest digits are the digits of [x];
    beyond, seventeen digits are enough for any double. *)
Definition digits_to_string (x : Z) : string :=
  if (x <=? MAX_SAFE_INTEGER + 1)%Z then integer_to_string x
  else
    match shortest x (map Z.of_nat (seq 1 17)) with
    | Some (s, k, n) =>
        let digits := integer_to_string s in
        if (n <=? 21)%Z then digits +++ zeros (Z.to_nat (n - k))
        else
          substring 0 1 digits
          +++ (if (k =? 1)%Z then ""
               else "." +++ substring 1 (Z.to_nat (k - 1)) digits)
          +++ "e+" +++ integer_to_string (n - 1)
    | None => integer_to_string x
    end.

Definition number_to_string (x : Number) : string :=
  match x with
  | Finite z =>
      if (z <? 0)%Z then "-" +++ digits_to_string (- z)
      else digits_to_string z
  | PlusInfinity => "Infinity"
  | MinusInfinity => "-Infinity"
  | NaN => "NaN"
  end.

Record UploadListItem := {
  item_root : CID;
  item_shards : option (list CARLink)
}.

(** [UploadListSuccess]: the fields the handlers read. *)
Record UploadListSuccess := {
  cursor : option string;
  results : list UploadListItem
}.

(** What [upload.remove] resolves to: the removed record, or an object with
    neither field when nothing was removed. *)
Record UploadRemoveSuccess := {
  root : option CID;
  shards : option (list CARLink)
}.

Record Account := { did : DID }.

Record Subscription := { consumers : list DID }.

Record SubscriptionListSuccess := { subscriptions : list Subscription }.

Record Period := { from : Date; to : Date }.

(** Sizes are whole numbers of bytes, given by the integer the service
    reports; as a JavaScript number a size is [to_number] of it. *)
Record Size := { initial : Z; final : Z }.

(** One entry of a usage report. *)
Record UsageData := {
  provider : DID;
  space : DID;
  size : Size
}.

(** What [getSpaceUsageReports] yields: [{ account: account.did(), ...report }]. *)
Record UsageRecord := {
  account : DID;
  record_provider : DID;
  record_space : DID;
  record_size : Size
}.

Definition with_account (a : DID) (report : UsageData) : UsageRecord :=
  {| account := a;
     record_provider := provider report;
     record_space := space report;
     record_size := size report |}.

Record Block := { cid : CID; bytes : list Byte.byte }.

(** A delegation, by the block sequence [delegation.export()] iterates. *)
Record Delegation := { export : list Block }.

Inductive Expiration : Type :=
| Infinity
| At (seconds : Z).

Record AudienceMeta := {
  meta_name : option string;
  meta_type : option string
}.

Record DelegationOptions := {
  expiration : Expiration;
  audienceMeta : AudienceMeta
}.

(** The command line flags [--json], [--shards] and [--human]. *)
Record Flags := { json : bool; opt_shards : bool; human : bool }.

(** [opts.can] of [delegation create]: absent, one ability, or several. *)
Inductive Can : Type :=
| CanAbsent
| CanOne (ability : string)
| CanMany (abilities : list string).

Record DelegationFlags := {
  can : Can;
  opt_name : option string;
  opt_type : option string;
  opt_expiration : option Z;
  output : option string
}.

(** ** Effects *)

Inductive Request : Type :=
| UploadList (c : option string)
| UploadRemove (r : CID)
| StoreRemove (shard : CARLink)
| SubscriptionList (a : DID)
| UsageReport (s : DID) (p : Period)
| CreateDelegation (audience : DID) (abilities : list string)
    (options : DelegationOptions).

Inductive Destination : Type :=
| Stdout
| File (path : string).

(** Everything a handler does to the outside, in the order it does it.
    [CreateWriteStream] is the call of [fs.createWriteStream], [Pipe] the
    call of [pipe] on the output of the CAR writer, [StreamEnd] a call of
    [end] on a destination stream. *)
Inductive Event : Type :=
| Call (r : Request)
| Log (line : string)
| LogError (line : string)
| LogErrorObject (err : Error)
| SpinnerStart (text : string)
| SpinnerSucceed (text : string)
| SpinnerFail (text : string)
| CarWriterCreate
| CreateWriteStream (path : string)
| Pipe (dest : Destination)
| StreamEnd (dest : Destination)
| WriterPut (b : Block)
| WriterClose.

Definition Trace := list Event.

(** How a handler, or a part of one, leaves. *)
Inductive Completion (A : Type) : Type :=
| Normal (a : A)
| Throws (e : Error)
| Exits (code : Z)
| OutOfFuel.
Arguments Normal {A} a.
Arguments Throws {A} e.
Arguments Exits {A} code.
Arguments OutOfFuel {A}.

(** [OutOfFuel] is not a behaviour of the program: it marks a run of the
    [do ... while] loop cut off by the bound the embedding puts on it. *)

Definition M (A : Type) : Type := Trace -> Completion A * Trace.

Definition ret {A} (a : A) : M A := fun t => (Normal a, t).

Definition bind {A B} (m : M A) (k : A -> M B) : M B :=
  fun t =>
    match m t with
    | (Normal a, t') => k a t'
    | (Throws e, t') => (Throws e, t')
    | (Exits c, t') => (Exits c, t')
    | (OutOfFuel, t') => (OutOfFuel, t')
    end.

Notation "x <- m ;; k" := (bind m (fun x => k))
  (at level 61, m at next level, right associativity).
Notation "m ;; k" := (bind m (fun _ => k))
  (at level 61, right associativity).

Definition throw {A} (e : Error) : M A := fun t => (Throws e, t).

Definition process_exit {A} (code : Z) : M A := fun t => (Exits code, t).

Definition out_of_fuel {A} : M A := fun t => (OutOfFuel, t).

Definition emit (e : Event) : M unit := fun t => (Normal tt, t ++ [e]).

Definition console_log (line : string) : M unit := emit (Log line).

Definition console_error (line : string) : M unit := emit (LogError line).

(** [try { m } catch (err) { handler }]. *)
Definition try_catch {A} (m : M A) (handler : Error -> M A) : M A :=
  fun t =>
    match m t with
    | (Throws e, t') => handler e t'
    | other => other
    end.

(** A synchronous call that returns or throws. *)
Definition call_sync {A} (r : Settled A) : M A :=
  match r with
  | Fulfilled a => ret a
  | Rejected e => throw e
  end.

(** [await] of a call to a collaborator: the call is made, which the trace
    records, and its promise settles as the collaborator decides. *)
Definition await {A} (e : Event) (reply : Trace -> Settled A) : M A :=
  fun t =>
    match reply t with
    | Fulfilled a => (Normal a, t ++ [e])
    | Rejected err => (Throws err, t ++ [e])
    end.

(** [for (const x of xs) body], threading the variables the body assigns. *)
Fixpoint for_of {A B} (xs : list A) (acc : B) (body : A -> B -> M B) : M B :=
  match xs with
  | [] => ret acc
  | x :: rest => acc' <- body x acc ;; for_of rest acc' body
  end.

(** A promise that has been created and not awaited yet: how it will settle,
    and what is printed when it does. *)
Record Promise (A : Type) := {
  settles : Settled A;
  on_settle : Event
}.
Arguments settles {A} p.
Arguments on_settle {A} p.

(** ** Collaborators *)

(** The service client, the value of [await getClient()]: each method
    answers a request from the trace of what was done before it. *)
Record Client := {
  capability_upload_list :
    Trace -> option string -> Settled (option UploadListSuccess);
  capability_upload_remove : Trace -> CID -> Settled UploadRemoveSuccess;
  capability_store_remove : Trace -> CARLink -> Settled unit;
  client_accounts : list Account;
  capability_subscription_list :
    Trace -> DID -> Settled SubscriptionListSuccess;
  capability_usage_report :
    Trace -> DID -> Period -> Settled (list (string * UsageData));
  client_currentSpace : option DID;
  client_createDelegation :
    Trace -> DID -> list string -> DelegationOptions -> Settled Delegation
}.

(** The imports of index.js whose code is elsewhere (lib.js, multiformats,
    ucanto, dag-json, @ipld/car) and the runtime. *)
Record Host := {
  uploadListResponseToString : UploadListSuccess -> Flags -> string;
  startOfLastMonth : Date -> Date;
  filesize : Number -> string;
  toISOString : Date -> string;
  dagJSON_stringify : UsageRecord -> string -> string;
  trim : string -> string;
  CID_parse : string -> Settled CID;
  DID_parse : string -> Settled DID;
  spaceAccess : list string;
  (** [fs.createWriteStream(path)], which returns the stream or throws *)
  createWriteStream : Trace -> string -> Settled unit;
  writer_put : Trace -> Block -> Settled unit;
  writer_close : Trace -> Settled unit;
  (** the bytes a CAR writer created without roots emits for the blocks put
      into it, in the order they were put *)
  car_bytes : list Block -> list Byte.byte;
  (** the order in which promises that are in flight together settle *)
  settle_order : list (Promise unit) -> list (Promise unit)
}.

(** ** The handlers *)

Section Handlers.

Variable host : Host.

(** The client the handler holds once [await getClient()] has resolved. *)
Variable client : Client.

(** *** [list] *)

(** [res?.cursor]. *)
Definition cursor_of (res : option UploadListSuccess) : option string :=
  match res with
  | Some r => cursor r
  | None => None
  end.

(** The loop condition, [res.cursor && res.results.length]. *)
Definition loop_continues (res : UploadListSuccess) : bool :=
  truthy (cursor res) && has_length (results res).

(** The [do ... while] loop of [list], at most [fuel] iterations of it,
    entered with the loop variables [res] and [count]; it leaves with the
    final [count]. *)
Fixpoint list_loop (opts : Flags) (fuel : nat)
    (res : option UploadListSuccess) (count : nat) : M nat :=
  match fuel with
  | O => out_of_fuel
  | S fuel' =>
      res' <- await (Call (UploadList (cursor_of res)))
                (fun t => capability_upload_list client t (cursor_of res)) ;;
      match res' with
      | None =>
          throw (mkError "Error" (Some "missing upload list response"))
      | Some r =>
          let count' := count + length (results r) in
          (if has_length (results r)
           then console_log (uploadListResponseToString host r opts)
           else ret tt) ;;
          if loop_continues r
          then list_loop opts fuel' (Some r) count'
          else ret count'
      end
  end.

(** [list(opts)] from line 167 on, for the client in hand; [list] names the
    type of lists here. *)
Definition list_uploads (opts : Flags) (fuel : nat) : M unit :=
  count <- list_loop opts fuel None 0 ;;
  if (count =? 0)%nat && negb (json opts)
  then
    console_log "⁂ No uploads in space" ;;
    console_log "⁂ Try out `w3 up <path to files>` to upload some"
  else ret tt.

(** *** [remove] *)

(** What the spinner of [oraPromise] prints when the removal of [shard]
    settles: [successText] or [failText]. *)
Definition shard_report (shard : CARLink) (outcome : Settled unit) : Event :=
  match outcome with
  | Fulfilled _ => SpinnerSucceed (shard +++ " removed")
  | Rejected _ => SpinnerFail (shard +++ " failed")
  end.

(** [removeShard(shard)]: the removal request is sent and [oraPromise] starts
    a spinner on its promise, which reports when the promise settles. *)
Definition removeShard (shard : CARLink) : M (Promise unit) :=
  fun t =>
    let p := capability_store_remove client t shard in
    (Normal {| settles := p; on_settle := shard_report shard p |},
     t ++ [Call (StoreRemove shard); SpinnerStart shard]).

(** [shards.map(removeShard)]. *)
Fixpoint map_removeShard (shards : list CARLink) : M (list (Promise unit)) :=
  match shards with
  | [] => ret []
  | shard :: rest =>
      p <- removeShard shard ;;
      ps <- map_removeShard rest ;;
      ret (p :: ps)
  end.

(** [await Promise.allSettled(promises)]: every promise settles, in the order
    the runtime has them settle, and the results come in the order of the
    promises. *)
Definition allSettled (promises : list (Promise unit)) : M (list (Settled unit)) :=
  fun t =>
    (Normal (map settles promises),
     t ++ map on_settle (settle_order host promises)).

(** Lines 190 to 196: the identifier is parsed. *)
Definition parse_root (rootCid : string) : M CID :=
  try_catch (call_sync (CID_parse host (trim host rootCid)))
    (fun err =>
       console_error ("Error: " +++ rootCid +++ " is not a CID") ;;
       process_exit 1).

(** Lines 198 to 237: the upload is removed, and then its shards. *)
Definition remove_upload (root' : CID) (opts : Flags) : M unit :=
  upload <- try_catch
              (await (Call (UploadRemove root'))
                 (fun t => capability_upload_remove client t root'))
              (fun err =>
                 console_error ("Remove failed: " +++ message_or_error err) ;;
                 emit (LogErrorObject err) ;;
                 process_exit 1) ;;
  if negb (opt_shards opts) then ret tt
  else
    match root upload with
    | None =>
        console_log "⁂ upload not found. could not determine shards to remove."
    | Some _ =>
        match shards upload with
        | None | Some [] => console_log "⁂ no shards to remove."
        | Some shards' =>
            console_log
              ("⁂ removing " +++ nat_to_string (length shards') +++ " shard"
               +++ (if (length shards' =? 1)%nat then "" else "s")) ;;
            promises <- map_removeShard shards' ;;
            results' <- allSettled promises ;;
            if existsb is_rejected results' then process_exit 1 else ret tt
        end
    end.

(** [remove(rootCid, opts)] for the client in hand. *)
Definition remove (rootCid : string) (opts : Flags) : M unit :=
  root' <- parse_root rootCid ;;
  remove_upload root' opts.

(** *** [createDelegation] *)

(** [opts.can ? [opts.can].flat() : Object.keys(spaceAccess)]. *)
Definition abilities_of (c : Can) : list string :=
  match c with
  | CanAbsent => spaceAccess host
  | CanOne s => if s =? "" then spaceAccess host else [s]
  | CanMany l => l
  end.

(** [if (opts.name) audienceMeta.name = opts.name], and the same for [type]. *)
Definition if_truthy (s : option string) : option string :=
  if truthy s then s else None.

(** [opts.expiration || Infinity]. *)
Definition expiration_of (e : option Z) : Expiration :=
  match e with
  | Some z => if (z =? 0)%Z then Infinity else At z
  | None => Infinity
  end.

(** The options passed to [client.createDelegation]. *)
Definition delegation_options (opts : DelegationFlags) : DelegationOptions :=
  {| expiration := expiration_of (opt_expiration opts);
     audienceMeta :=
       {| meta_name := if_truthy (opt_name opts);
          meta_type := if_truthy (opt_type opts) |} |}.

(** [opts.output ? fs.createWriteStream(opts.output) : process.stdout].
    The call returns the stream, or throws; a stream that cannot open its
    file later reports it with an [error] event of its own, which is no exit
    path of the handler. *)
Definition open_destination (opts : DelegationFlags) : M Destination :=
  match output opts with
  | Some path =>
      if (path =? "")%string then ret Stdout
      else
        await (CreateWriteStream path)
          (fun t => createWriteStream host t path) ;;
        ret (File path)
  | None => ret Stdout
  end.

(** [for (const block of blocks) { await writer.put(block) }]. *)
Definition put_blocks (blocks : list Block) : M unit :=
  for_of blocks tt
    (fun block _ => await (WriterPut block) (fun t => writer_put host t block)).

Definition createDelegation (audienceDID : string) (opts : DelegationFlags)
    : M unit :=
  match client_currentSpace client with
  | None =>
      throw (mkError "Error"
               (Some "no current space, use `w3 space register` to create one."))
  | Some _ =>
      audience <- call_sync (DID_parse host audienceDID) ;;
      let abilities := abilities_of (can opts) in
      (if has_length abilities then ret tt
       else
         console_error "Error: missing capabilities for delegation" ;;
         process_exit 1) ;;
      let options := delegation_options opts in
      delegation <- await (Call (CreateDelegation audience abilities options))
                      (fun t =>
                         client_createDelegation client t audience abilities
                           options) ;;
      emit CarWriterCreate ;;
      dest <- open_destination opts ;;
      emit (Pipe dest) ;;
      put_blocks (export delegation) ;;
      await WriterClose (writer_close host)
  end.

(** *** [usageReport] *)

(** The async generator [getSpaceUsageReports(client, period)], together with
    the [for await] loop that drains it: [consume] is the body of that loop,
    run on each record at the [yield] that produces it, and [acc] holds the
    variables the body assigns. *)
Definition getSpaceUsageReports {B} (period : Period) (acc : B)
    (consume : UsageRecord -> B -> M B) : M B :=
  for_of (client_accounts client) acc (fun account acc =>
    subs <- await (Call (SubscriptionList (did account)))
              (fun t => capability_subscription_list client t (did account)) ;;
    for_of (subscriptions subs) acc (fun sub acc =>
      for_of (consumers sub) acc (fun space acc =>
        result <- await (Call (UsageReport space period))
                    (fun t => capability_usage_report client t space period) ;;
        for_of result acc (fun entry acc =>
          consume (with_account (did account) (snd entry)) acc)))).

(** The body of the [for await] loop of [usageReport]. *)
Definition print_usage (now : Date) (opts : Flags) (r : UsageRecord)
    (total : Number) : M Number :=
  let size_final := to_number (final (record_size r)) in
  (if json opts
   then console_log (dagJSON_stringify host r (toISOString host now))
   else
     console_log (" Account: " +++ account r) ;;
     console_log ("Provider: " +++ record_provider r) ;;
     console_log ("   Space: " +++ record_space r) ;;
     console_log
       ("    Size: "
        +++ (if human opts then filesize host size_final
             else number_to_string size_final)
        +++ nl)) ;;
  ret (number_add total size_final).

(** [usageReport] from line 519 up to the end of its loop: the value of
    [total] there. *)
Definition usage_total (now : Date) (opts : Flags) : M Number :=
  let period := {| from := startOfLastMonth host now; to := now |} in
  getSpaceUsageReports period (Finite 0) (print_usage now opts).

(** [usageReport(opts)] for the client in hand, run at the time [now]. *)
Definition usageReport (now : Date) (opts : Flags) : M unit :=
  total <- usage_total now opts ;;
  if negb (json opts)
  then
    console_log
      ("   Total: "
       +++ (if human opts then filesize host total else number_to_string total))
  else ret tt.

End Handlers.

(** ** The handlers with their client

    A handler obtains its client with [await getClient()] (lib.js), which
    loads the agent from the configuration on disk and may reject; nothing
    guards that call, so its rejection is the handler's.  [list] does so at
    once (line 166), [remove] once the identifier has parsed (line 197). *)

Definition list_command (host : Host) (getClient : Settled Client)
    (opts : Flags) (fuel : nat) : M unit :=
  client <- call_sync getClient ;;
  list_uploads host client opts fuel.

Definition remove_command (host : Host) (getClient : Settled Client)
    (rootCid : string) (opts : Flags) : M unit :=
  root' <- parse_root host rootCid ;;
  client <- call_sync getClient ;;
  remove_upload host client root' opts.

(** ** Observations on a trace *)

(** What [console.log] printed. *)
Definition logged (t : Trace) : list string :=
  flat_map (fun e => match e with Log s => [s] | _ => [] end) t.

(** The cursors of the [upload.list] requests. *)
Definition fetched_cursors (t : Trace) : list (option string) :=
  flat_map (fun e => match e with Call (UploadList c) => [c] | _ => [] end) t.

(** The shards of the [store.remove] requests. *)
Definition removal_requests (t : Trace) : list CARLink :=
  flat_map (fun e => match e with Call (StoreRemove s) => [s] | _ => [] end) t.

(** The outcomes the spinners reported. *)
Definition reported_outcomes (t : Trace) : list Event :=
  filter (fun e =>
            match e with
            | SpinnerSucceed _ | SpinnerFail _ => true
            | _ => false
            end) t.

(** The blocks put into the CAR writer. *)
Definition blocks_put (t : Trace) : list Block :=
  flat_map (fun e => match e with WriterPut b => [b] | _ => [] end) t.

(** The operations on the CAR writer. *)
Definition writer_operations (t : Trace) : list Event :=
  filter (fun e =>
            match e with
            | WriterPut _ | WriterClose => true
            | _ => false
            end) t.

(** What was done to the channel of the export: the creation of the CAR
    writer, and the calls on the destination stream. *)
Definition channel_operations (t : Trace) : list Event :=
  filter (fun e =>
            match e with
            | CarWriterCreate | CreateWriteStream _ | Pipe _ | StreamEnd _ =>
                true
            | _ => false
            end) t.

Definition is_writer_operation (e : Event) : bool :=
  match e with
  | WriterPut _ | WriterClose => true
  | _ => false
  end.

(** The status the process ends with: 0 when the handler returns, the argument
    of [process.exit], and 1 when the handler's promise rejects. *)
Definition exit_status {A} (c : Completion A) : option Z :=
  match c with
  | Normal _ => Some 0%Z
  | Exits code => Some code
  | Throws _ => Some 1%Z
  | OutOfFuel => None
  end.

(** ** Pagination: the loop of [list] *)

(** The continuation predicate as the specification words it: the cursor is
    defined, or the page had items. *)
Definition spec_continues (res : UploadListSuccess) : bool :=
  match cursor res with
  | Some _ => true
  | None => has_length (results res)
  end.

Section Pagination.

Variable host : Host.
Variable client : Client.
Variable opts : Flags.

(** What one iteration does to the outside: the fetch, with the cursor of the
    response before, and the page printed when it has items. *)
Definition page_events (prev : option UploadListSuccess)
    (r : UploadListSuccess) : Trace :=
  Call (UploadList (cursor_of prev))
  :: (if has_length (results r)
      then [Log (uploadListResponseToString host r opts)]
      else []).

Fixpoint pages_trace (prev : option UploadListSuccess)
    (pages : list UploadListSuccess) : Trace :=
  match pages with
  | [] => []
  | p :: rest => page_events prev p ++ pages_trace (Some p) rest
  end.

(** The client answers the successive fetches of the loop, entered at [t]
    with [prev], with the pages [pages]. *)
Fixpoint served (t : Trace) (prev : option UploadListSuccess)
    (pages : list UploadListSuccess) : Prop :=
  match pages with
  | [] => True
  | p :: rest =>
      capability_upload_list client t (cursor_of prev) = Fulfilled (Some p)
      /\ served (t ++ page_events prev p) (Some p) rest
  end.

Definition item_count (pages : list UploadListSuccess) : nat :=
  length (concat (map results pages)).

End Pagination.

(** ** Shard removal: what the service decides *)

(** The outcome of each removal request when the requests for [shards] are
    sent in turn from the trace [t]: one pair per shard, in the order of the
    shards. *)
Fixpoint shard_outcomes (client : Client) (t : Trace) (shards : list CARLink)
    : list (CARLink * Settled unit) :=
  match shards with
  | [] => []
  | shard :: rest =>
      (shard, capability_store_remove client t shard)
      :: shard_outcomes client
           (t ++ [Call (StoreRemove shard); SpinnerStart shard]) rest
  end.

Definition promise_of (o : CARLink * Settled unit) : Promise unit :=
  {| settles := snd o; on_settle := shard_report (fst o) (snd o) |}.

Definition fan_out (shards : list CARLink) : Trace :=
  flat_map (fun shard => [Call (StoreRemove shard); SpinnerStart shard]) shards.

Definition removing_message (shards : list CARLink) : string :=
  match shards with
  | [] => "⁂ no shards to remove."
  | _ :: _ =>
      "⁂ removing " +++ nat_to_string (length shards) +++ " shard"
      +++ (if (length shards =? 1)%nat then "" else "s")
  end.

(** ** A service that holds a sequence of pages *)

Definition cursor_eqb (a b : option string) : bool :=
  match a, b with
  | Some x, Some y => (x =? y)%string
  | None, None => true
  | _, _ => false
  end.

Definition unavailable : Error := mkError "Error" (Some "service unavailable").

(** The [upload.list] of a service that serves [pages] in turn: the request
    number [k] is answered with page [k], provided it presents the cursor that
    came with page [k - 1] (none for the first); any other request fails. *)
Definition page_server (pages : list UploadListSuccess) (t : Trace)
    (c : option string) : Settled (option UploadListSuccess) :=
  let k := length (fetched_cursors t) in
  if cursor_eqb c (nth k (None :: map cursor pages) None)
  then
    match nth_error pages k with
    | Some p => Fulfilled (Some p)
    | None => Rejected (mkError "Error" (Some "no more pages"))
    end
  else Rejected (mkError "Error" (Some "unknown cursor")).

(** A client of which only [upload.list] answers. *)
Definition listing_client
    (list_reply : Trace -> option string -> Settled (option UploadListSuccess))
    : Client :=
  {| capability_upload_list := list_reply;
     capability_upload_remove := fun _ _ => Rejected unavailable;
     capability_store_remove := fun _ _ => Rejected unavailable;
     client_accounts := [];
     capability_subscription_list := fun _ _ => Rejected unavailable;
     capability_usage_report := fun _ _ _ => Rejected unavailable;
     client_currentSpace := None;
     client_createDelegation := fun _ _ _ _ => Rejected unavailable |}.

Definition page_client (pages : list UploadListSuccess) : Client :=
  listing_client (page_server pages).

(** ** Sample collaborators, for the examples *)

Module Sample.

Definition host : Host :=
  {| uploadListResponseToString :=
       fun res _ => String.concat nl (map item_root (results res));
     startOfLastMonth := fun now => (now - 2678400000)%Z;
     filesize := fun n => number_to_string n +++ " B";
     toISOString := integer_to_string;
     dagJSON_stringify :=
       fun r reportedAt =>
         account r +++ " " +++ record_space r +++ " "
         +++ integer_to_string (final (record_size r)) +++ " " +++ reportedAt;
     trim := fun s => s;
     CID_parse :=
       fun s =>
         if String.prefix "bafy" s then Fulfilled s
         else Rejected (mkError "Error" (Some "invalid CID"));
     DID_parse :=
       fun s =>
         if String.prefix "did:" s then Fulfilled s
         else Rejected (mkError "Error" (Some "invalid DID"));
     spaceAccess := ["space/*"; "store/*"; "upload/*"];
     createWriteStream := fun _ _ => Fulfilled tt;
     writer_put := fun _ _ => Fulfilled tt;
     writer_close := fun _ => Fulfilled tt;
     car_bytes := fun blocks => Byte.x3a :: flat_map bytes blocks;
     settle_order := @rev (Promise unit) |}.

Definition plain : Flags := {| json := false; opt_shards := false; human := false |}.

Definition as_json : Flags := {| json := true; opt_shards := false; human := false |}.

Definition with_shards : Flags := {| json := false; opt_shards := true; human := false |}.

Definition upload_a : UploadListItem :=
  {| item_root := "bafyrootA"; item_shards := Some ["bagshard1"] |}.

Definition upload_b : UploadListItem :=
  {| item_root := "bafyrootB"; item_shards := None |}.

Definition upload_c : UploadListItem :=
  {| item_root := "bafyrootC"; item_shards := Some [] |}.

Definition first_page : UploadListSuccess :=
  {| cursor := Some "c1"; results := [upload_a; upload_b] |}.

Definition final_page : UploadListSuccess :=
  {| cursor := None; results := [upload_c] |}.

(** A page that announces a continuation and has nothing to return. *)
Definition empty_page_with_cursor : UploadListSuccess :=
  {| cursor := Some "c0"; results := [] |}.

Definition empty_page : UploadListSuccess :=
  {| cursor := None; results := [] |}.

End Sample.

(** ** A service for the removal examples *)

Module SampleRemoval.

Definition upload : UploadRemoveSuccess :=
  {| root := Some "bafyroot";
     shards := Some ["bagshardA"; "bagshardB"; "bagshardC"] |}.

(** Removes any upload, answering with [removed]; the removal of shard
    [bagshardB] fails and that of any other shard succeeds. *)
Definition client (removed : UploadRemoveSuccess) : Client :=
  {| capability_upload_list := fun _ _ => Rejected unavailable;
     capability_upload_remove := fun _ _ => Fulfilled removed;
     capability_store_remove :=
       fun _ shard =>
         if (shard =? "bagshardB")%string
         then Rejected (mkError "Error" (Some "failed store/remove invocation"))
         else Fulfilled tt;
     client_accounts := [];
     capability_subscription_list := fun _ _ => Rejected unavailable;
     capability_usage_report := fun _ _ _ => Rejected unavailable;
     client_currentSpace := None;
     client_createDelegation := fun _ _ _ _ => Rejected unavailable |}.

Definition not_found : UploadRemoveSuccess := {| root := None; shards := None |}.

Definition without_shards : UploadRemoveSuccess :=
  {| root := Some "bafyroot"; shards := Some [] |}.

End SampleRemoval.

(** ** Usage traversal: observation and failure *)

(** The body of [for await (const r of gen) records.push(r)]: it gathers what
    the generator yields. *)
Definition collect (r : UsageRecord) (records : list UsageRecord)
    : M (list UsageRecord) :=
  ret (records ++ [r]).

(** The records the traversal yields when every account [a] has the
    subscriptions [subs a] and every space [s] the report [report s]. *)
Definition usage_records (accounts : list Account)
    (subs : Account -> list Subscription)
    (report : DID -> list (string * UsageData)) : list UsageRecord :=
  flat_map (fun a =>
    flat_map (fun sub =>
      flat_map (fun s =>
        map (fun entry => with_account (did a) (snd entry)) (report s))
        (consumers sub))
      (subs a))
    accounts.

(** The value of [total] after [total += size.final] for each of
    [records] in turn. *)
Definition total_size (records : list UsageRecord) : Number :=
  fold_left
    (fun total r => number_add total (to_number (final (record_size r))))
    records (Finite 0).

(** The sum of the final sizes, as integers. *)
Definition sum_of_sizes (records : list UsageRecord) : Z :=
  fold_right (fun r sum => (final (record_size r) + sum)%Z) 0%Z records.

(** Every size is a byte count and their sum is a safe integer, so that
    JavaScript computes with them exactly. *)
Definition safe_sizes (records : list UsageRecord) : Prop :=
  Forall (fun r => (0 <= final (record_size r))%Z) records
  /\ (sum_of_sizes records <= MAX_SAFE_INTEGER)%Z.

(** The awaited call recorded as [ev], made after the trace [t], fails with
    [e]. *)
Definition event_fails (host : Host) (client : Client) (t : Trace)
    (ev : Event) (e : Error) : Prop :=
  match ev with
  | Call (UploadList c) =>
      capability_upload_list client t c = Rejected e
  | Call (UploadRemove r) =>
      capability_upload_remove client t r = Rejected e
  | Call (SubscriptionList a) =>
      capability_subscription_list client t a = Rejected e
  | Call (UsageReport s p) =>
      capability_usage_report client t s p = Rejected e
  | Call (CreateDelegation a abilities options) =>
      client_createDelegation client t a abilities options = Rejected e
  | CreateWriteStream path => createWriteStream host t path = Rejected e
  | WriterPut b => writer_put host t b = Rejected e
  | WriterClose => writer_close host t = Rejected e
  | _ => False
  end.

(** [m] stops at the first awaited call that fails: it throws the error of
    that call and does nothing after it. *)
Definition fail_fast (host : Host) (client : Client) {A} (m : M A) : Prop :=
  forall t,
  exists evs,
    snd (m t) = t ++ evs
    /\ forall pre ev post e,
         evs = pre ++ ev :: post ->
         event_fails host client (t ++ pre) ev e ->
         fst (m t) = Throws e /\ post = [].

(** ** A service for the usage examples *)

Module SampleUsage.

Definition alice : Account := {| did := "did:mailto:example.com:alice" |}.

Definition bob : Account := {| did := "did:mailto:example.com:bob" |}.

Definition report_of (s : DID) (n : Z) : list (string * UsageData) :=
  [("did:web:provider",
    {| provider := "did:web:provider";
       space := s;
       size := {| initial := 0%Z; final := n |} |})].

Definition subscriptions_of (a : DID) : SubscriptionListSuccess :=
  if (a =? did alice)%string
  then {| subscriptions := [{| consumers := ["did:key:space1"] |}] |}
  else {| subscriptions := [{| consumers := ["did:key:space2"] |}] |}.

(** Two accounts with one subscription each, each with one space; [report]
    answers the usage requests. *)
Definition client
    (report : Trace -> DID -> Period -> Settled (list (string * UsageData)))
    : Client :=
  {| capability_upload_list := fun _ _ => Rejected unavailable;
     capability_upload_remove := fun _ _ => Rejected unavailable;
     capability_store_remove := fun _ _ => Rejected unavailable;
     client_accounts := [alice; bob];
     capability_subscription_list := fun _ a => Fulfilled (subscriptions_of a);
     capability_usage_report := report;
     client_currentSpace := None;
     client_createDelegation := fun _ _ _ _ => Rejected unavailable |}.

(** Every space holds 100 bytes. *)
Definition steady : Trace -> DID -> Period -> Settled (list (string * UsageData)) :=
  fun _ s _ => Fulfilled (report_of s 100%Z).

(** The report for [did:key:space1] fails. *)
Definition failing : Trace -> DID -> Period -> Settled (list (string * UsageData)) :=
  fun _ s _ =>
    if (s =? "did:key:space1")%string
    then Rejected (mkError "Error" (Some "usage/report failed"))
    else Fulfilled (report_of s 100%Z).

(** Every report names the space [did:key:other], whatever space it was
    requested for. *)
Definition misnaming : Trace -> DID -> Period -> Settled (list (string * UsageData)) :=
  fun _ _ _ => Fulfilled (report_of "did:key:other" 100%Z).

(** The space [did:key:space1] holds 2^53 bytes, any other space one. *)
Definition uneven : Trace -> DID -> Period -> Settled (list (string * UsageData)) :=
  fun _ s _ =>
    Fulfilled
      (report_of s
         (if (s =? "did:key:space1")%string then 9007199254740992%Z
          else 1%Z)).

Definition period : Period := {| from := 0%Z; to := 1000%Z |}.

End SampleUsage.

(** ** A service and a writer for the export examples *)

Module SampleExport.

Definition block1 : Block := {| cid := "bafyblock1"; bytes := [Byte.x01] |}.

Definition block2 : Block := {| cid := "bafyblock2"; bytes := [Byte.x02; Byte.x03] |}.

Definition client : Client :=
  {| capability_upload_list := fun _ _ => Rejected unavailable;
     capability_upload_remove := fun _ _ => Rejected unavailable;
     capability_store_remove := fun _ _ => Rejected unavailable;
     client_accounts := [];
     capability_subscription_list := fun _ _ => Rejected unavailable;
     capability_usage_report := fun _ _ _ => Rejected unavailable;
     client_currentSpace := Some "did:key:space1";
     client_createDelegation :=
       fun _ _ _ _ => Fulfilled {| export := [block1; block2] |} |}.

Definition flags : DelegationFlags :=
  {| can := CanOne "store/add";
     opt_name := None;
     opt_type := None;
     opt_expiration := None;
     output := Some "delegation.car" |}.

Definition write_error : Error := mkError "Error" (Some "write failed").

(** A host whose writer refuses [block2]. *)
Definition failing_host : Host :=
  {| uploadListResponseToString := uploadListResponseToString Sample.host;
     startOfLastMonth := startOfLastMonth Sample.host;
     filesize := filesize Sample.host;
     toISOString := toISOString Sample.host;
     dagJSON_stringify := dagJSON_stringify Sample.host;
     trim := trim Sample.host;
     CID_parse := CID_parse Sample.host;
     DID_parse := DID_parse Sample.host;
     spaceAccess := spaceAccess Sample.host;
     createWriteStream := createWriteStream Sample.host;
     writer_put :=
       fun _ b =>
         if (cid b =? "bafyblock2")%string then Rejected write_error
         else Fulfilled tt;
     writer_close := fun _ => Fulfilled tt;
     car_bytes := car_bytes Sample.host;
     settle_order := settle_order Sample.host |}.

Definition open_error : Error :=
  mkError "TypeError"
    (Some "The argument 'path' must be a string, Uint8Array, or URL without null bytes.").

(** A host on which no file can be opened. *)
Definition closed_host : Host :=
  {| uploadListResponseToString := uploadListResponseToString Sample.host;
     startOfLastMonth := startOfLastMonth Sample.host;
     filesize := filesize Sample.host;
     toISOString := toISOString Sample.host;
     dagJSON_stringify := dagJSON_stringify Sample.host;
     trim := trim Sample.host;
     CID_parse := CID_parse Sample.host;
     DID_parse := DID_parse Sample.host;
     spaceAccess := spaceAccess Sample.host;
     createWriteStream := fun _ _ => Rejected open_error;
     writer_put := writer_put Sample.host;
     writer_close := writer_close Sample.host;
     car_bytes := car_bytes Sample.host;
     settle_order := settle_order Sample.host |}.

End SampleExport.

(** [m] returns [a], from any trace. *)
Definition returns {A} (m : M A) (a : A) : Prop :=
  forall t, exists t', m t = (Normal a, t').

(** ** Archive export: the events before the first block *)

Definition destination_of (opts : DelegationFlags) : Destination :=
  match output opts with
  | Some path => if (path =? "")%string then Stdout else File path
  | None => Stdout
  end.

(** What [createDelegation] does to set up the channel of the export:
    the writer is created, the destination opened when it is a file, and the
    output of the writer piped into the destination. *)
Definition export_channel (opts : DelegationFlags) : Trace :=
  [CarWriterCreate]
  ++ match destination_of opts with
     | File path => [CreateWriteStream path]
     | Stdout => []
     end
  ++ [Pipe (destination_of opts)].

(** What [createDelegation] does between the creation of the delegation and
    the first [writer.put], when the destination opens. *)
Definition export_setup (host : Host) (audience : DID)
    (opts : DelegationFlags) : Trace :=
  [Call (CreateDelegation audience (abilities_of host (can opts))
           (delegation_options opts));
   CarWriterCreate]
  ++ match destination_of opts with
     | File path => [CreateWriteStream path]
     | Stdout => []
     end
  ++ [Pipe (destination_of opts)].

(** ** Further observations on a trace *)

(** The requests made to the service, in order. *)
Definition service_requests (t : Trace) : list Request :=
  flat_map (fun e => match e with Call q => [q] | _ => [] end) t.

(** What [console.error] printed. *)
Definition error_lines (t : Trace) : list string :=
  flat_map (fun e => match e with LogError s => [s] | _ => [] end) t.

(** The error [list] throws when the service answers a fetch with nothing. *)
Definition missing_response : Error :=
  mkError "Error" (Some "missing upload list response").

(** The response the loop of [list] holds after fetching [pages], having
    entered with [prev]. *)
Definition last_response (prev : option UploadListSuccess)
    (pages : list UploadListSuccess) : option UploadListSuccess :=
  last (map Some pages) prev.

(** The two lines [list] prints for a space without uploads. *)
Definition no_uploads_notice : Trace :=
  [Log "⁂ No uploads in space";
   Log "⁂ Try out `w3 up <path to files>` to upload some"].

(** The events of the archive export: the writer, the destination file and
    the pipe between them. *)
Definition is_export_event (e : Event) : bool :=
  match e with
  | CarWriterCreate | CreateWriteStream _ | Pipe _ | WriterPut _
  | WriterClose => true
  | _ => false
  end.

(** ** [usageReport]: the run when every request is answered *)

(** [m] returns [a] having done exactly [evs], from any trace. *)
Definition emits {A} (m : M A) (a : A) (evs : Trace) : Prop :=
  forall t, m t = (Normal a, t ++ evs).

(** What [usageReport] prints for one record. *)
Definition record_lines (host : Host) (now : Date) (opts : Flags)
    (r : UsageRecord) : Trace :=
  if json opts
  then [Log (dagJSON_stringify host r (toISOString host now))]
  else
    [Log (" Account: " +++ account r);
     Log ("Provider: " +++ record_provider r);
     Log ("   Space: " +++ record_space r);
     Log ("    Size: "
          +++ (if human opts
               then filesize host (to_number (final (record_size r)))
               else number_to_string (to_number (final (record_size r))))
          +++ nl)].

(** The traversal seen from outside: for each account the request for its
    subscriptions, then for each consumer space of each subscription the
    request for its report followed at once by the lines of its records. *)
Definition usage_trace (host : Host) (now : Date) (opts : Flags)
    (period : Period) (accounts : list Account)
    (subs : Account -> list Subscription)
    (report : DID -> list (string * UsageData)) : Trace :=
  flat_map (fun a =>
    Call (SubscriptionList (did a))
    :: flat_map (fun sub =>
         flat_map (fun s =>
           Call (UsageReport s period)
           :: flat_map (fun entry =>
                record_lines host now opts (with_account (did a) (snd entry)))
                (report s))
           (consumers sub))
         (subs a))
    accounts.

(** The line that ends the report, unless [--json] is set. *)
Definition total_line (host : Host) (opts : Flags) (total : Number) : Trace :=
  if json opts then []
  else [Log ("   Total: "
             +++ (if human opts then filesize host total
                  else number_to_string total))].

(** What [usageReport] prints for a record whose size is a safe integer:
    the size is printed with its decimal digits. *)
Definition safe_record_lines (host : Host) (now : Date) (opts : Flags)
    (r : UsageRecord) : Trace :=
  if json opts
  then [Log (dagJSON_stringify host r (toISOString host now))]
  else
    [Log (" Account: " +++ account r);
     Log ("Provider: " +++ record_provider r);
     Log ("   Space: " +++ record_space r);
     Log ("    Size: "
          +++ (if human opts then filesize host (Finite (final (record_size r)))
               else integer_to_string (final (record_size r)))
          +++ nl)].

(** The line that ends the report when the total is the safe integer
    [total]. *)
Definition safe_total_line (host : Host) (opts : Flags) (total : Z) : Trace :=
  if json opts then []
  else [Log ("   Total: "
             +++ (if human opts then filesize host (Finite total)
                  else integer_to_string total))].

(** * The handlers for spaces, proofs, delegations and plans

    [listSpaces], [useSpace], [spaceInfo], [listDelegations],
    [revokeDelegation], [addProof] and [getPlan] of index.js talk to other
    parts of the client than the handlers above; they are embedded in the
    same way, over a trace of their own actions. *)

Module Agent.

(** ** Values *)

(** A space the agent knows: [space.did()] and [space.name]. *)
Record Space := { space_did : DID; space_name : option string }.

Record Capability := { cap_with : string; cap_can : string }.

(** A delegation object, as the handlers read it: [cid], [issuer.did()],
    [audience.did()] and [capabilities]. *)
Record Ucan := {
  ucan_cid : CID;
  ucan_issuer : DID;
  ucan_audience : DID;
  ucan_capabilities : list Capability
}.

(** What [space.info] resolves to. *)
Record SpaceInfo := { info_did : DID; info_providers : option (list string) }.

(** A result object [{ ok, error }]. *)
Record Result (A : Type) := { ok : option A; error : option Error }.
Arguments ok {A} r.
Arguments error {A} r.

Record Plan := { product : string }.

(** [`${err.message}`]. *)
Definition message_text (err : Error) : string :=
  match err_message err with
  | Some m => m
  | None => "undefined"
  end.

(** [`${error?.message}`]. *)
Definition optional_message (err : option Error) : string :=
  match err with
  | Some e => message_text e
  | None => "undefined"
  end.

(** ** Effects *)

Inductive Operation : Type :=
| SetCurrentSpace (d : DID)
| GetSpaceInfo (d : DID)
| Revoke (c : CID) (proofs : list Ucan)
| AddProof (proof : Ucan)
| ReadProof (path : string)
| SelectAccount
| UseAccount (email : string)
| PlanGet (a : DID).

Inductive Action : Type :=
| Invoke (o : Operation)
| Print (line : string)
| PrintError (line : string).

Definition History := list Action.

Definition Prog (A : Type) : Type := History -> Completion A * History.

Definition ret {A} (a : A) : Prog A := fun h => (Normal a, h).

Definition bind {A B} (m : Prog A) (k : A -> Prog B) : Prog B :=
  fun h =>
    match m h with
    | (Normal a, h') => k a h'
    | (Throws e, h') => (Throws e, h')
    | (Exits c, h') => (Exits c, h')
    | (OutOfFuel, h') => (OutOfFuel, h')
    end.

Notation "x <~ m ;; k" := (bind m (fun x => k))
  (at level 61, m at next level, right associativity).
Notation "m ;;; k" := (bind m (fun _ => k))
  (at level 61, right associativity).

Definition throw {A} (e : Error) : Prog A := fun h => (Throws e, h).

Definition process_exit {A} (code : Z) : Prog A := fun h => (Exits code, h).

Definition console_log (line : string) : Prog unit :=
  fun h => (Normal tt, h ++ [Print line]).

Definition console_error (line : string) : Prog unit :=
  fun h => (Normal tt, h ++ [PrintError line]).

(** [try { m } catch (err) { handler }]. *)
Definition try_catch {A} (m : Prog A) (handler : Error -> Prog A) : Prog A :=
  fun h =>
    match m h with
    | (Throws e, h') => handler e h'
    | other => other
    end.

Definition call_sync {A} (r : Settled A) : Prog A :=
  match r with
  | Fulfilled a => ret a
  | Rejected e => throw e
  end.

(** [await] of an operation of a collaborator. *)
Definition await {A} (o : Operation) (reply : History -> Settled A) : Prog A :=
  fun h =>
    match reply h with
    | Fulfilled a => (Normal a, h ++ [Invoke o])
    | Rejected err => (Throws err, h ++ [Invoke o])
    end.

(** [for (const x of xs) body]. *)
Fixpoint for_each {A} (xs : list A) (body : A -> Prog unit) : Prog unit :=
  match xs with
  | [] => ret tt
  | x :: rest => body x ;;; for_each rest body
  end.

(** ** Collaborators *)

(** The client: its getters read the state the history has brought it to. *)
Record Client := {
  agent_spaces : History -> list Space;
  agent_currentSpace : History -> option Space;
  agent_setCurrentSpace : History -> DID -> Settled unit;
  agent_space_info : History -> DID -> Settled SpaceInfo;
  agent_delegations : History -> list Ucan;
  agent_revokeDelegation :
    History -> CID -> list Ucan -> Settled (Result unit);
  agent_addProof : History -> Ucan -> Settled unit;
  agent_plan_get : History -> DID -> Settled (Result Plan)
}.

(** The imports whose code is elsewhere: lib.js ([readProof]), space.js
    ([selectAccount], [useAccount]), ucanto ([parseLink]), chalk ([dim]) and
    the renderings of [JSON.stringify]. *)
Record Library := {
  readProof : History -> string -> Settled Ucan;
  parseLink : string -> Settled CID;
  string_trim : string -> string;
  selectAccount : History -> Settled (option Account);
  useAccount : History -> string -> Settled (option Account);
  dim : string -> string;
  stringify_info : SpaceInfo -> string;
  stringify_delegation : Ucan -> string;
  stringify_proof : Ucan -> string
}.

Record SpaceInfoFlags := { info_space : option string; info_json : bool }.

Record ProofFlags := { proof_json : bool; dry_run : bool }.

Section Handlers.

Variable lib : Library.

(** The client the handler holds once [await getClient()] has resolved. *)
Variable client : Client.

(** *** [listSpaces] *)

(** [current && current.did() === space.did() ? '* ' : '  '] *)
Definition space_prefix (current : option Space) (space : Space) : string :=
  match current with
  | Some c => if (space_did c =? space_did space)%string then "* " else "  "
  | None => "  "
  end.

(** [`${prefix}${space.did()} ${space.name ?? ''}`] *)
Definition space_line (current : option Space) (space : Space) : string :=
  space_prefix current space +++ space_did space +++ " "
  +++ match space_name space with
      | Some n => n
      | None => ""
      end.

Definition listSpaces : Prog unit :=
  fun h =>
    let current := agent_currentSpace client h in
    for_each (agent_spaces client h)
      (fun space => console_log (space_line current space)) h.

(** *** [useSpace] *)

(** [s.name === did] *)
Definition named (d : string) (s : Space) : bool :=
  match space_name s with
  | Some n => (n =? d)%string
  | None => false
  end.

(** [spaces.find((s) => s.did() === did) ?? spaces.find((s) => s.name === did)] *)
Definition find_space (d : string) (spaces : list Space) : option Space :=
  match find (fun s => (space_did s =? d)%string) spaces with
  | Some s => Some s
  | None => find (named d) spaces
  end.

Definition useSpace (d : string) : Prog unit :=
  fun h =>
    match find_space d (agent_spaces client h) with
    | None =>
        (console_error ("Error: space not found: " +++ d) ;;;
         process_exit 1) h
    | Some space =>
        (await (SetCurrentSpace (space_did space))
           (fun h' => agent_setCurrentSpace client h' (space_did space)) ;;;
         console_log (space_did space)) h
    end.

(** *** [spaceInfo] *)

(** [opts.space ?? client.currentSpace()?.did()] *)
Definition space_to_describe (opts : SpaceInfoFlags) (h : History)
    : option DID :=
  match info_space opts with
  | Some d => Some d
  | None => option_map space_did (agent_currentSpace client h)
  end.

Definition double_quote : string := String (ascii_of_nat 34) EmptyString.

Definition no_space_error : Error :=
  mkError "Error"
    (Some ("no current space and no space given: please use --space to specify a space or select one using "
           +++ double_quote +++ "space use" +++ double_quote)).

(** [info.providers?.join(', ') ?? ''] *)
Definition providers_text (info : SpaceInfo) : string :=
  match info_providers info with
  | Some ps => String.concat ", " ps
  | None => ""
  end.

(** The text printed for [info] without [--json]. *)
Definition info_text (info : SpaceInfo) : string :=
  nl +++ "      DID: " +++ info_did info +++ nl +++ "Providers: "
  +++ (if (providers_text info =? "")%string then dim lib "none"
       else providers_text info).

(** [spaceInfo(opts)] from line 294 on, for the client in hand. *)
Definition spaceInfo (opts : SpaceInfoFlags) : Prog unit :=
  fun h =>
    match space_to_describe opts h with
    | None => throw no_space_error h
    | Some spaceDID =>
        if (spaceDID =? "")%string then throw no_space_error h
        else
          (found <~ try_catch
                      (info <~ await (GetSpaceInfo spaceDID)
                                 (fun h' => agent_space_info client h' spaceDID) ;;
                       ret (Some info))
                      (fun err =>
                         if (err_name err =? "SpaceUnknown")%string
                         then
                           ret (Some {| info_did := spaceDID;
                                        info_providers := None |})
                         else
                           console_log
                             ("Error getting info about " +++ spaceDID
                              +++ ": " +++ message_text err) ;;;
                           ret None) ;;
           match found with
           | None => ret tt
           | Some info =>
               if info_json opts then console_log (stringify_info lib info)
               else console_log (info_text info)
           end) h
    end.

(** *** [listDelegations] and the printing of capabilities *)

Definition print_capabilities (caps : list Capability) : Prog unit :=
  for_each caps
    (fun c =>
       console_log ("  with: " +++ cap_with c) ;;;
       console_log ("  can: " +++ cap_can c)).

Definition listDelegations (json : bool) : Prog unit :=
  fun h =>
    let delegations := agent_delegations client h in
    (if json
     then
       for_each delegations
         (fun d => console_log (stringify_delegation lib d))
     else
       for_each delegations
         (fun d =>
            console_log (ucan_cid d) ;;;
            console_log ("  audience: " +++ ucan_audience d) ;;;
            print_capabilities (ucan_capabilities d))) h.

(** *** [revokeDelegation] *)

(** [revokeDelegation(delegationCid, opts)] from line 412 on, for the client
    in hand. *)
Definition revokeDelegation (delegationCid : string) (proofPath : option string)
    : Prog unit :=
  proof <~ try_catch
             (if truthy proofPath
              then
                match proofPath with
                | Some path =>
                    p <~ await (ReadProof path) (fun h => readProof lib h path) ;;
                    ret (Some p)
                | None => ret None
                end
              else ret None)
             (fun err =>
                console_log ("Error: reading proof: " +++ message_text err) ;;;
                process_exit 1) ;;
  cid <~ try_catch (call_sync (parseLink lib (string_trim lib delegationCid)))
           (fun err =>
              console_error
                ("Error: invalid CID: " +++ delegationCid +++ ": "
                 +++ message_text err) ;;;
              process_exit 1) ;;
  let proofs := match proof with
                | Some p => [p]
                | None => []
                end in
  result <~ await (Revoke cid proofs)
              (fun h => agent_revokeDelegation client h cid proofs) ;;
  match ok result with
  | Some _ => console_log ("⁂ delegation " +++ delegationCid +++ " revoked")
  | None =>
      console_error
        ("Error: revoking " +++ delegationCid +++ ": "
         +++ optional_message (error result)) ;;;
      process_exit 1
  end.

(** *** [addProof] *)

(** [addProof(proofPath, opts)] from line 447 on, for the client in hand. *)
Definition addProof (proofPath : string) (opts : ProofFlags) : Prog unit :=
  proof <~ try_catch
             (p <~ await (ReadProof proofPath)
                     (fun h => readProof lib h proofPath) ;;
              (if dry_run opts then ret tt
               else await (AddProof p) (fun h => agent_addProof client h p)) ;;;
              ret p)
             (fun err =>
                console_log ("Error: " +++ message_text err) ;;;
                process_exit 1) ;;
  if proof_json opts then console_log (stringify_proof lib proof)
  else
    console_log (ucan_cid proof) ;;;
    console_log ("  issuer: " +++ ucan_issuer proof) ;;;
    print_capabilities (ucan_capabilities proof).

(** *** [getPlan] *)

Definition undefined_message : Error :=
  mkError "TypeError"
    (Some "Cannot read properties of undefined (reading 'message')").

Definition getPlan (email : string) : Prog unit :=
  account <~ (if (email =? "")%string
              then await SelectAccount (selectAccount lib)
              else await (UseAccount email) (fun h => useAccount lib h email)) ;;
  match account with
  | Some a =>
      result <~ await (PlanGet (did a))
                  (fun h => agent_plan_get client h (did a)) ;;
      match ok result with
      | Some plan => console_log ("⁂ " +++ product plan)
      | None =>
          match error result with
          | Some err =>
              if (err_name err =? "PlanNotFound")%string
              then console_log "⁂ no plan has been selected yet"
              else
                console_error ("Failed to get plan - " +++ message_text err) ;;;
                process_exit 1
          | None => throw undefined_message
          end
      end
  | None => process_exit 1
  end.

End Handlers.

(** ** The handlers with their client

    Each handler starts with [const client = await getClient()] (lib.js),
    which may reject; the call stands outside every [try], so that its
    rejection is the handler's. *)

Definition with_client {A} (getClient : Settled Client)
    (handler : Client -> Prog A) : Prog A :=
  client <~ call_sync getClient ;;
  handler client.

Definition spaceInfo_command (lib : Library) (getClient : Settled Client)
    (opts : SpaceInfoFlags) : Prog unit :=
  with_client getClient (fun client => spaceInfo lib client opts).

Definition revokeDelegation_command (lib : Library)
    (getClient : Settled Client) (delegationCid : string)
    (proofPath : option string) : Prog unit :=
  with_client getClient
    (fun client => revokeDelegation lib client delegationCid proofPath).

Definition addProof_command (lib : Library) (getClient : Settled Client)
    (proofPath : string) (opts : ProofFlags) : Prog unit :=
  with_client getClient (fun client => addProof lib client proofPath opts).

(** ** Observations *)

Definition printed (h : History) : list string :=
  flat_map (fun a => match a with Print s => [s] | _ => [] end) h.

Definition invoked (h : History) : list Operation :=
  flat_map (fun a => match a with Invoke o => [o] | _ => [] end) h.

End Agent.

(** ** Sample collaborators for these handlers *)

Module AgentSample.

Definition home : Agent.Space :=
  {| Agent.space_did := "did:key:home"; Agent.space_name := Some "home" |}.

(** A space whose name is the DID of [home]. *)
Definition decoy : Agent.Space :=
  {| Agent.space_did := "did:key:decoy";
     Agent.space_name := Some "did:key:home" |}.

Definition unnamed : Agent.Space :=
  {| Agent.space_did := "did:key:unnamed"; Agent.space_name := None |}.

Definition proof : Agent.Ucan :=
  {| Agent.ucan_cid := "bafyproof";
     Agent.ucan_issuer := "did:key:issuer";
     Agent.ucan_audience := "did:key:agent";
     Agent.ucan_capabilities :=
       [{| Agent.cap_with := "did:key:home"; Agent.cap_can := "store/add" |};
        {| Agent.cap_with := "did:key:home"; Agent.cap_can := "upload/add" |}] |}.

Definition space_unknown : Error := mkError "SpaceUnknown" (Some "space not found").

(** The service knows no space but [did:key:home]; plans are not set up;
    revocation succeeds. *)
Definition client : Agent.Client :=
  {| Agent.agent_spaces := fun _ => [decoy; unnamed; home];
     Agent.agent_currentSpace := fun _ => Some home;
     Agent.agent_setCurrentSpace := fun _ _ => Fulfilled tt;
     Agent.agent_space_info :=
       fun _ d =>
         if (d =? "did:key:home")%string
         then Fulfilled {| Agent.info_did := d;
                           Agent.info_providers := Some ["did:web:provider"] |}
         else Rejected space_unknown;
     Agent.agent_delegations := fun _ => [proof];
     Agent.agent_revokeDelegation :=
       fun _ _ _ => Fulfilled {| Agent.ok := Some tt; Agent.error := None |};
     Agent.agent_addProof := fun _ _ => Fulfilled tt;
     Agent.agent_plan_get :=
       fun _ _ =>
         Fulfilled {| Agent.ok := None;
                      Agent.error :=
                        Some (mkError "PlanNotFound" (Some "no plan")) |} |}.

Definition lib : Agent.Library :=
  {| Agent.readProof :=
       fun _ path =>
         if (path =? "proof.car")%string then Fulfilled proof
         else Rejected (mkError "Error" (Some "no such file"));
     Agent.parseLink :=
       fun s =>
         if String.prefix "bafy" s then Fulfilled s
         else Rejected (mkError "Error" (Some "invalid link"));
     Agent.string_trim := fun s => s;
     Agent.selectAccount :=
       fun _ => Fulfilled (Some {| did := "did:mailto:example.com:alice" |});
     Agent.useAccount := fun _ _ => Fulfilled None;
     Agent.dim := fun s => s;
     Agent.stringify_info := Agent.info_did;
     Agent.stringify_delegation := Agent.ucan_cid;
     Agent.stringify_proof := Agent.ucan_cid |}.

Definition no_agent : Error := mkError "Error" (Some "agent data is corrupt").

End AgentSample.

(** ** What the handlers print for a value *)

(** The line [spaceInfo] prints for [info]. *)
Definition rendered_info (lib : Agent.Library) (opts : Agent.SpaceInfoFlags)
    (info : Agent.SpaceInfo) : string :=
  if Agent.info_json opts then Agent.stringify_info lib info
  else Agent.info_text lib info.

(** The lines printed for the capabilities of a delegation. *)
Definition capability_lines (caps : list Agent.Capability) : list string :=
  flat_map (fun c => ["  with: " +++ Agent.cap_with c;
                      "  can: " +++ Agent.cap_can c]) caps.

(** The lines [addProof] prints for a proof. *)
Definition proof_lines (lib : Agent.Library) (opts : Agent.ProofFlags)
    (p : Agent.Ucan) : list string :=
  if Agent.proof_json opts then [Agent.stringify_proof lib p]
  else
    Agent.ucan_cid p :: ("  issuer: " +++ Agent.ucan_issuer p)
    :: capability_lines (Agent.ucan_capabilities p).

(** The lines [listDelegations] prints for a delegation. *)
Definition delegation_lines (lib : Agent.Library) (json : bool)
    (d : Agent.Ucan) : list string :=
  if json then [Agent.stringify_delegation lib d]
  else
    Agent.ucan_cid d :: ("  audience: " +++ Agent.ucan_audience d)
    :: capability_lines (Agent.ucan_capabilities d).

(** The proofs [revokeDelegation] passes on, and the history once they are
    read: the proof read from [--proof] when that names a file, none
    otherwise. *)
Definition proofs_read (lib : Agent.Library) (h : Agent.History)
    (proofPath : option string)
    : Settled (list Agent.Ucan * Agent.History) :=
  match proofPath with
  | Some path =>
      if (path =? "")%string then Fulfilled ([], h)
      else
        match Agent.readProof lib h path with
        | Fulfilled p =>
            Fulfilled ([p], h ++ [Agent.Invoke (Agent.ReadProof path)])
        | Rejected e => Rejected e
        end
  | None => Fulfilled ([], h)
  end.

(** How [getPlan] finds the account. *)
Definition account_lookup (lib : Agent.Library) (h : Agent.History)
    (email : string) : Agent.Operation * Settled (option Account) :=
  if (email =? "")%string
  then (Agent.SelectAccount, Agent.selectAccount lib h)
  else (Agent.UseAccount email, Agent.useAccount lib h email).

(** * Proofs *)

(** ** Pagination *)

Section PaginationProofs.

Variable host : Host.
Variable client : Client.
Variable opts : Flags.

Lemma item_count_cons p rest :
  item_count (p :: rest) = length (results p) + item_count rest.
Proof.
  unfold item_count. simpl. now rewrite length_app.
Qed.

(** One iteration, when the fetch answers with a page. *)
Lemma list_loop_page fuel prev count t r :
  capability_upload_list client t (cursor_of prev) = Fulfilled (Some r) ->
  list_loop host client opts (S fuel) prev count t =
  if loop_continues r
  then list_loop host client opts fuel (Some r) (count + length (results r))
         (t ++ page_events host opts prev r)
  else (Normal (count + length (results r)), t ++ page_events host opts prev r).
Proof.
  intros Hreply. cbn [list_loop]. unfold bind at 1, await. rewrite Hreply.
  unfold page_events, bind, console_log, emit, ret.
  destruct (has_length (results r)); destruct (loop_continues r);
    rewrite <- ?app_assoc; cbn [app]; rewrite ?app_nil_r; reflexivity.
Qed.

(** A run that returns had its first fetch answered with a page. *)
Lemma list_loop_no_page fuel prev count t c t' :
  list_loop host client opts (S fuel) prev count t = (Normal c, t') ->
  exists r, capability_upload_list client t (cursor_of prev) = Fulfilled (Some r).
Proof.
  cbn [list_loop]. unfold bind at 1, await.
  destruct (capability_upload_list client t (cursor_of prev)) as [[r|]|e];
    try discriminate.
  eauto.
Qed.

(** Pages that let the loop go on, then one that stops it: the loop fetches
    them all and returns. *)
Lemma list_loop_runs pages :
  forall last fuel prev count t,
    served host client opts t prev (pages ++ [last]) ->
    Forall (fun p => loop_continues p = true) pages ->
    loop_continues last = false ->
    length pages < fuel ->
    list_loop host client opts fuel prev count t =
    (Normal (count + item_count (pages ++ [last])),
     t ++ pages_trace host opts prev (pages ++ [last])).
Proof.
  induction pages as [|p rest IH]; intros last fuel prev count t Hs Hc Hl Hf;
    (destruct fuel as [|fuel]; [simpl in Hf; lia|]).
  - destruct Hs as [Hreply _]. cbn [app] in *.
    rewrite (list_loop_page _ _ _ _ _ Hreply), Hl.
    cbn [pages_trace]. rewrite app_nil_r, item_count_cons.
    unfold item_count. cbn. now rewrite Nat.add_0_r.
  - destruct Hs as [Hreply Hs]. inversion Hc as [|? ? Hp Hrest]; subst.
    cbn [app] in *. rewrite (list_loop_page _ _ _ _ _ Hreply), Hp.
    rewrite (IH last fuel (Some p) _ _ Hs Hrest Hl) by (simpl in Hf; lia).
    rewrite item_count_cons. cbn [pages_trace].
    now rewrite Nat.add_assoc, app_assoc.
Qed.

(** A run of the loop that returns fetched pages of that shape. *)
Lemma list_loop_returned fuel :
  forall prev count t c t',
    list_loop host client opts fuel prev count t = (Normal c, t') ->
    exists pages last,
      length pages < fuel
      /\ served host client opts t prev (pages ++ [last])
      /\ Forall (fun p => loop_continues p = true) pages
      /\ loop_continues last = false
      /\ c = count + item_count (pages ++ [last])
      /\ t' = t ++ pages_trace host opts prev (pages ++ [last]).
Proof.
  induction fuel as [|fuel IH]; intros prev count t c t' Hrun.
  - discriminate.
  - destruct (list_loop_no_page _ _ _ _ _ _ Hrun) as [r Hreply].
    rewrite (list_loop_page _ _ _ _ _ Hreply) in Hrun.
    destruct (loop_continues r) eqn:Hr.
    + apply IH in Hrun.
      destruct Hrun as (pages & last & Hlen & Hs & Hc & Hl & -> & ->).
      exists (r :: pages), last. cbn [app served pages_trace length].
      repeat split; auto.
      * lia.
      * rewrite item_count_cons. lia.
      * now rewrite app_assoc.
    + injection Hrun as <- <-. exists [], r. cbn [app served pages_trace length].
      repeat split; auto.
      * lia.
      * rewrite item_count_cons. unfold item_count. cbn. lia.
      * now rewrite app_nil_r.
Qed.

Lemma fetched_cursors_app t1 t2 :
  fetched_cursors (t1 ++ t2) = fetched_cursors t1 ++ fetched_cursors t2.
Proof. apply flat_map_app. Qed.

Lemma logged_app t1 t2 : logged (t1 ++ t2) = logged t1 ++ logged t2.
Proof. apply flat_map_app. Qed.

(** The pages with items are printed, one line each, in the order fetched. *)
Lemma logged_pages pages :
  forall prev,
    logged (pages_trace host opts prev pages) =
    map (fun p => uploadListResponseToString host p opts)
      (filter (fun p => has_length (results p)) pages).
Proof.
  induction pages as [|p rest IH]; intros prev; [reflexivity|].
  cbn [pages_trace filter]. rewrite logged_app, IH.
  unfold page_events. destruct (has_length (results p)); reflexivity.
Qed.

End PaginationProofs.

(** ** The page service *)

Lemma cursor_eqb_refl c : cursor_eqb c c = true.
Proof. destruct c; simpl; [apply String.eqb_refl | reflexivity]. Qed.

Lemma fetched_cursors_page_events host opts prev p :
  fetched_cursors (page_events host opts prev p) = [cursor_of prev].
Proof.
  unfold page_events. destruct (has_length (results p)); reflexivity.
Qed.

(** Each fetch presents the cursor of the response just before it. *)
Lemma fetched_cursors_run host opts pages :
  forall prev last,
    fetched_cursors (pages_trace host opts prev (pages ++ [last])) =
    cursor_of prev :: map cursor pages.
Proof.
  induction pages as [|p rest IH]; intros prev last;
    cbn [app pages_trace map]; rewrite fetched_cursors_app,
      fetched_cursors_page_events.
  - reflexivity.
  - now rewrite IH.
Qed.

(** The page service answers a loop that has fetched the pages [done] and
    holds the last of them with the pages that remain. *)
Lemma page_server_serves host opts rest :
  forall done prev t,
    length (fetched_cursors t) = length done ->
    cursor_of prev = nth (length done) (None :: map cursor (done ++ rest)) None ->
    served host (page_client (done ++ rest)) opts t prev rest.
Proof.
  induction rest as [|p rest IH]; intros done prev t Hk Hprev; [exact I|].
  cbn [served]. split.
  - cbn. unfold page_server. rewrite Hk, <- Hprev, cursor_eqb_refl.
    rewrite nth_error_app2, Nat.sub_diag by lia. reflexivity.
  - replace (done ++ p :: rest) with ((done ++ [p]) ++ rest)
      by now rewrite <- app_assoc.
    apply IH.
    + rewrite fetched_cursors_app, fetched_cursors_page_events.
      rewrite !length_app, Hk. reflexivity.
    + rewrite length_app, Nat.add_comm. cbn [length Nat.add nth].
      rewrite <- app_assoc, map_app. cbn [app map].
      rewrite app_nth2; rewrite length_map; [|lia].
      now rewrite Nat.sub_diag.
Qed.

(** ** The claims on [list] *)

(** A run of the loop only adds to the trace. *)
Lemma list_loop_extends host client opts fuel :
  forall prev count t,
    exists evs,
      snd (list_loop host client opts fuel prev count t) = t ++ evs.
Proof.
  induction fuel as [|fuel IH]; intros prev count t.
  - exists []. cbn. now rewrite app_nil_r.
  - destruct (capability_upload_list client t (cursor_of prev))
      as [[r|]|e] eqn:Hreply.
    + rewrite (list_loop_page _ _ _ _ _ _ _ _ Hreply).
      destruct (loop_continues r).
      * destruct (IH (Some r) (count + length (results r))
                    (t ++ page_events host opts prev r)) as [evs ->].
        exists (page_events host opts prev r ++ evs). now rewrite app_assoc.
      * now exists (page_events host opts prev r).
    + exists [Call (UploadList (cursor_of prev))].
      cbn [list_loop]. unfold bind, await. now rewrite Hreply.
    + exists [Call (UploadList (cursor_of prev))].
      cbn [list_loop]. unfold bind, await. now rewrite Hreply.
Qed.

(** An iteration starts with a fetch. *)
Lemma list_loop_fetches_first host client opts fuel prev count t :
  exists rest,
    snd (list_loop host client opts (S fuel) prev count t) =
    t ++ Call (UploadList (cursor_of prev)) :: rest.
Proof.
  destruct (capability_upload_list client t (cursor_of prev))
    as [[r|]|e] eqn:Hreply.
  - rewrite (list_loop_page _ _ _ _ _ _ _ _ Hreply).
    destruct (loop_continues r).
    + destruct (list_loop_extends host client opts fuel (Some r)
                  (count + length (results r))
                  (t ++ page_events host opts prev r)) as [evs ->].
      unfold page_events. rewrite <- app_assoc. cbn [app]. eauto.
    + unfold page_events. cbn [snd]. eauto.
  - exists []. cbn [list_loop]. unfold bind, await. now rewrite Hreply.
  - exists []. cbn [list_loop]. unfold bind, await. now rewrite Hreply.
Qed.

(** The loop condition, spelled out. *)
Lemma loop_continues_iff p :
  loop_continues p = true <->
  (exists c, cursor p = Some c /\ c <> "") /\ results p <> [].
Proof.
  unfold loop_continues, truthy. rewrite andb_true_iff. split.
  - intros [Hc Hr]. split.
    + destruct (cursor p) as [c|]; [|discriminate]. exists c. split; [easy|].
      apply negb_true_iff, String.eqb_neq in Hc. exact Hc.
    + destruct (results p); [discriminate|easy].
  - intros [(c & -> & Hc) Hr]. split.
    + now apply negb_true_iff, String.eqb_neq.
    + destruct (results p); [contradiction|reflexivity].
Qed.

(** C1, as amended.  For every client (fetch function), the loop of [list]
    fetches at least once, and it continues while the page just fetched has a
    cursor (defined and not the empty string) AND has items: a run returns
    exactly when the pages fetched are some pages that all have both,
    followed by one page that lacks a cursor or lacks items, at which the loop
    stops.  Each fetch is made with the cursor of the response before it. *)
Theorem list_loop_continues_while_cursor_and_items host client opts :
  (forall fuel prev count t,
      exists rest,
        snd (list_loop host client opts (S fuel) prev count t) =
        t ++ Call (UploadList (cursor_of prev)) :: rest)
  /\ (forall fuel prev count t c t',
         list_loop host client opts fuel prev count t = (Normal c, t') <->
         exists pages last,
           length pages < fuel
           /\ served host client opts t prev (pages ++ [last])
           /\ Forall (fun p => loop_continues p = true) pages
           /\ loop_continues last = false
           /\ c = count + item_count (pages ++ [last])
           /\ t' = t ++ pages_trace host opts prev (pages ++ [last]))
  /\ (forall p,
         loop_continues p = true <->
         (exists c, cursor p = Some c /\ c <> "") /\ results p <> []).
Proof.
  split; [|split].
  - intros. apply list_loop_fetches_first.
  - intros fuel prev count t c t'. split.
    + apply list_loop_returned.
    + intros (pages & last & Hlen & Hs & Hc & Hl & -> & ->).
      now apply list_loop_runs.
  - apply loop_continues_iff.
Qed.

(** A run on the sample pages, read through the theorem. *)
Lemma list_loop_continues_while_cursor_and_items_witness :
  exists pages last,
    length pages < 5
    /\ served Sample.host (page_client [Sample.first_page; Sample.final_page])
         Sample.plain [] None (pages ++ [last])
    /\ Forall (fun p => loop_continues p = true) pages
    /\ loop_continues last = false
    /\ 3 = 0 + item_count (pages ++ [last]).
Proof.
  destruct (list_loop_continues_while_cursor_and_items Sample.host
              (page_client [Sample.first_page; Sample.final_page])
              Sample.plain)
    as (_ & Hreturns & _).
  destruct (proj1 (Hreturns 5 None 0 [] 3 _) eq_refl)
    as (pages & last & H1 & H2 & H3 & H4 & H5 & _).
  exists pages, last. repeat split; assumption.
Defined.

(** C1, as the claim states it, fails: a page with a defined cursor and no
    items satisfies the predicate "cursor defined OR page had items", and the
    loop stops at it after one fetch, with fuel left for four more. *)
Lemma list_loop_stops_at_empty_page_with_cursor :
  spec_continues Sample.empty_page_with_cursor = true
  /\ list_loop Sample.host
       (listing_client (fun _ _ => Fulfilled (Some Sample.empty_page_with_cursor)))
       Sample.plain 5 None 0 []
     = (Normal 0, [Call (UploadList None)]).
Proof. split; reflexivity. Qed.

(** C2, as amended.  For every page sequence in which every page before the
    last has a cursor (defined, not empty) and at least one item, and whose
    last page carries an undefined cursor, the loop of [list] terminates;
    it counts exactly the items of the concatenation of all pages, prints the
    pages that have items in the order the service gave them, and makes one
    fetch per page, each with the cursor of the response just before it (the
    service rejects any other cursor). *)
Theorem list_loop_drains_page_sequence host opts pages last fuel :
  Forall (fun p => (exists c, cursor p = Some c /\ c <> "") /\ results p <> [])
    pages ->
  cursor last = None ->
  length pages < fuel ->
  exists t',
    list_loop host (page_client (pages ++ [last])) opts fuel None 0 [] =
    (Normal (length (concat (map results (pages ++ [last])))), t')
    /\ fetched_cursors t' = None :: map cursor pages
    /\ logged t' =
       map (fun p => uploadListResponseToString host p opts)
         (filter (fun p => has_length (results p)) (pages ++ [last])).
Proof.
  intros Hc Hlast Hfuel.
  apply (Forall_impl _ (fun p => proj2 (loop_continues_iff p))) in Hc.
  exists (pages_trace host opts None (pages ++ [last])). split; [|split].
  - rewrite (list_loop_runs host (page_client (pages ++ [last])) opts
               pages last fuel None 0 []); auto.
    + apply (page_server_serves host opts (pages ++ [last]) [] None []);
        reflexivity.
    + unfold loop_continues. now rewrite Hlast.
  - apply (fetched_cursors_run host opts pages None last).
  - apply logged_pages.
Qed.

Lemma list_loop_drains_page_sequence_witness :
  exists t',
    list_loop Sample.host (page_client [Sample.first_page; Sample.final_page])
      Sample.plain 2 None 0 [] = (Normal 3, t')
    /\ fetched_cursors t' = [None; Some "c1"]
    /\ logged t' = ["bafyrootA" +++ nl +++ "bafyrootB"; "bafyrootC"].
Proof.
  apply (list_loop_drains_page_sequence Sample.host Sample.plain
           [Sample.first_page] Sample.final_page 2).
  - repeat constructor; [now exists "c1"|discriminate].
  - reflexivity.
  - simpl. lia.
Defined.

(** C2, as the claim states it, fails: the sequence below ends with a page
    whose cursor is undefined, its concatenation holds one item, and the loop
    stops after the first page, which has a cursor and no items: it counts no
    item and prints none. *)
Lemma list_loop_misses_pages_after_empty_page :
  cursor Sample.final_page = None
  /\ concat (map results [Sample.empty_page_with_cursor; Sample.final_page])
     = [Sample.upload_c]
  /\ list_loop Sample.host
       (page_client [Sample.empty_page_with_cursor; Sample.final_page])
       Sample.plain 5 None 0 []
     = (Normal 0, [Call (UploadList None)]).
Proof. repeat split; reflexivity. Qed.

(** C9.  When the space has no uploads (the service answers the first fetch
    with a page without results), [list] prints no upload record, and it
    prints the two lines of the "no uploads" notice exactly when [--json] is
    not set; with [--json] it prints nothing at all. *)
Theorem list_uploads_empty_space host client opts fuel t r :
  capability_upload_list client t None = Fulfilled (Some r) ->
  results r = [] ->
  list_uploads host client opts (S fuel) t =
  (Normal tt,
   t ++ Call (UploadList None)
     :: (if json opts then []
         else [Log "⁂ No uploads in space";
               Log "⁂ Try out `w3 up <path to files>` to upload some"])).
Proof.
  intros Hreply Hnone. unfold list_uploads, bind at 1.
  rewrite (list_loop_page host client opts fuel None 0 t r Hreply).
  unfold loop_continues, page_events. rewrite Hnone. cbn [has_length].
  rewrite andb_false_r. cbn [length Nat.add Nat.eqb andb].
  destruct (json opts); cbn [negb].
  - reflexivity.
  - unfold bind, console_log, emit. rewrite <- !app_assoc. reflexivity.
Qed.

Lemma list_uploads_empty_space_witness :
  list_uploads Sample.host (page_client [Sample.empty_page]) Sample.as_json 1 []
  = (Normal tt, [Call (UploadList None)])
  /\ list_uploads Sample.host (page_client [Sample.empty_page]) Sample.plain 1 []
     = (Normal tt,
        [Call (UploadList None); Log "⁂ No uploads in space";
         Log "⁂ Try out `w3 up <path to files>` to upload some"]).
Proof.
  split.
  - apply (list_uploads_empty_space Sample.host
             (page_client [Sample.empty_page]) Sample.as_json 0 []
             Sample.empty_page); reflexivity.
  - apply (list_uploads_empty_space Sample.host
             (page_client [Sample.empty_page]) Sample.plain 0 []
             Sample.empty_page); reflexivity.
Defined.

(** ** The claims on [remove] *)

Section RemoveProofs.

Variable host : Host.
Variable client : Client.

Lemma map_removeShard_run shards :
  forall t,
    map_removeShard client shards t =
    (Normal (map promise_of (shard_outcomes client t shards)),
     t ++ fan_out shards).
Proof.
  induction shards as [|shard rest IH]; intros t.
  - cbn. unfold ret. now rewrite app_nil_r.
  - cbn [map_removeShard shard_outcomes map fan_out flat_map].
    unfold bind at 1, removeShard. unfold bind at 1. rewrite IH.
    unfold ret, promise_of at 1. cbn [fst snd]. rewrite <- app_assoc.
    reflexivity.
Qed.

Lemma shard_outcomes_shards shards :
  forall t, map fst (shard_outcomes client t shards) = shards.
Proof.
  induction shards as [|shard rest IH]; intros t; cbn; [|rewrite IH];
    reflexivity.
Qed.

Lemma removal_requests_app t1 t2 :
  removal_requests (t1 ++ t2) = removal_requests t1 ++ removal_requests t2.
Proof. apply flat_map_app. Qed.

Lemma reported_outcomes_app t1 t2 :
  reported_outcomes (t1 ++ t2) = reported_outcomes t1 ++ reported_outcomes t2.
Proof. apply filter_app. Qed.

Lemma removal_requests_fan_out shards :
  removal_requests (fan_out shards) = shards.
Proof.
  induction shards as [|shard rest IH]; [reflexivity|].
  change (fan_out (shard :: rest))
    with ([Call (StoreRemove shard); SpinnerStart shard] ++ fan_out rest).
  rewrite removal_requests_app, IH. reflexivity.
Qed.

Lemma reported_outcomes_fan_out shards :
  reported_outcomes (fan_out shards) = [].
Proof.
  induction shards as [|shard rest IH]; [reflexivity|].
  change (fan_out (shard :: rest))
    with ([Call (StoreRemove shard); SpinnerStart shard] ++ fan_out rest).
  rewrite reported_outcomes_app, IH. reflexivity.
Qed.

(** The reports of promises made by [removeShard] are spinner outcomes, and
    none is a request. *)
Lemma reports_of_promises (ps : list (Promise unit)) :
  Forall (fun p => exists o, p = promise_of o) ps ->
  reported_outcomes (map on_settle ps) = map on_settle ps
  /\ removal_requests (map on_settle ps) = [].
Proof.
  induction 1 as [|p ps [[shard o] ->] _ [IH1 IH2]]; [split; reflexivity|].
  cbn [map]. unfold reported_outcomes, removal_requests in *.
  destruct o; cbn; rewrite ?IH1, ?IH2; split; reflexivity.
Qed.

Lemma Forall_promise_of os :
  Forall (fun p => exists o, p = promise_of o) (map promise_of os).
Proof.
  induction os; constructor; eauto.
Qed.

(** [remove], once the identifier has parsed and the upload is removed. *)
Lemma remove_after_upload rootCid opts t r u :
  CID_parse host (trim host rootCid) = Fulfilled r ->
  capability_upload_remove client t r = Fulfilled u ->
  opt_shards opts = true ->
  remove host client rootCid opts t =
  match root u, shards u with
  | None, _ =>
      (Normal tt,
       t ++ [Call (UploadRemove r);
             Log "⁂ upload not found. could not determine shards to remove."])
  | Some _, None | Some _, Some [] =>
      (Normal tt, t ++ [Call (UploadRemove r); Log "⁂ no shards to remove."])
  | Some _, Some shards' =>
      let t0 := t ++ [Call (UploadRemove r); Log (removing_message shards')] in
      let outcomes := shard_outcomes client t0 shards' in
      (if existsb is_rejected (map snd outcomes) then Exits 1%Z else Normal tt,
       t0 ++ fan_out shards'
          ++ map on_settle (settle_order host (map promise_of outcomes)))
  end.
Proof.
  intros Hparse Hremove Hflag. unfold remove, parse_root, remove_upload.
  unfold bind at 1, try_catch, call_sync. rewrite Hparse. unfold ret at 1.
  unfold bind at 1, try_catch, await. rewrite Hremove, Hflag. cbn [negb].
  destruct (root u) as [c|].
  - destruct (shards u) as [[|shard rest]|].
    + unfold console_log, emit. now rewrite <- app_assoc.
    + unfold bind at 1, console_log, emit. unfold bind at 1.
      rewrite map_removeShard_run. unfold bind, allSettled.
      rewrite <- !app_assoc. cbn [app removing_message].
      rewrite map_map. cbn [promise_of settles].
      destruct (existsb _ _); reflexivity.
    + unfold console_log, emit. now rewrite <- app_assoc.
  - unfold console_log, emit. now rewrite <- app_assoc.
Qed.

End RemoveProofs.

Lemma existsb_rejected (outcomes : list (CARLink * Settled unit)) :
  existsb is_rejected (map snd outcomes) = true <->
  exists shard e, In (shard, Rejected e) outcomes.
Proof.
  rewrite existsb_exists. split.
  - intros (o & Hin & Hrej). apply in_map_iff in Hin.
    destruct Hin as ([shard o'] & <- & Hin). cbn in Hrej.
    destruct o' as [|e]; [discriminate|]. eauto.
  - intros (shard & e & Hin). exists (Rejected e). split; [|reflexivity].
    apply in_map_iff. now exists (shard, Rejected e).
Qed.

(** C3.  In [remove] with [--shards], once the upload record is removed and
    names its root, one removal request is sent for every shard of the record,
    whatever the other requests come to; every shard gets exactly one outcome,
    which the spinners report in the order the promises settle; and the
    process exits with status 1 exactly when one of these outcomes is a
    failure, and with status 0 when none is. *)
Theorem remove_settles_every_shard host client rootCid opts t r u c shard_list :
  (forall ps, Permutation (settle_order host ps) ps) ->
  CID_parse host (trim host rootCid) = Fulfilled r ->
  capability_upload_remove client t r = Fulfilled u ->
  opt_shards opts = true ->
  root u = Some c ->
  shards u = Some shard_list ->
  let t0 := t ++ [Call (UploadRemove r); Log (removing_message shard_list)] in
  let outcomes := shard_outcomes client t0 shard_list in
  let run := remove host client rootCid opts t in
  exists evs,
    run = (if existsb is_rejected (map snd outcomes)
           then Exits 1%Z else Normal tt,
           t0 ++ evs)
    /\ map fst outcomes = shard_list
    /\ removal_requests evs = shard_list
    /\ Permutation (reported_outcomes evs)
         (map (fun o => shard_report (fst o) (snd o)) outcomes)
    /\ (exit_status (fst run) = Some 1%Z <->
        exists shard e, In (shard, Rejected e) outcomes)
    /\ ((forall shard e, ~ In (shard, Rejected e) outcomes) ->
        exit_status (fst run) = Some 0%Z).
Proof.
  intros Hperm Hparse Hremove Hflag Hroot Hshards t0 outcomes run.
  assert (Hrun :
    run = (if existsb is_rejected (map snd outcomes)
           then Exits 1%Z else Normal tt,
           t0 ++ fan_out shard_list
              ++ map on_settle (settle_order host (map promise_of outcomes)))).
  { unfold run. rewrite (remove_after_upload host client _ _ _ _ _
                           Hparse Hremove Hflag), Hroot, Hshards.
    destruct shard_list; [|reflexivity].
    unfold outcomes, t0. cbn.
    rewrite (Permutation_nil (Permutation_sym (Hperm []))).
    cbn. now rewrite app_nil_r. }
  assert (Hmade : Forall (fun p => exists o, p = promise_of o)
                    (settle_order host (map promise_of outcomes))).
  { apply Forall_forall. intros p Hin.
    apply (Permutation_in _ (Hperm _)) in Hin.
    revert p Hin. apply Forall_forall, Forall_promise_of. }
  destruct (reports_of_promises _ Hmade) as [Hrep Hreq].
  exists (fan_out shard_list
          ++ map on_settle (settle_order host (map promise_of outcomes))).
  split; [exact Hrun|]. split; [apply shard_outcomes_shards|].
  split; [|split; [|split]].
  - rewrite removal_requests_app, removal_requests_fan_out, Hreq.
    apply app_nil_r.
  - rewrite reported_outcomes_app, reported_outcomes_fan_out, Hrep. cbn [app].
    rewrite <- (map_map promise_of on_settle).
    apply Permutation_map, Hperm.
  - rewrite Hrun, <- existsb_rejected. cbn [fst].
    destruct (existsb _ _); cbn; split; congruence.
  - intros Hnone. rewrite Hrun. cbn [fst].
    destruct (existsb _ _) eqn:Hex; [|reflexivity].
    apply existsb_rejected in Hex. destruct Hex as (shard & e & Hin).
    now destruct (Hnone shard e).
Qed.

Lemma remove_settles_every_shard_witness :
  exists evs,
    remove Sample.host (SampleRemoval.client SampleRemoval.upload) "bafyroot"
      Sample.with_shards []
    = (Exits 1%Z,
       [Call (UploadRemove "bafyroot"); Log "⁂ removing 3 shards"] ++ evs)
    /\ removal_requests evs = ["bagshardA"; "bagshardB"; "bagshardC"]
    /\ Permutation (reported_outcomes evs)
         [SpinnerSucceed "bagshardA removed"; SpinnerFail "bagshardB failed";
          SpinnerSucceed "bagshardC removed"].
Proof.
  destruct (remove_settles_every_shard Sample.host
              (SampleRemoval.client SampleRemoval.upload) "bafyroot"
              Sample.with_shards [] "bafyroot" SampleRemoval.upload "bafyroot"
              ["bagshardA"; "bagshardB"; "bagshardC"]
              (fun ps => Permutation_sym (Permutation_rev ps))
              eq_refl eq_refl eq_refl eq_refl eq_refl)
    as (evs & Hrun & _ & Hreq & Hrep & _).
  exists evs. split; [exact Hrun|]. split; [exact Hreq|exact Hrep].
Defined.

(** C8.  When [remove] runs with [--shards] and the removed upload record
    carries an empty shard set, nothing is removed from the store and the
    command succeeds: it prints one line and returns, no removal request is
    sent, no outcome is reported, and the exit status is 0. *)
Theorem remove_empty_shard_set host client rootCid opts t r u :
  CID_parse host (trim host rootCid) = Fulfilled r ->
  capability_upload_remove client t r = Fulfilled u ->
  opt_shards opts = true ->
  shards u = Some [] ->
  let run := remove host client rootCid opts t in
  (exists line, run = (Normal tt, t ++ [Call (UploadRemove r); Log line]))
  /\ removal_requests (snd run) = removal_requests t
  /\ reported_outcomes (snd run) = reported_outcomes t
  /\ exit_status (fst run) = Some 0%Z.
Proof.
  intros Hparse Hremove Hflag Hnone run. unfold run.
  rewrite (remove_after_upload host client _ _ _ _ _ Hparse Hremove Hflag).
  rewrite Hnone.
  destruct (root u); cbn [fst snd];
    rewrite removal_requests_app, reported_outcomes_app; cbn;
    rewrite !app_nil_r; eauto.
Qed.

Lemma remove_empty_shard_set_witness :
  remove Sample.host (SampleRemoval.client SampleRemoval.without_shards)
    "bafyroot" Sample.with_shards []
  = (Normal tt, [Call (UploadRemove "bafyroot"); Log "⁂ no shards to remove."])
  /\ exit_status
       (fst (remove Sample.host
               (SampleRemoval.client SampleRemoval.without_shards)
               "bafyroot" Sample.with_shards []))
     = Some 0%Z.
Proof.
  destruct (remove_empty_shard_set Sample.host
              (SampleRemoval.client SampleRemoval.without_shards) "bafyroot"
              Sample.with_shards [] "bafyroot" SampleRemoval.without_shards
              eq_refl eq_refl eq_refl eq_refl)
    as (_ & _ & _ & Hexit).
  split; [reflexivity|exact Hexit].
Defined.

(** C10.  In [remove] with [--shards], when the removal of the upload record
    succeeds and the record returned has no root, or has no shard list, or has
    an empty one, the command prints one informational line and returns: no
    shard removal request is sent and the exit status is 0. *)
Theorem remove_skips_shards_silently host client rootCid opts t r u :
  CID_parse host (trim host rootCid) = Fulfilled r ->
  capability_upload_remove client t r = Fulfilled u ->
  opt_shards opts = true ->
  root u = None \/ shards u = None \/ shards u = Some [] ->
  let run := remove host client rootCid opts t in
  run =
  (Normal tt,
   t ++ [Call (UploadRemove r);
         Log (match root u with
              | None =>
                  "⁂ upload not found. could not determine shards to remove."
              | Some _ => "⁂ no shards to remove."
              end)])
  /\ removal_requests (snd run) = removal_requests t
  /\ exit_status (fst run) = Some 0%Z.
Proof.
  intros Hparse Hremove Hflag Hcase run. unfold run.
  rewrite (remove_after_upload host client _ _ _ _ _ Hparse Hremove Hflag).
  destruct (root u) as [c|].
  - destruct Hcase as [Hcase|[Hcase|Hcase]]; [discriminate| |];
      rewrite Hcase; cbn [fst snd]; rewrite removal_requests_app; cbn;
      rewrite app_nil_r; auto.
  - cbn [fst snd]. rewrite removal_requests_app; cbn.
    rewrite app_nil_r; auto.
Qed.

Lemma remove_skips_shards_silently_witness :
  remove Sample.host (SampleRemoval.client SampleRemoval.not_found)
    "bafyroot" Sample.with_shards []
  = (Normal tt,
     [Call (UploadRemove "bafyroot");
      Log "⁂ upload not found. could not determine shards to remove."]).
Proof.
  apply (remove_skips_shards_silently Sample.host
           (SampleRemoval.client SampleRemoval.not_found) "bafyroot"
           Sample.with_shards [] "bafyroot" SampleRemoval.not_found
           eq_refl eq_refl eq_refl (or_introl eq_refl)).
Defined.

(** ** Computations that return *)

Lemma returns_ret {A} (a : A) : returns (ret a) a.
Proof. intros t. now exists t. Qed.

Lemma returns_bind {A B} (m : M A) (k : A -> M B) a b :
  returns m a -> returns (k a) b -> returns (bind m k) b.
Proof.
  intros Hm Hk t. destruct (Hm t) as [t1 H1]. destruct (Hk t1) as [t2 H2].
  exists t2. unfold bind. now rewrite H1.
Qed.

Lemma returns_emit ev : returns (emit ev) tt.
Proof. intros t. now exists (t ++ [ev]). Qed.

Lemma returns_await {A} ev (reply : Trace -> Settled A) a :
  (forall t, reply t = Fulfilled a) -> returns (await ev reply) a.
Proof.
  intros Hreply t. exists (t ++ [ev]). unfold await. now rewrite Hreply.
Qed.

Lemma returns_for_of {A B} (f : B -> A -> B) (body : A -> B -> M B) xs :
  forall acc,
    (forall x acc', In x xs -> returns (body x acc') (f acc' x)) ->
    returns (for_of xs acc body) (fold_left f xs acc).
Proof.
  induction xs as [|x rest IH]; intros acc Hbody; cbn [for_of fold_left].
  - apply returns_ret.
  - apply returns_bind with (a := f acc x).
    + apply Hbody. now left.
    + apply IH. intros y acc' Hy. apply Hbody. now right.
Qed.

Lemma fold_left_flat_map {A B C} (f : C -> B -> C) (g : A -> list B) xs :
  forall acc,
    fold_left f (flat_map g xs) acc =
    fold_left (fun acc' x => fold_left f (g x) acc') xs acc.
Proof.
  induction xs as [|x rest IH]; intros acc; [reflexivity|].
  cbn [flat_map fold_left]. now rewrite fold_left_app, IH.
Qed.

Lemma fold_left_map {A B C} (f : C -> B -> C) (h : A -> B) xs :
  forall acc,
    fold_left f (map h xs) acc = fold_left (fun acc' x => f acc' (h x)) xs acc.
Proof.
  induction xs as [|x rest IH]; intros acc; [reflexivity|apply IH].
Qed.

Lemma length_flat_map_uniform {A B} (g : A -> list B) k xs :
  (forall x, In x xs -> length (g x) = k) ->
  length (flat_map g xs) = length xs * k.
Proof.
  induction xs as [|x rest IH]; intros Hk; [reflexivity|].
  cbn [flat_map length]. rewrite length_app, Hk, IH.
  - reflexivity.
  - intros y Hy. apply Hk. now right.
  - now left.
Qed.

Lemma fold_left_collect (records : list UsageRecord) :
  forall acc, fold_left (fun acc' r => acc' ++ [r]) records acc = acc ++ records.
Proof.
  induction records as [|r rest IH]; intros acc; cbn [fold_left].
  - now rewrite app_nil_r.
  - rewrite IH, <- app_assoc. reflexivity.
Qed.

(** ** The claims on [usageReport] *)

Section UsageProofs.

Variable host : Host.
Variable client : Client.
Variable period : Period.
Variable subs : Account -> list Subscription.
Variable report : DID -> list (string * UsageData).

Hypothesis subscriptions_answer :
  forall t a,
    In a (client_accounts client) ->
    capability_subscription_list client t (did a) =
    Fulfilled {| subscriptions := subs a |}.

Hypothesis reports_answer :
  forall t a sub s,
    In a (client_accounts client) ->
    In sub (subs a) ->
    In s (consumers sub) ->
    capability_usage_report client t s period = Fulfilled (report s).

(** When every request is answered, the traversal hands to its consumer the
    records of [usage_records], one after the other. *)
Lemma getSpaceUsageReports_returns {B} (f : B -> UsageRecord -> B)
    (consume : UsageRecord -> B -> M B) acc :
  (forall r acc', returns (consume r acc') (f acc' r)) ->
  returns (getSpaceUsageReports client period acc consume)
    (fold_left f (usage_records (client_accounts client) subs report) acc).
Proof.
  intros Hconsume. unfold getSpaceUsageReports, usage_records.
  rewrite fold_left_flat_map. apply returns_for_of. intros a acc1 Ha.
  apply returns_bind with (a := {| subscriptions := subs a |}).
  { apply returns_await. intros t. now apply subscriptions_answer. }
  cbn [subscriptions]. rewrite fold_left_flat_map.
  apply returns_for_of. intros sub acc2 Hsub.
  rewrite fold_left_flat_map. apply returns_for_of. intros s acc3 Hs.
  apply returns_bind with (a := report s).
  { apply returns_await. intros t. now apply (reports_answer t a sub s). }
  rewrite fold_left_map. apply returns_for_of. intros entry acc4 _.
  apply Hconsume.
Qed.

End UsageProofs.

Lemma returns_print_usage host now opts r total :
  returns (print_usage host now opts r total)
    (number_add total (to_number (final (record_size r)))).
Proof.
  unfold print_usage. cbn zeta. eapply returns_bind; [|apply returns_ret].
  destruct (json opts).
  - apply returns_emit.
  - repeat (eapply returns_bind; [apply returns_emit|]). apply returns_emit.
Qed.

(** ** Sums within the safe integers *)

Lemma to_number_safe z :
  (Z.abs z <= MAX_SAFE_INTEGER + 1)%Z -> to_number z = Finite z.
Proof.
  intros Hz. unfold to_number. cbn zeta.
  apply Z.leb_le in Hz. now rewrite Hz.
Qed.

Lemma number_to_string_safe z :
  (0 <= z <= MAX_SAFE_INTEGER + 1)%Z ->
  number_to_string (Finite z) = integer_to_string z.
Proof.
  intros [Hlo Hhi]. unfold number_to_string, digits_to_string.
  apply Z.ltb_ge in Hlo. apply Z.leb_le in Hhi. now rewrite Hlo, Hhi.
Qed.

Lemma sum_of_sizes_nonneg records :
  Forall (fun r => (0 <= final (record_size r))%Z) records ->
  (0 <= sum_of_sizes records)%Z.
Proof.
  induction 1 as [|r rest Hr _ IH]; cbn [sum_of_sizes fold_right]; [lia|].
  fold (sum_of_sizes rest). lia.
Qed.

Lemma fold_number_add_safe records :
  forall acc,
    (0 <= acc)%Z ->
    Forall (fun r => (0 <= final (record_size r))%Z) records ->
    (acc + sum_of_sizes records <= MAX_SAFE_INTEGER)%Z ->
    fold_left
      (fun total r => number_add total (to_number (final (record_size r))))
      records (Finite acc)
    = Finite (acc + sum_of_sizes records).
Proof.
  induction records as [|r rest IH]; intros acc Hacc Hall Hsum.
  - cbn. now rewrite Z.add_0_r.
  - inversion Hall as [|? ? Hr Hrest]; subst.
    pose proof (sum_of_sizes_nonneg rest Hrest) as Hpos.
    cbn [sum_of_sizes fold_right] in Hsum |- *.
    fold (sum_of_sizes rest) in Hsum |- *.
    cbn [fold_left].
    rewrite (to_number_safe (final (record_size r))) by lia.
    cbn [number_add]. rewrite to_number_safe by lia.
    rewrite IH; [f_equal; lia|lia|exact Hrest|lia].
Qed.

(** The additions of [usageReport] are exact as long as the sizes are byte
    counts whose sum is a safe integer. *)
Lemma total_size_safe records :
  safe_sizes records -> total_size records = Finite (sum_of_sizes records).
Proof.
  intros [Hall Hsum]. unfold total_size.
  now rewrite fold_number_add_safe; [|lia|exact Hall|].
Qed.

Lemma safe_sizes_each records r :
  safe_sizes records -> In r records ->
  (0 <= final (record_size r) <= MAX_SAFE_INTEGER)%Z.
Proof.
  intros [Hall Hsum]. revert Hsum.
  induction Hall as [|r0 rest Hr0 Hrest IH]; intros Hsum Hin; [destruct Hin|].
  pose proof (sum_of_sizes_nonneg rest Hrest) as Hpos.
  cbn [sum_of_sizes fold_right] in Hsum. fold (sum_of_sizes rest) in Hsum.
  destruct Hin as [<-|Hin]; [lia|]. apply IH; [lia|exact Hin].
Qed.

(** C4, as amended.  For every client exposing N accounts, each with M
    subscription entries, each listing K consumer spaces, each space's usage
    report holding R records, the traversal of [getSpaceUsageReports] yields
    exactly N x M x K x R records, in the order of the traversal; each is the
    record of the service's report (provider, space and size as the report
    gives them) tagged with the account it was reached from.  The total that
    [usageReport] accumulates is the result of adding the final sizes one
    after the other as JavaScript numbers; when the sizes are byte counts
    whose sum is a safe integer, at most 2^53 - 1, it is the sum of
    [size.final] over the records yielded, and that sum is what
    [usageReport] prints as the total unless [--json] is set. *)
Theorem usage_traversal_yields_every_record host client now opts subs report
    N M K R :
  let period := {| from := startOfLastMonth host now; to := now |} in
  (forall t a,
      In a (client_accounts client) ->
      capability_subscription_list client t (did a) =
      Fulfilled {| subscriptions := subs a |}) ->
  (forall t a sub s,
      In a (client_accounts client) -> In sub (subs a) ->
      In s (consumers sub) ->
      capability_usage_report client t s period = Fulfilled (report s)) ->
  length (client_accounts client) = N ->
  (forall a, In a (client_accounts client) -> length (subs a) = M) ->
  (forall a sub,
      In a (client_accounts client) -> In sub (subs a) ->
      length (consumers sub) = K) ->
  (forall a sub s,
      In a (client_accounts client) -> In sub (subs a) ->
      In s (consumers sub) -> length (report s) = R) ->
  let records := usage_records (client_accounts client) subs report in
  returns (getSpaceUsageReports client period [] collect) records
  /\ length records = N * M * K * R
  /\ returns (usage_total host client now opts) (total_size records)
  /\ (safe_sizes records ->
      returns (usage_total host client now opts)
        (Finite (sum_of_sizes records))
      /\ forall t,
           exists t',
             usageReport host client now opts t =
             (Normal tt,
              t' ++ (if json opts then []
                     else [Log ("   Total: "
                                +++ (if human opts
                                     then filesize host
                                            (Finite (sum_of_sizes records))
                                     else integer_to_string
                                            (sum_of_sizes records)))]))).
Proof.
  intros period Hsubs Hrep HN HM HK HR records.
  assert (Htotal :
    returns (usage_total host client now opts) (total_size records)).
  { unfold usage_total, total_size.
    apply (getSpaceUsageReports_returns client period subs report Hsubs Hrep).
    intros r acc. apply returns_print_usage. }
  split; [|split; [|split; [exact Htotal|]]].
  - pose proof (getSpaceUsageReports_returns client period subs report
                  Hsubs Hrep (fun acc r => acc ++ [r]) collect []
                  (fun r acc => returns_ret (acc ++ [r]))) as Hrun.
    rewrite fold_left_collect in Hrun. exact Hrun.
  - unfold records, usage_records.
    rewrite (length_flat_map_uniform _ (M * (K * R))), HN; [lia|].
    intros a Ha.
    rewrite (length_flat_map_uniform _ (K * R)), (HM a Ha); [lia|].
    intros sub Hsub.
    rewrite (length_flat_map_uniform _ R), (HK a sub Ha Hsub); [lia|].
    intros s Hs. rewrite length_map. now apply (HR a sub s).
  - intros Hsafe. rewrite (total_size_safe records Hsafe) in Htotal.
    split; [exact Htotal|].
    intros t. destruct (Htotal t) as [t' Hrun]. exists t'.
    unfold usageReport, bind. rewrite Hrun.
    destruct (json opts); cbn [negb]; [now rewrite app_nil_r|].
    unfold console_log, emit. rewrite number_to_string_safe; [reflexivity|].
    destruct Hsafe as [Hall Hsum].
    pose proof (sum_of_sizes_nonneg records Hall). lia.
Qed.

Lemma usage_traversal_yields_every_record_witness :
  exists t',
    usage_total Sample.host (SampleUsage.client SampleUsage.steady) 5000%Z
      Sample.plain []
    = (Normal (Finite 200), t').
Proof.
  refine (proj1 (proj2 (proj2 (proj2
            (usage_traversal_yields_every_record Sample.host
               (SampleUsage.client SampleUsage.steady) 5000%Z Sample.plain
               (fun a => subscriptions (SampleUsage.subscriptions_of (did a)))
               (fun s => SampleUsage.report_of s 100%Z)
               2 1 1 1 _ _ eq_refl _ _ _))) _) []).
  - intros t a [<-|[<-|[]]]; reflexivity.
  - intros; reflexivity.
  - intros a [<-|[<-|[]]]; reflexivity.
  - intros a sub [<-|[<-|[]]] [<-|[]]; reflexivity.
  - intros; reflexivity.
  - split; [repeat constructor; discriminate|discriminate].
Defined.

(** C4, as the claim states it, fails, in two ways.  The space of a yielded
    record is the one the report names: the first service below names
    [did:key:other] in every report; the traversal requests the reports of
    [did:key:space1] and [did:key:space2], and both records it yields carry
    [did:key:other].  And the total is not always the sum: the second service
    reports 2^53 bytes for one space and 1 byte for the other; their sum is
    9007199254740993 and the total [usageReport] prints is
    9007199254740992. *)
Lemma usage_records_name_the_reported_space_and_total_rounds :
  (exists records,
      getSpaceUsageReports (SampleUsage.client SampleUsage.misnaming)
        SampleUsage.period [] collect []
      = (Normal records,
         [Call (SubscriptionList "did:mailto:example.com:alice");
          Call (UsageReport "did:key:space1" SampleUsage.period);
          Call (SubscriptionList "did:mailto:example.com:bob");
          Call (UsageReport "did:key:space2" SampleUsage.period)])
      /\ map account records =
         ["did:mailto:example.com:alice"; "did:mailto:example.com:bob"]
      /\ map record_space records = ["did:key:other"; "did:key:other"])
  /\ (exists records,
        fst (getSpaceUsageReports (SampleUsage.client SampleUsage.uneven)
               SampleUsage.period [] collect [])
        = Normal records
        /\ sum_of_sizes records = 9007199254740993%Z
        /\ fst (usage_total Sample.host
                  (SampleUsage.client SampleUsage.uneven) 5000%Z Sample.plain
                  [])
           = Normal (Finite 9007199254740992)
        /\ last (logged
                   (snd (usageReport Sample.host
                           (SampleUsage.client SampleUsage.uneven) 5000%Z
                           Sample.plain [])))
             ""
           = "   Total: 9007199254740992").
Proof.
  split.
  - eexists. repeat split; reflexivity.
  - eexists. split; [reflexivity|]. repeat split; vm_compute; reflexivity.
Qed.

(** ** Failing fast *)

Section FailFast.

Variable host : Host.
Variable client : Client.

Lemma fail_fast_silent {A} (c : Completion A) :
  fail_fast host client (fun t => (c, t)).
Proof.
  intros t. exists []. split; [now rewrite app_nil_r|].
  intros pre ev post e Heq. now destruct pre.
Qed.

Lemma fail_fast_emit ev0 :
  (forall t e, ~ event_fails host client t ev0 e) ->
  fail_fast host client (emit ev0).
Proof.
  intros Hquiet t. exists [ev0]. split; [reflexivity|].
  intros pre ev post e Heq Hfails.
  destruct pre as [|x pre]; [|destruct pre; discriminate].
  injection Heq as <- <-. now apply Hquiet in Hfails.
Qed.

Lemma fail_fast_await {A} ev0 (reply : Trace -> Settled A) :
  (forall t e, event_fails host client t ev0 e -> reply t = Rejected e) ->
  fail_fast host client (await ev0 reply).
Proof.
  intros Hreply t. exists [ev0]. split.
  - unfold await. now destruct (reply t).
  - intros pre ev post e Heq Hfails.
    destruct pre as [|x pre]; [|destruct pre; discriminate].
    injection Heq as <- <-. rewrite app_nil_r in Hfails.
    apply Hreply in Hfails. unfold await. now rewrite Hfails.
Qed.

Lemma fail_fast_bind {A B} (m : M A) (k : A -> M B) :
  fail_fast host client m ->
  (forall a, fail_fast host client (k a)) ->
  fail_fast host client (bind m k).
Proof.
  intros Hm Hk t. destruct (Hm t) as (evs1 & Hsnd1 & Hfail1).
  unfold bind. destruct (m t) as [c1 t1] eqn:Hrun. cbn [fst snd] in *.
  subst t1.
  destruct c1 as [a|e1|code|];
    try (exists evs1; split; [reflexivity|];
         intros pre ev post e Heq Hfails;
         destruct (Hfail1 pre ev post e Heq Hfails) as [Hc ->];
         split; [cbn; congruence|reflexivity]).
  destruct (Hk a (t ++ evs1)) as (evs2 & Hsnd2 & Hfail2).
  exists (evs1 ++ evs2). split; [now rewrite Hsnd2, app_assoc|].
  intros pre ev post e Heq Hfails.
  apply app_eq_app in Heq. destruct Heq as [l [[Hevs1 Heq]|[-> ->]]].
  - destruct l as [|x l].
    + cbn in Heq. rewrite app_nil_r in Hevs1. subst evs1 evs2.
      apply (Hfail2 [] ev post e); [reflexivity|now rewrite app_nil_r].
    + injection Heq as <- ->.
      destruct (Hfail1 pre ev l e Hevs1 Hfails) as [Habs _]. discriminate.
  - apply (Hfail2 l ev post e eq_refl). now rewrite <- app_assoc.
Qed.

Lemma fail_fast_for_of {A B} (body : A -> B -> M B) xs :
  (forall x acc, fail_fast host client (body x acc)) ->
  forall acc, fail_fast host client (for_of xs acc body).
Proof.
  intros Hbody. induction xs as [|x rest IH]; intros acc; cbn [for_of].
  - apply fail_fast_silent.
  - apply fail_fast_bind; [apply Hbody|]. intros acc'. apply IH.
Qed.

Lemma fail_fast_getSpaceUsageReports {B} period
    (consume : UsageRecord -> B -> M B) acc :
  (forall r acc', fail_fast host client (consume r acc')) ->
  fail_fast host client (getSpaceUsageReports client period acc consume).
Proof.
  intros Hconsume. unfold getSpaceUsageReports.
  apply fail_fast_for_of. intros a acc1. apply fail_fast_bind.
  { apply fail_fast_await. now intros t e H. }
  intros subs. apply fail_fast_for_of. intros sub acc2.
  apply fail_fast_for_of. intros s acc3. apply fail_fast_bind.
  { apply fail_fast_await. now intros t e H. }
  intros result. apply fail_fast_for_of. intros entry acc4. apply Hconsume.
Qed.

Lemma fail_fast_log line : fail_fast host client (console_log line).
Proof. apply fail_fast_emit. now intros t e H. Qed.

Lemma fail_fast_usageReport now opts :
  fail_fast host client (usageReport host client now opts).
Proof.
  unfold usageReport, usage_total. apply fail_fast_bind.
  - apply fail_fast_getSpaceUsageReports. intros r total. unfold print_usage.
    apply fail_fast_bind; [|intros; apply fail_fast_silent].
    destruct (json opts); [apply fail_fast_log|].
    repeat (apply fail_fast_bind; [apply fail_fast_log|intros _]).
    apply fail_fast_log.
  - intros total. destruct (negb (json opts));
      [apply fail_fast_log|apply fail_fast_silent].
Qed.

End FailFast.

(** C5.  When, during the usage traversal, the fetch of the subscriptions of
    an account or the usage report of a space fails, [usageReport] throws the
    error of that call to its caller and the traversal ends there: the failing
    request is the last thing the command does, so no further account or
    space is visited and nothing more is printed. *)
Theorem usage_traversal_fails_fast host client now opts t pre q post e :
  snd (usageReport host client now opts t) = t ++ pre ++ Call q :: post ->
  match q with
  | SubscriptionList a =>
      capability_subscription_list client (t ++ pre) a = Rejected e
  | UsageReport s p =>
      capability_usage_report client (t ++ pre) s p = Rejected e
  | _ => False
  end ->
  fst (usageReport host client now opts t) = Throws e /\ post = [].
Proof.
  intros Htrace Hfails.
  destruct (fail_fast_usageReport host client now opts t)
    as (evs & Hsnd & Hfail).
  rewrite Hsnd in Htrace. apply app_inv_head in Htrace.
  apply (Hfail pre (Call q) post e Htrace).
  destruct q; try contradiction; exact Hfails.
Qed.

Lemma usage_traversal_fails_fast_witness :
  fst (usageReport Sample.host (SampleUsage.client SampleUsage.failing)
         5000%Z Sample.plain [])
  = Throws (mkError "Error" (Some "usage/report failed"))
  /\ snd (usageReport Sample.host (SampleUsage.client SampleUsage.failing)
            5000%Z Sample.plain [])
     = [Call (SubscriptionList "did:mailto:example.com:alice");
        Call (UsageReport "did:key:space1"
                {| from := startOfLastMonth Sample.host 5000%Z;
                   to := 5000%Z |})].
Proof.
  split; [|reflexivity].
  apply (usage_traversal_fails_fast Sample.host
           (SampleUsage.client SampleUsage.failing) 5000%Z Sample.plain []
           [Call (SubscriptionList "did:mailto:example.com:alice")]
           (UsageReport "did:key:space1"
              {| from := startOfLastMonth Sample.host 5000%Z; to := 5000%Z |})
           [] (mkError "Error" (Some "usage/report failed"))
           eq_refl eq_refl).
Defined.

(** ** The claims on [createDelegation] *)

Section ExportProofs.

Variable host : Host.
Variable client : Client.

Lemma bind_await_rejected {A B} ev (reply : Trace -> Settled A)
    (k : A -> M B) t e :
  reply t = Rejected e -> bind (await ev reply) k t = (Throws e, t ++ [ev]).
Proof. intros Hreply. unfold bind, await. now rewrite Hreply. Qed.

Lemma writer_operations_app t1 t2 :
  writer_operations (t1 ++ t2) = writer_operations t1 ++ writer_operations t2.
Proof. apply filter_app. Qed.

Lemma blocks_put_app t1 t2 : blocks_put (t1 ++ t2) = blocks_put t1 ++ blocks_put t2.
Proof. apply flat_map_app. Qed.

Lemma writer_operations_puts blocks :
  writer_operations (map WriterPut blocks) = map WriterPut blocks.
Proof.
  induction blocks as [|b rest IH]; [reflexivity|].
  change (map WriterPut (b :: rest)) with ([WriterPut b] ++ map WriterPut rest).
  now rewrite writer_operations_app, IH.
Qed.

Lemma blocks_put_puts blocks : blocks_put (map WriterPut blocks) = blocks.
Proof.
  induction blocks as [|b rest IH]; [reflexivity|].
  change (map WriterPut (b :: rest)) with ([WriterPut b] ++ map WriterPut rest).
  now rewrite blocks_put_app, IH.
Qed.

Lemma writer_operations_setup audience opts :
  writer_operations (export_setup host audience opts) = []
  /\ blocks_put (export_setup host audience opts) = [].
Proof.
  unfold export_setup. now destruct (destination_of opts).
Qed.

Lemma closed_iff t : In WriterClose t <-> In WriterClose (writer_operations t).
Proof.
  unfold writer_operations. rewrite filter_In. tauto.
Qed.

Lemma put_blocks_cons b rest t :
  put_blocks host (b :: rest) t =
  match writer_put host t b with
  | Fulfilled _ => put_blocks host rest (t ++ [WriterPut b])
  | Rejected e => (Throws e, t ++ [WriterPut b])
  end.
Proof.
  unfold put_blocks. cbn [for_of]. unfold bind at 1, await.
  destruct (writer_put host t b) as [[]|e]; reflexivity.
Qed.

(** The loop over the blocks: every block is put, or the loop throws at the
    first block the writer refuses, having put the blocks before it. *)
Lemma put_blocks_run blocks :
  forall t,
    put_blocks host blocks t = (Normal tt, t ++ map WriterPut blocks)
    \/ exists done b rest e,
         blocks = done ++ b :: rest
         /\ put_blocks host blocks t =
            (Throws e, t ++ map WriterPut (done ++ [b])).
Proof.
  induction blocks as [|b rest IH]; intros t.
  - left. cbn. unfold ret. now rewrite app_nil_r.
  - rewrite put_blocks_cons. destruct (writer_put host t b) as [[]|e].
    + destruct (IH (t ++ [WriterPut b]))
        as [Hall|(done & b' & rest' & e & -> & Hstop)].
      * left. rewrite Hall. now rewrite <- app_assoc.
      * right. exists (b :: done), b', rest', e. split; [reflexivity|].
        rewrite Hstop. now rewrite <- app_assoc.
    + right. now exists [], b, rest, e.
Qed.

(** The destination opens, or [fs.createWriteStream] throws. *)
Lemma open_destination_run opts t :
  open_destination host opts t =
  match destination_of opts with
  | Stdout => (Normal Stdout, t)
  | File path =>
      match createWriteStream host t path with
      | Fulfilled _ => (Normal (File path), t ++ [CreateWriteStream path])
      | Rejected e => (Throws e, t ++ [CreateWriteStream path])
      end
  end.
Proof.
  unfold open_destination, destination_of.
  destruct (output opts) as [path|]; [destruct (path =? "")%string|];
    try reflexivity.
  unfold bind, await. now destruct (createWriteStream host t path).
Qed.

(** [createDelegation] up to the creation of the writer, once the delegation
    [d] is created. *)
Lemma createDelegation_made audienceDID opts t s audience d :
  client_currentSpace client = Some s ->
  DID_parse host audienceDID = Fulfilled audience ->
  has_length (abilities_of host (can opts)) = true ->
  client_createDelegation client t audience (abilities_of host (can opts))
    (delegation_options opts) = Fulfilled d ->
  createDelegation host client audienceDID opts t =
  bind (open_destination host opts)
    (fun dest =>
       bind (emit (Pipe dest))
         (fun _ =>
            bind (put_blocks host (export d))
              (fun _ => await WriterClose (writer_close host))))
    (t ++ [Call (CreateDelegation audience (abilities_of host (can opts))
                   (delegation_options opts));
           CarWriterCreate]).
Proof.
  intros Hspace Hparse Hcan Hmade. unfold createDelegation.
  rewrite Hspace. unfold bind at 1, call_sync. rewrite Hparse. unfold ret at 1.
  rewrite Hcan. unfold bind at 1, ret at 1. unfold bind at 1, await at 1.
  rewrite Hmade. unfold bind at 1, emit at 1.
  now rewrite <- app_assoc.
Qed.

(** [createDelegation], once the delegation [d] is created and the
    destination is open. *)
Lemma createDelegation_run audienceDID opts t s audience d :
  client_currentSpace client = Some s ->
  DID_parse host audienceDID = Fulfilled audience ->
  has_length (abilities_of host (can opts)) = true ->
  client_createDelegation client t audience (abilities_of host (can opts))
    (delegation_options opts) = Fulfilled d ->
  (forall path,
      destination_of opts = File path ->
      createWriteStream host
        (t ++ [Call (CreateDelegation audience (abilities_of host (can opts))
                       (delegation_options opts));
               CarWriterCreate]) path = Fulfilled tt) ->
  createDelegation host client audienceDID opts t =
  bind (put_blocks host (export d))
    (fun _ => await WriterClose (writer_close host))
    (t ++ export_setup host audience opts).
Proof.
  intros Hspace Hparse Hcan Hmade Hopen.
  rewrite (createDelegation_made _ _ _ _ _ _ Hspace Hparse Hcan Hmade).
  unfold bind at 1. rewrite open_destination_run. unfold export_setup.
  destruct (destination_of opts) as [|path].
  - unfold bind at 1, emit. now rewrite <- !app_assoc.
  - rewrite (Hopen path eq_refl). unfold bind at 1, emit.
    now rewrite <- !app_assoc.
Qed.

(** [createDelegation] when the destination file cannot be opened. *)
Lemma createDelegation_open_fails audienceDID opts t s audience d path e :
  client_currentSpace client = Some s ->
  DID_parse host audienceDID = Fulfilled audience ->
  has_length (abilities_of host (can opts)) = true ->
  client_createDelegation client t audience (abilities_of host (can opts))
    (delegation_options opts) = Fulfilled d ->
  destination_of opts = File path ->
  createWriteStream host
    (t ++ [Call (CreateDelegation audience (abilities_of host (can opts))
                   (delegation_options opts));
           CarWriterCreate]) path = Rejected e ->
  createDelegation host client audienceDID opts t =
  (Throws e,
   t ++ [Call (CreateDelegation audience (abilities_of host (can opts))
                 (delegation_options opts));
         CarWriterCreate;
         CreateWriteStream path]).
Proof.
  intros Hspace Hparse Hcan Hmade Hdest Hopen.
  rewrite (createDelegation_made _ _ _ _ _ _ Hspace Hparse Hcan Hmade).
  unfold bind at 1. rewrite open_destination_run, Hdest, Hopen.
  now rewrite <- app_assoc.
Qed.

(** Every run of [createDelegation] is of one of six kinds. *)
Lemma createDelegation_cases audienceDID opts t :
  let run := createDelegation host client audienceDID opts t in
  let abilities := abilities_of host (can opts) in
  (client_currentSpace client = None /\ exists e, run = (Throws e, t))
  \/ (exists s e,
        client_currentSpace client = Some s
        /\ DID_parse host audienceDID = Rejected e
        /\ run = (Throws e, t))
  \/ (exists s a,
        client_currentSpace client = Some s
        /\ DID_parse host audienceDID = Fulfilled a
        /\ has_length abilities = false
        /\ run = (Exits 1%Z,
                  t ++ [LogError "Error: missing capabilities for delegation"]))
  \/ (exists s a e,
        client_currentSpace client = Some s
        /\ DID_parse host audienceDID = Fulfilled a
        /\ has_length abilities = true
        /\ client_createDelegation client t a abilities
             (delegation_options opts) = Rejected e
        /\ run = (Throws e,
                  t ++ [Call (CreateDelegation a abilities
                                (delegation_options opts))]))
  \/ (exists s a d path e,
        client_currentSpace client = Some s
        /\ DID_parse host audienceDID = Fulfilled a
        /\ has_length abilities = true
        /\ client_createDelegation client t a abilities
             (delegation_options opts) = Fulfilled d
        /\ destination_of opts = File path
        /\ createWriteStream host
             (t ++ [Call (CreateDelegation a abilities
                            (delegation_options opts));
                    CarWriterCreate]) path = Rejected e
        /\ run = (Throws e,
                  t ++ [Call (CreateDelegation a abilities
                                (delegation_options opts));
                        CarWriterCreate;
                        CreateWriteStream path]))
  \/ (exists s a d c puts closing,
        client_currentSpace client = Some s
        /\ DID_parse host audienceDID = Fulfilled a
        /\ has_length abilities = true
        /\ client_createDelegation client t a abilities
             (delegation_options opts) = Fulfilled d
        /\ run = (c, t ++ export_setup host a opts
                       ++ map WriterPut puts ++ closing)
        /\ (c = Normal tt \/ exists e, c = Throws e)
        /\ (closing = [WriterClose] \/ (closing = [] /\ c <> Normal tt))).
Proof.
  intros run abilities. unfold run, abilities.
  destruct (client_currentSpace client) as [s|] eqn:Hspace.
  2:{ left. split; [reflexivity|].
      unfold createDelegation. rewrite Hspace. eexists. reflexivity. }
  destruct (DID_parse host audienceDID) as [a|e0] eqn:Hparse.
  2:{ right. left. exists s, e0. repeat split.
      unfold createDelegation. rewrite Hspace.
      unfold bind at 1, call_sync. now rewrite Hparse. }
  destruct (has_length (abilities_of host (can opts))) eqn:Hcan.
  2:{ right. right. left. exists s, a. repeat split.
      unfold createDelegation. rewrite Hspace.
      unfold bind at 1, call_sync. rewrite Hparse. unfold ret at 1.
      now rewrite Hcan. }
  destruct (client_createDelegation client t a
              (abilities_of host (can opts)) (delegation_options opts))
    as [d|e0] eqn:Hmade.
  2:{ right. right. right. left. exists s, a, e0.
      repeat split; [exact Hmade|].
      unfold createDelegation. rewrite Hspace.
      unfold bind at 1, call_sync. rewrite Hparse. unfold ret at 1.
      rewrite Hcan. unfold bind at 1, ret at 1.
      now rewrite (bind_await_rejected _ _ _ _ _ Hmade). }
  right. right. right. right.
  assert (Hopen :
    (exists path e,
        destination_of opts = File path
        /\ createWriteStream host
             (t ++ [Call (CreateDelegation a (abilities_of host (can opts))
                            (delegation_options opts));
                    CarWriterCreate]) path = Rejected e)
    \/ (forall path,
           destination_of opts = File path ->
           createWriteStream host
             (t ++ [Call (CreateDelegation a (abilities_of host (can opts))
                            (delegation_options opts));
                    CarWriterCreate]) path = Fulfilled tt)).
  { destruct (destination_of opts) as [|path]; [right; discriminate|].
    destruct (createWriteStream host
                (t ++ [Call (CreateDelegation a (abilities_of host (can opts))
                               (delegation_options opts));
                       CarWriterCreate]) path) as [[]|e] eqn:Hopen.
    - right. now intros path' [= <-].
    - left. now exists path, e. }
  destruct Hopen as [(path & e & Hdest & Hopen)|Hopen].
  { left. exists s, a, d, path, e. repeat split; auto.
    now apply (createDelegation_open_fails _ _ _ s a d). }
  right.
  rewrite (createDelegation_run _ _ _ _ _ _ Hspace Hparse Hcan Hmade Hopen).
  unfold bind.
  destruct (put_blocks_run (export d) (t ++ export_setup host a opts))
    as [Hall|(done & b & rest & e & Hsplit & Hstop)].
  - rewrite Hall. unfold await.
    destruct (writer_close host _) as [[]|e].
    + exists s, a, d, (Normal tt), (export d), [WriterClose].
      rewrite <- !app_assoc. repeat split; auto.
    + exists s, a, d, (Throws e), (export d), [WriterClose].
      rewrite <- !app_assoc. repeat split; eauto.
  - rewrite Hstop.
    exists s, a, d, (Throws e), (done ++ [b]), [].
    rewrite <- !app_assoc, app_nil_r. repeat split; eauto.
    right. split; [reflexivity|discriminate].
Qed.

Lemma channel_operations_app t1 t2 :
  channel_operations (t1 ++ t2) =
  channel_operations t1 ++ channel_operations t2.
Proof. apply filter_app. Qed.

Lemma channel_operations_puts blocks :
  channel_operations (map WriterPut blocks) = [].
Proof.
  induction blocks as [|b rest IH]; [reflexivity|exact IH].
Qed.

Lemma channel_operations_setup audience opts :
  channel_operations (export_setup host audience opts) = export_channel opts.
Proof.
  unfold export_setup, export_channel. now destruct (destination_of opts).
Qed.

(** No operation on the writer comes before the channel is set up. *)
Lemma channel_before_writer (setup rest pre post : Trace) ev :
  writer_operations setup = [] ->
  channel_operations rest = [] ->
  setup ++ rest = pre ++ ev :: post ->
  is_writer_operation ev = true ->
  channel_operations pre = channel_operations setup.
Proof.
  intros Hsetup Hrest Heq Hev.
  apply app_eq_app in Heq. destruct Heq as [l [[-> Heq]|[-> Heq]]].
  - destruct l as [|x l].
    + now rewrite app_nil_r.
    + injection Heq as <- _. rewrite writer_operations_app in Hsetup.
      apply app_eq_nil in Hsetup. destruct Hsetup as [_ Hsetup].
      cbn [writer_operations filter] in Hsetup.
      change (match ev with
              | WriterPut _ | WriterClose => true
              | _ => false
              end) with (is_writer_operation ev) in Hsetup.
      rewrite Hev in Hsetup. discriminate.
  - rewrite Heq, channel_operations_app in Hrest.
    apply app_eq_nil in Hrest. destruct Hrest as [Hl _].
    now rewrite channel_operations_app, Hl, app_nil_r.
Qed.

Lemma no_writer_operation (evs pre post : Trace) ev :
  writer_operations evs = [] ->
  evs = pre ++ ev :: post ->
  is_writer_operation ev = true ->
  False.
Proof.
  intros Hnone -> Hev. rewrite writer_operations_app in Hnone.
  apply app_eq_nil in Hnone. destruct Hnone as [_ Hnone].
  cbn [writer_operations filter] in Hnone.
  change (match ev with
          | WriterPut _ | WriterClose => true
          | _ => false
          end) with (is_writer_operation ev) in Hnone.
  rewrite Hev in Hnone. discriminate.
Qed.

(** What every run of [createDelegation] does to the writer and to the
    channel. *)
Lemma createDelegation_shape audienceDID opts t :
  let run := createDelegation host client audienceDID opts t in
  exists evs,
    snd run = t ++ evs
    /\ (fst run = Normal tt -> exists pre, evs = pre ++ [WriterClose])
    /\ (In WriterClose evs -> exists pre, evs = pre ++ [WriterClose])
    /\ (exists n, channel_operations evs = firstn n (export_channel opts))
    /\ (forall pre ev post,
           evs = pre ++ ev :: post ->
           is_writer_operation ev = true ->
           channel_operations pre = export_channel opts).
Proof.
  intros run. unfold run.
  destruct (createDelegation_cases audienceDID opts t)
    as [[_ [e ->]]
       |[(s & e & _ & _ & ->)
        |[(s & a & _ & _ & _ & ->)
         |[(s & a & e & _ & _ & _ & _ & ->)
          |[(s & a & d & path & e & _ & _ & _ & _ & Hdest & _ & ->)
           |(s & a & d & c & puts & closing & _ & _ & _ & _ & -> & _
             & Hclosing)]]]]];
    cbn [fst snd].
  - exists []. rewrite app_nil_r. split; [reflexivity|].
    split; [discriminate|]. split; [intros []|].
    split; [now exists 0|]. intros pre ev post Heq. now destruct pre.
  - exists []. rewrite app_nil_r. split; [reflexivity|].
    split; [discriminate|]. split; [intros []|].
    split; [now exists 0|]. intros pre ev post Heq. now destruct pre.
  - eexists. split; [reflexivity|].
    split; [discriminate|]. split; [intros [H|[]]; discriminate|].
    split; [now exists 0|]. intros pre ev post Heq Hev.
    exfalso. eapply no_writer_operation; [|exact Heq|exact Hev].
    reflexivity.
  - eexists. split; [reflexivity|].
    split; [discriminate|]. split; [intros [H|[]]; discriminate|].
    split; [now exists 0|]. intros pre ev post Heq Hev.
    exfalso. eapply no_writer_operation; [|exact Heq|exact Hev].
    reflexivity.
  - eexists. split; [reflexivity|].
    split; [discriminate|].
    split; [intros [H|[H|[H|[]]]]; discriminate|].
    split.
    + exists 2. unfold export_channel. now rewrite Hdest.
    + intros pre ev post Heq Hev.
      exfalso. eapply no_writer_operation; [|exact Heq|exact Hev].
    reflexivity.
  - eexists. split; [reflexivity|].
    destruct (writer_operations_setup a opts) as [Hsetup _].
    split; [|split; [|split]].
    + intros ->. destruct Hclosing as [->|[_ Hnot]]; [|contradiction].
      exists (export_setup host a opts ++ map WriterPut puts).
      now rewrite <- app_assoc.
    + intros Hin. destruct Hclosing as [->|[-> _]].
      * exists (export_setup host a opts ++ map WriterPut puts).
        now rewrite <- app_assoc.
      * rewrite app_nil_r in Hin. apply closed_iff in Hin.
        rewrite writer_operations_app, Hsetup, writer_operations_puts in Hin.
        apply in_map_iff in Hin. destruct Hin as (b0 & Hb0 & _). discriminate.
    + exists (length (export_channel opts)).
      rewrite firstn_all, !channel_operations_app, channel_operations_setup,
        channel_operations_puts.
      destruct Hclosing as [->|[-> _]]; cbn; now rewrite app_nil_r.
    + intros pre ev post Heq Hev.
      rewrite <- (channel_operations_setup a opts).
      apply (channel_before_writer _ (map WriterPut puts ++ closing) _ post ev);
        auto.
      rewrite channel_operations_app, channel_operations_puts.
      now destruct Hclosing as [->|[-> _]].
Qed.

Lemma fail_fast_createDelegation audienceDID opts :
  fail_fast host client (createDelegation host client audienceDID opts).
Proof.
  unfold createDelegation. destruct (client_currentSpace client) as [s|].
  2:{ apply fail_fast_silent. }
  apply fail_fast_bind.
  { unfold call_sync. destruct (DID_parse host audienceDID);
      apply fail_fast_silent. }
  intros audience. apply fail_fast_bind.
  { destruct (has_length _); [apply fail_fast_silent|].
    apply fail_fast_bind; [|intros; apply fail_fast_silent].
    apply fail_fast_emit. now intros t e H. }
  intros _. apply fail_fast_bind.
  { apply fail_fast_await. now intros t e H. }
  intros d. apply fail_fast_bind.
  { apply fail_fast_emit. now intros t e H. }
  intros _. apply fail_fast_bind.
  { unfold open_destination. destruct (output opts) as [path|];
      [destruct (path =? "")%string|]; try apply fail_fast_silent.
    apply fail_fast_bind; [|intros; apply fail_fast_silent].
    apply fail_fast_await. now intros t e H. }
  intros dest. apply fail_fast_bind.
  { apply fail_fast_emit. now intros t e H. }
  intros _. apply fail_fast_bind.
  { unfold put_blocks. apply fail_fast_for_of. intros b [].
    apply fail_fast_await. now intros t e H. }
  intros _. apply fail_fast_await. now intros t e H.
Qed.

End ExportProofs.

Lemma In_firstn {A} (x : A) n l : In x (firstn n l) -> In x l.
Proof.
  intros Hin. rewrite <- (firstn_skipn n l). apply in_or_app. now left.
Qed.

(** C6, as amended.  [createDelegation] closes the archive writer on the
    success path only: when it returns, [writer.close()] is the last thing it
    did.  When a write raises, or when opening the destination file raises,
    the error propagates at once, nothing is done after the failing call, and
    the writer, which is created before the destination is opened, is not
    closed.  To the destination the function does two things only, once
    each and before the first write: it opens it, when [--output] names a
    file, and it pipes the output of the writer into it; it never ends or
    closes it. *)
Theorem createDelegation_closes_writer_on_success_only host client
    audienceDID opts t :
  let run := createDelegation host client audienceDID opts t in
  exists evs,
    snd run = t ++ evs
    /\ (fst run = Normal tt -> exists pre, evs = pre ++ [WriterClose])
    /\ (forall pre b post e,
           evs = pre ++ WriterPut b :: post ->
           writer_put host (t ++ pre) b = Rejected e ->
           fst run = Throws e /\ post = [] /\ ~ In WriterClose evs)
    /\ (forall pre path post e,
           evs = pre ++ CreateWriteStream path :: post ->
           createWriteStream host (t ++ pre) path = Rejected e ->
           fst run = Throws e /\ post = [] /\ ~ In WriterClose evs)
    /\ (exists n, channel_operations evs = firstn n (export_channel opts))
    /\ (forall pre ev post,
           evs = pre ++ ev :: post ->
           is_writer_operation ev = true ->
           channel_operations pre = export_channel opts)
    /\ (forall dest, ~ In (StreamEnd dest) evs).
Proof.
  intros run.
  destruct (createDelegation_shape host client audienceDID opts t)
    as (evs & Hsnd & Hok & Hlast & Hchannel & Hbefore).
  destruct (fail_fast_createDelegation host client audienceDID opts t)
    as (evs' & Hsnd' & Hfail).
  fold run in Hsnd, Hok, Hsnd', Hfail.
  assert (evs' = evs) as ->
    by (apply (app_inv_head t); now rewrite <- Hsnd, <- Hsnd').
  assert (Hopen : forall pre ev,
             evs = pre ++ [ev] -> ev <> WriterClose -> ~ In WriterClose evs).
  { intros pre ev Heq Hev Hin. destruct (Hlast Hin) as [pre' Hclosed].
    rewrite Heq in Hclosed. apply app_inj_tail in Hclosed.
    destruct Hclosed as [_ Hclosed]. contradiction. }
  exists evs. split; [exact Hsnd|]. split; [exact Hok|].
  split; [|split; [|split; [exact Hchannel|split; [exact Hbefore|]]]].
  - intros pre b post e Heq Hrefused.
    destruct (Hfail pre (WriterPut b) post e Heq Hrefused) as [Hthrow ->].
    split; [exact Hthrow|]. split; [reflexivity|].
    apply (Hopen pre (WriterPut b) Heq). discriminate.
  - intros pre path post e Heq Hrefused.
    destruct (Hfail pre (CreateWriteStream path) post e Heq Hrefused)
      as [Hthrow ->].
    split; [exact Hthrow|]. split; [reflexivity|].
    apply (Hopen pre (CreateWriteStream path) Heq). discriminate.
  - intros dest Hin. destruct Hchannel as [n Hn].
    assert (Hin' : In (StreamEnd dest) (channel_operations evs))
      by (apply filter_In; now split).
    rewrite Hn in Hin'. apply In_firstn in Hin'.
    unfold export_channel in Hin'.
    destruct (destination_of opts); cbn in Hin';
      repeat (destruct Hin' as [Hin'|Hin']; [discriminate|]);
      exact Hin'.
Qed.

Lemma createDelegation_closes_writer_on_success_only_witness :
  exists pre,
    snd (createDelegation Sample.host SampleExport.client "did:key:audience"
           SampleExport.flags [])
    = pre ++ [WriterClose].
Proof.
  destruct (createDelegation_closes_writer_on_success_only Sample.host
              SampleExport.client "did:key:audience" SampleExport.flags [])
    as (evs & Hsnd & Hclosed & _).
  destruct (Hclosed eq_refl) as [pre Hpre].
  exists pre. rewrite Hsnd, Hpre. reflexivity.
Defined.

(** C6, as the claim states it, fails, for a write and for the open.  The
    writer of the first host refuses the second block: [createDelegation]
    throws the writer's error having opened the destination file and put both
    blocks, and it does not close the writer.  On the second host the
    destination file cannot be opened: [createDelegation] throws the error of
    [fs.createWriteStream] having created the writer, which it neither pipes
    nor closes. *)
Lemma createDelegation_leaves_writer_open_on_failure :
  (createDelegation SampleExport.failing_host SampleExport.client
     "did:key:audience" SampleExport.flags []
   = (Throws SampleExport.write_error,
      [Call (CreateDelegation "did:key:audience" ["store/add"]
               {| expiration := Infinity;
                  audienceMeta := {| meta_name := None; meta_type := None |} |});
       CarWriterCreate;
       CreateWriteStream "delegation.car";
       Pipe (File "delegation.car");
       WriterPut SampleExport.block1;
       WriterPut SampleExport.block2])
   /\ ~ In WriterClose
          (snd (createDelegation SampleExport.failing_host SampleExport.client
                  "did:key:audience" SampleExport.flags [])))
  /\ (createDelegation SampleExport.closed_host SampleExport.client
        "did:key:audience" SampleExport.flags []
      = (Throws SampleExport.open_error,
         [Call (CreateDelegation "did:key:audience" ["store/add"]
                  {| expiration := Infinity;
                     audienceMeta :=
                       {| meta_name := None; meta_type := None |} |});
          CarWriterCreate;
          CreateWriteStream "delegation.car"])
      /\ ~ In WriterClose
             (snd (createDelegation SampleExport.closed_host
                     SampleExport.client "did:key:audience"
                     SampleExport.flags []))).
Proof.
  split; (split; [reflexivity|]); cbn; intros H;
    repeat (destruct H as [H|H]; [discriminate|]); exact H.
Qed.

(** C7.  Once the delegation is created, [createDelegation] puts the blocks
    of its export sequence into the writer one after the other, in the given
    order, and closes the writer after the last block only: the operations on
    the writer are always a prefix of "put block 1, ..., put block n, close",
    no write is started after one that failed, and a run that returns has
    performed them all.  The bytes of the archive are then those the encoder
    gives for the block sequence, so they depend on nothing else and are the
    same at every run. *)
Theorem createDelegation_writes_blocks_in_order host client audienceDID opts t
    s audience d :
  client_currentSpace client = Some s ->
  DID_parse host audienceDID = Fulfilled audience ->
  has_length (abilities_of host (can opts)) = true ->
  client_createDelegation client t audience (abilities_of host (can opts))
    (delegation_options opts) = Fulfilled d ->
  let run := createDelegation host client audienceDID opts t in
  exists evs,
    snd run = t ++ evs
    /\ (exists n,
           writer_operations evs =
           firstn n (map WriterPut (export d) ++ [WriterClose]))
    /\ (forall pre b post e,
           evs = pre ++ WriterPut b :: post ->
           writer_put host (t ++ pre) b = Rejected e ->
           post = [])
    /\ (fst run = Normal tt ->
        writer_operations evs = map WriterPut (export d) ++ [WriterClose]
        /\ blocks_put evs = export d
        /\ car_bytes host (blocks_put evs) = car_bytes host (export d)).
Proof.
  intros Hspace Hparse Hcan Hmade run.
  destruct (fail_fast_createDelegation host client audienceDID opts t)
    as (evs & Hsnd & Hfail).
  fold run in Hsnd, Hfail.
  exists evs. split; [exact Hsnd|].
  assert (Hsequential : forall pre b post e,
             evs = pre ++ WriterPut b :: post ->
             writer_put host (t ++ pre) b = Rejected e -> post = []).
  { intros pre b post e Heq Hrefused.
    now destruct (Hfail pre (WriterPut b) post e Heq Hrefused). }
  destruct (writer_operations_setup host audience opts) as [Hsetup Hnoput].
  assert (Hopen :
    (exists path e,
        destination_of opts = File path
        /\ createWriteStream host
             (t ++ [Call (CreateDelegation audience
                            (abilities_of host (can opts))
                            (delegation_options opts));
                    CarWriterCreate]) path = Rejected e)
    \/ (forall path,
           destination_of opts = File path ->
           createWriteStream host
             (t ++ [Call (CreateDelegation audience
                            (abilities_of host (can opts))
                            (delegation_options opts));
                    CarWriterCreate]) path = Fulfilled tt)).
  { destruct (destination_of opts) as [|path]; [right; discriminate|].
    destruct (createWriteStream host
                (t ++ [Call (CreateDelegation audience (abilities_of host (can opts))
                               (delegation_options opts));
                       CarWriterCreate]) path) as [[]|e] eqn:Hopen.
    - right. now intros path' [= <-].
    - left. now exists path, e. }
  destruct Hopen as [(path & e & Hdest & Hopen)|Hopen].
  { pose proof (createDelegation_open_fails host client audienceDID opts t s
                  audience d path e Hspace Hparse Hcan Hmade Hdest Hopen)
      as Hrun.
    fold run in Hrun.
    assert (Hevs : evs = [Call (CreateDelegation audience
                                  (abilities_of host (can opts))
                                  (delegation_options opts));
                          CarWriterCreate;
                          CreateWriteStream path]).
    { apply (app_inv_head t). now rewrite <- Hsnd, Hrun. }
    split; [|split; [exact Hsequential|]].
    - exists 0. now rewrite Hevs.
    - rewrite Hrun. discriminate. }
  pose proof (createDelegation_run host client audienceDID opts t s audience d
                Hspace Hparse Hcan Hmade Hopen) as Hrun.
  fold run in Hrun. unfold bind in Hrun.
  destruct (put_blocks_run host (export d)
              (t ++ export_setup host audience opts))
    as [Hall|(done & b & rest & e & Hsplit & Hstop)].
  - rewrite Hall in Hrun.
    assert (Hevs : evs = export_setup host audience opts
                         ++ map WriterPut (export d) ++ [WriterClose]).
    { apply (app_inv_head t). rewrite <- Hsnd, Hrun. unfold await.
      destruct (writer_close host _); cbn [snd]; now rewrite <- !app_assoc. }
    assert (Hops : writer_operations evs =
                   map WriterPut (export d) ++ [WriterClose]).
    { rewrite Hevs, !writer_operations_app, Hsetup, writer_operations_puts.
      reflexivity. }
    assert (Hputs : blocks_put evs = export d).
    { rewrite Hevs, !blocks_put_app, Hnoput, blocks_put_puts. cbn.
      apply app_nil_r. }
    split; [|split; [exact Hsequential|]].
    + exists (length (map WriterPut (export d) ++ [WriterClose])).
      now rewrite firstn_all.
    + intros _. rewrite Hputs. auto.
  - rewrite Hstop in Hrun.
    assert (Hevs : evs = export_setup host audience opts
                         ++ map WriterPut (done ++ [b])).
    { apply (app_inv_head t). rewrite <- Hsnd, Hrun. cbn [snd].
      now rewrite <- app_assoc. }
    split; [|split; [exact Hsequential|]].
    + exists (length (map WriterPut (done ++ [b]))).
      rewrite Hevs, writer_operations_app, Hsetup, writer_operations_puts.
      rewrite Hsplit.
      replace (map WriterPut (done ++ b :: rest) ++ [WriterClose])
        with (map WriterPut (done ++ [b])
              ++ (map WriterPut rest ++ [WriterClose])).
      * rewrite firstn_app, firstn_all, Nat.sub_diag. cbn.
        now rewrite app_nil_r.
      * rewrite !map_app, <- !app_assoc. reflexivity.
    + rewrite Hrun. discriminate.
Qed.

Lemma createDelegation_writes_blocks_in_order_witness :
  exists evs,
    createDelegation Sample.host SampleExport.client "did:key:audience"
      SampleExport.flags []
    = (Normal tt, evs)
    /\ writer_operations evs =
       [WriterPut SampleExport.block1; WriterPut SampleExport.block2;
        WriterClose]
    /\ car_bytes Sample.host (blocks_put evs) =
       [Byte.x3a; Byte.x01; Byte.x02; Byte.x03].
Proof.
  destruct (createDelegation_writes_blocks_in_order Sample.host
              SampleExport.client "did:key:audience" SampleExport.flags []
              "did:key:space1" "did:key:audience"
              {| export := [SampleExport.block1; SampleExport.block2] |}
              eq_refl eq_refl eq_refl eq_refl)
    as (evs & Hsnd & _ & _ & Hdone).
  destruct (Hdone eq_refl) as (Hops & _ & Hbytes).
  exists evs. split; [|split; [exact Hops|exact Hbytes]].
  cbn [app] in Hsnd. rewrite <- Hsnd. reflexivity.
Defined.

(** * Further properties of the handlers *)

(** ** [remove]: the paths that end before the shards *)

Section RemovePaths.

Variable host : Host.
Variable client : Client.

Lemma remove_bad_cid rootCid opts t e :
  CID_parse host (trim host rootCid) = Rejected e ->
  remove host client rootCid opts t =
  (Exits 1%Z, t ++ [LogError ("Error: " +++ rootCid +++ " is not a CID")]).
Proof.
  intros Hparse. unfold remove, parse_root, bind at 1, try_catch, call_sync.
  now rewrite Hparse.
Qed.

Lemma remove_upload_rejected rootCid opts t r err :
  CID_parse host (trim host rootCid) = Fulfilled r ->
  capability_upload_remove client t r = Rejected err ->
  remove host client rootCid opts t =
  (Exits 1%Z,
   t ++ [Call (UploadRemove r);
         LogError ("Remove failed: " +++ message_or_error err);
         LogErrorObject err]).
Proof.
  intros Hparse Hremove. unfold remove, parse_root, remove_upload.
  unfold bind at 1, try_catch, call_sync. rewrite Hparse. unfold ret at 1.
  unfold bind at 1, try_catch, await. rewrite Hremove.
  unfold bind, console_error, emit, process_exit.
  now rewrite <- !app_assoc.
Qed.

Lemma remove_record_only rootCid opts t r u :
  CID_parse host (trim host rootCid) = Fulfilled r ->
  capability_upload_remove client t r = Fulfilled u ->
  opt_shards opts = false ->
  remove host client rootCid opts t = (Normal tt, t ++ [Call (UploadRemove r)]).
Proof.
  intros Hparse Hremove Hflag. unfold remove, parse_root, remove_upload.
  unfold bind at 1, try_catch, call_sync. rewrite Hparse. unfold ret at 1.
  unfold bind at 1, try_catch, await. now rewrite Hremove, Hflag.
Qed.

End RemovePaths.

Lemma service_requests_app t1 t2 :
  service_requests (t1 ++ t2) = service_requests t1 ++ service_requests t2.
Proof. apply flat_map_app. Qed.

Lemma service_requests_fan_out shards :
  service_requests (fan_out shards) = map StoreRemove shards.
Proof.
  induction shards as [|shard rest IH]; [reflexivity|].
  change (fan_out (shard :: rest))
    with ([Call (StoreRemove shard); SpinnerStart shard] ++ fan_out rest).
  rewrite service_requests_app, IH. reflexivity.
Qed.

Lemma service_requests_reports (ps : list (Promise unit)) :
  Forall (fun p => exists o, p = promise_of o) ps ->
  service_requests (map on_settle ps) = [].
Proof.
  induction 1 as [|p ps [[shard o] ->] _ IH]; [reflexivity|].
  cbn [map]. unfold service_requests in *. destruct o; cbn; exact IH.
Qed.

(** [remove] for a client in hand returns or ends the process with status
    1, the latter exactly when the identifier is not a CID, or the removal of
    the upload record fails, or, with [--shards], the removal of one of the
    record's shards fails. *)
Lemma remove_outcome host client rootCid opts t :
  let run := remove host client rootCid opts t in
  (fst run = Normal tt \/ fst run = Exits 1%Z)
  /\ (fst run = Exits 1%Z <->
      (exists e, CID_parse host (trim host rootCid) = Rejected e)
      \/ (exists r e,
            CID_parse host (trim host rootCid) = Fulfilled r
            /\ capability_upload_remove client t r = Rejected e)
      \/ (exists r u c l,
            CID_parse host (trim host rootCid) = Fulfilled r
            /\ capability_upload_remove client t r = Fulfilled u
            /\ opt_shards opts = true
            /\ root u = Some c
            /\ shards u = Some l
            /\ exists shard e,
                 In (shard, Rejected e)
                   (shard_outcomes client
                      (t ++ [Call (UploadRemove r); Log (removing_message l)])
                      l))).
Proof.
  intros run. unfold run.
  destruct (CID_parse host (trim host rootCid)) as [r|e] eqn:Hparse.
  2:{ rewrite (remove_bad_cid host client _ opts t e Hparse). cbn [fst].
      split; [now right|]. split; [intros _; left; eauto|reflexivity]. }
  destruct (capability_upload_remove client t r) as [u|e] eqn:Hremove.
  2:{ rewrite (remove_upload_rejected host client _ opts t r e Hparse Hremove).
      cbn [fst]. split; [now right|].
      split; [intros _; right; left; eauto|reflexivity]. }
  destruct (opt_shards opts) eqn:Hflag.
  2:{ rewrite (remove_record_only host client _ opts t r u Hparse Hremove Hflag).
      cbn [fst]. split; [now left|]. split; [discriminate|].
      intros [[e He]|[(r' & e & Hr' & He)|(r' & u' & c & l & _ & _ & Hf & _)]];
        congruence. }
  rewrite (remove_after_upload host client _ opts t r u Hparse Hremove Hflag).
  destruct (root u) as [c|] eqn:Hroot.
  2:{ cbn [fst]. split; [now left|]. split; [discriminate|].
      intros [[e He]|[(r' & e & Hr' & He)|(r' & u' & c & l & Hr' & Hu' & _ & Hc & _)]];
        congruence. }
  destruct (shards u) as [[|shard rest]|] eqn:Hshards.
  - cbn [fst]. split; [now left|]. split; [discriminate|].
    intros [[e He]|[(r' & e & Hr' & He)|(r' & u' & c' & l & Hr' & Hu' & _ & _ & Hl & s & e & Hin)]];
      try congruence.
    assert (r' = r) by congruence. subst r'.
    assert (u' = u) by congruence. subst u'.
    assert (l = []) by congruence. subst l. destruct Hin.
  - cbn zeta. cbn [fst].
    destruct (existsb is_rejected _) eqn:Hex.
    + split; [now right|]. split; [|reflexivity]. intros _. right. right.
      exists r, u, c, (shard :: rest). repeat split; auto.
      apply existsb_rejected. exact Hex.
    + split; [now left|]. split; [discriminate|].
      intros [[e He]|[(r' & e & Hr' & He)|(r' & u' & c' & l & Hr' & Hu' & _ & _ & Hl & Hin)]];
        try congruence.
      assert (r' = r) by congruence. subst r'.
      assert (u' = u) by congruence. subst u'.
      assert (l = shard :: rest) by congruence. subst l.
      apply existsb_rejected in Hin. congruence.
  - cbn [fst]. split; [now left|]. split; [discriminate|].
    intros [[e He]|[(r' & e & Hr' & He)|(r' & u' & c' & l & Hr' & Hu' & _ & _ & Hl & _)]];
      congruence.
Qed.


(** [remove] with its client: the client is asked for once the identifier
    has parsed. *)
Lemma remove_command_run host getClient rootCid opts t :
  remove_command host getClient rootCid opts t =
  match CID_parse host (trim host rootCid), getClient with
  | Rejected _, _ =>
      (Exits 1%Z, t ++ [LogError ("Error: " +++ rootCid +++ " is not a CID")])
  | Fulfilled _, Rejected e => (Throws e, t)
  | Fulfilled _, Fulfilled client => remove host client rootCid opts t
  end.
Proof.
  unfold remove_command, remove, parse_root.
  unfold bind at 1, try_catch, call_sync. unfold bind at 3.
  unfold try_catch, call_sync.
  destruct (CID_parse host (trim host rootCid)) as [r|e0]; [|reflexivity].
  unfold ret at 1. unfold ret at 2.
  destruct getClient as [client|e]; reflexivity.
Qed.

(** X1.  [remove] throws only when [getClient()] rejects, which it is asked
    only once the identifier has parsed; it then throws that rejection having
    done nothing.  Otherwise it returns, or it ends the process with status
    1: exactly when the identifier is not a CID, in which case the client is
    not even loaded, or the removal of the upload record fails, or, with
    [--shards], the removal of one of the record's shards fails. *)
Theorem remove_exit_status host getClient rootCid opts t :
  let run := remove_command host getClient rootCid opts t in
  (fst run = Normal tt \/ fst run = Exits 1%Z \/ exists e, fst run = Throws e)
  /\ (forall e,
         fst run = Throws e <->
         (exists r, CID_parse host (trim host rootCid) = Fulfilled r)
         /\ getClient = Rejected e)
  /\ (forall e, fst run = Throws e -> snd run = t)
  /\ (fst run = Exits 1%Z <->
      (exists e, CID_parse host (trim host rootCid) = Rejected e)
      \/ (exists client r e,
            getClient = Fulfilled client
            /\ CID_parse host (trim host rootCid) = Fulfilled r
            /\ capability_upload_remove client t r = Rejected e)
      \/ (exists client r u c l,
            getClient = Fulfilled client
            /\ CID_parse host (trim host rootCid) = Fulfilled r
            /\ capability_upload_remove client t r = Fulfilled u
            /\ opt_shards opts = true
            /\ root u = Some c
            /\ shards u = Some l
            /\ exists shard e,
                 In (shard, Rejected e)
                   (shard_outcomes client
                      (t ++ [Call (UploadRemove r); Log (removing_message l)])
                      l))).
Proof.
  intros run. unfold run. rewrite remove_command_run.
  destruct (CID_parse host (trim host rootCid)) as [r|e0] eqn:Hparse.
  2:{ cbn [fst snd]. split; [auto|]. split; [|split].
      - intros e. split; [discriminate|]. intros [[r Hr] _]. discriminate.
      - discriminate.
      - split; [intros _; left; eauto|reflexivity]. }
  destruct getClient as [client|e0].
  2:{ cbn [fst snd]. split; [eauto|]. split; [|split].
      - intros e. split.
        + intros [= <-]. eauto.
        + now intros [_ [= <-]].
      - reflexivity.
      - split; [discriminate|].
        intros [[e He]|[(c & ? & ? & Hc & _)|(c & ? & ? & ? & ? & Hc & _)]];
          discriminate. }
  destruct (remove_outcome host client rootCid opts t) as [Hends Hexit].
  cbn zeta in Hends, Hexit. rewrite Hparse in Hexit.
  split; [|split; [|split]].
  - destruct Hends as [H|H]; auto.
  - intros e. split.
    + intros H. destruct Hends as [H'|H']; rewrite H' in H; discriminate.
    + intros [_ H]. discriminate.
  - intros e H. destruct Hends as [H'|H']; rewrite H' in H; discriminate.
  - rewrite Hexit. split.
    + intros [[e He]|[(r' & e & Hr' & He)|(r' & u & c & l & Hr' & Hrest)]].
      * discriminate.
      * right. left. now exists client, r', e.
      * right. right. now exists client, r', u, c, l.
    + intros [[e He]|[(c0 & r' & e & [= <-] & Hr' & He)
                     |(c0 & r' & u & c & l & [= <-] & Hr' & Hrest)]].
      * discriminate.
      * right. left. now exists r', e.
      * right. right. now exists r', u, c, l.
Qed.

Lemma remove_exit_status_witness :
  fst (remove_command Sample.host (Rejected AgentSample.no_agent) "bafyroot"
         Sample.with_shards [])
  = Throws AgentSample.no_agent.
Proof.
  apply (proj1 (proj2 (remove_exit_status Sample.host
                         (Rejected AgentSample.no_agent) "bafyroot"
                         Sample.with_shards []))).
  split; [eexists|]; reflexivity.
Defined.

(** X2.  What [remove] asks of the service.  When the identifier is not a CID
    it asks nothing.  Otherwise it asks once for the removal of the upload
    record, and then, only with [--shards] and only when that removal
    succeeded and the record names a root, for the removal of each shard that
    the record lists, in the order of the list, and of nothing else. *)
Theorem remove_requests host client rootCid opts t :
  (forall ps, Permutation (settle_order host ps) ps) ->
  exists evs,
    snd (remove host client rootCid opts t) = t ++ evs
    /\ service_requests evs =
       match CID_parse host (trim host rootCid) with
       | Rejected _ => []
       | Fulfilled r =>
           UploadRemove r
           :: match capability_upload_remove client t r with
              | Rejected _ => []
              | Fulfilled u =>
                  if opt_shards opts
                  then match root u, shards u with
                       | Some _, Some l => map StoreRemove l
                       | _, _ => []
                       end
                  else []
              end
       end.
Proof.
  intros Hperm.
  destruct (CID_parse host (trim host rootCid)) as [r|e] eqn:Hparse.
  2:{ rewrite (remove_bad_cid host client _ opts t e Hparse).
      eexists. split; reflexivity. }
  destruct (capability_upload_remove client t r) as [u|e] eqn:Hremove.
  2:{ rewrite (remove_upload_rejected host client _ opts t r e Hparse Hremove).
      eexists. split; reflexivity. }
  destruct (opt_shards opts) eqn:Hflag.
  2:{ rewrite (remove_record_only host client _ opts t r u Hparse Hremove Hflag).
      eexists. split; reflexivity. }
  rewrite (remove_after_upload host client _ opts t r u Hparse Hremove Hflag).
  destruct (root u) as [c|]; [|eexists; split; reflexivity].
  destruct (shards u) as [[|shard rest]|]; try (eexists; split; reflexivity).
  cbn zeta. cbn [snd]. rewrite <- app_assoc. eexists. split; [reflexivity|].
  cbn [app]. cbn [service_requests flat_map app].
  fold (service_requests
          (fan_out (shard :: rest)
           ++ map on_settle
                (settle_order host
                   (map promise_of
                      (shard_outcomes client
                         (t ++ [Call (UploadRemove r);
                                Log (removing_message (shard :: rest))])
                         (shard :: rest)))))).
  rewrite service_requests_app, service_requests_fan_out.
  rewrite service_requests_reports; [now rewrite app_nil_r|].
  apply Forall_forall. intros p Hin.
  apply (Permutation_in _ (Hperm _)) in Hin.
  revert p Hin. apply Forall_forall, Forall_promise_of.
Qed.

Lemma remove_requests_witness :
  exists evs,
    snd (remove Sample.host (SampleRemoval.client SampleRemoval.upload)
           "bafyroot" Sample.with_shards [])
    = evs
    /\ service_requests evs =
       [UploadRemove "bafyroot"; StoreRemove "bagshardA";
        StoreRemove "bagshardB"; StoreRemove "bagshardC"].
Proof.
  destruct (remove_requests Sample.host
              (SampleRemoval.client SampleRemoval.upload) "bafyroot"
              Sample.with_shards []
              (fun ps => Permutation_sym (Permutation_rev ps)))
    as (evs & Hsnd & Hreq).
  exists evs. split; [exact Hsnd|exact Hreq].
Defined.

(** ** [list]: failures and the notice *)

Section ListPaths.

Variable host : Host.
Variable client : Client.
Variable opts : Flags.

Lemma last_response_cons prev p pages :
  last_response prev (p :: pages) = last_response (Some p) pages.
Proof.
  unfold last_response. cbn [map].
  generalize (Some p) as a. generalize (map Some pages) as l.
  intros l. revert prev.
  induction l as [|x l IH]; intros prev a; [reflexivity|].
  change (last (a :: x :: l) prev) with (last (x :: l) prev).
  now rewrite !IH.
Qed.

(** One iteration whose fetch is not answered with a page. *)
Lemma list_loop_fetch_fails fuel prev count t :
  list_loop host client opts (S fuel) prev count t =
  match capability_upload_list client t (cursor_of prev) with
  | Fulfilled (Some r) => list_loop host client opts (S fuel) prev count t
  | Fulfilled None =>
      (Throws missing_response, t ++ [Call (UploadList (cursor_of prev))])
  | Rejected e => (Throws e, t ++ [Call (UploadList (cursor_of prev))])
  end.
Proof.
  destruct (capability_upload_list client t (cursor_of prev))
    as [[r|]|e] eqn:Hreply; [reflexivity| |];
    cbn [list_loop]; unfold bind, await; now rewrite Hreply.
Qed.

Lemma list_loop_thrown fuel :
  forall prev count t e t',
    list_loop host client opts fuel prev count t = (Throws e, t') ->
    exists pages,
      length pages < fuel
      /\ served host client opts t prev pages
      /\ Forall (fun p => loop_continues p = true) pages
      /\ (capability_upload_list client (t ++ pages_trace host opts prev pages)
            (cursor_of (last_response prev pages)) = Rejected e
          \/ (capability_upload_list client
                (t ++ pages_trace host opts prev pages)
                (cursor_of (last_response prev pages)) = Fulfilled None
              /\ e = missing_response))
      /\ t' = t ++ pages_trace host opts prev pages
                ++ [Call (UploadList (cursor_of (last_response prev pages)))].
Proof.
  induction fuel as [|fuel IH]; intros prev count t e t' Hrun; [discriminate|].
  destruct (capability_upload_list client t (cursor_of prev))
    as [[r|]|e0] eqn:Hreply.
  - rewrite (list_loop_page host client opts _ _ _ _ _ Hreply) in Hrun.
    destruct (loop_continues r) eqn:Hr; [|discriminate].
    apply IH in Hrun.
    destruct Hrun as (pages & Hlen & Hs & Hc & Hfail & ->).
    exists (r :: pages). rewrite last_response_cons.
    cbn [length served pages_trace].
    rewrite <- ?app_assoc in Hfail |- *.
    repeat split; auto; [lia|now rewrite <- !app_assoc].
  - rewrite list_loop_fetch_fails, Hreply in Hrun. injection Hrun as <- <-.
    exists []. cbn [length served pages_trace last_response map last].
    rewrite app_nil_r. repeat split; auto. lia.
  - rewrite list_loop_fetch_fails, Hreply in Hrun. injection Hrun as <- <-.
    exists []. cbn [length served pages_trace last_response map last].
    rewrite app_nil_r. repeat split; auto. lia.
Qed.

Lemma list_loop_throws pages :
  forall fuel prev count t e,
    length pages < fuel ->
    served host client opts t prev pages ->
    Forall (fun p => loop_continues p = true) pages ->
    (capability_upload_list client (t ++ pages_trace host opts prev pages)
       (cursor_of (last_response prev pages)) = Rejected e
     \/ (capability_upload_list client (t ++ pages_trace host opts prev pages)
           (cursor_of (last_response prev pages)) = Fulfilled None
         /\ e = missing_response)) ->
    list_loop host client opts fuel prev count t =
    (Throws e,
     t ++ pages_trace host opts prev pages
       ++ [Call (UploadList (cursor_of (last_response prev pages)))]).
Proof.
  induction pages as [|p rest IH]; intros fuel prev count t e Hlen Hs Hc Hfail;
    (destruct fuel as [|fuel]; [cbn in Hlen; lia|]).
  - cbn [pages_trace last_response map last app] in *.
    rewrite app_nil_r in Hfail. rewrite list_loop_fetch_fails.
    destruct Hfail as [->|[-> ->]]; reflexivity.
  - destruct Hs as [Hreply Hs]. inversion Hc as [|? ? Hp Hrest]; subst.
    rewrite (list_loop_page host client opts _ _ _ _ _ Hreply), Hp.
    rewrite last_response_cons in *. cbn [pages_trace] in *.
    rewrite app_assoc in Hfail.
    rewrite (IH fuel (Some p) _ _ e); auto.
    + now rewrite <- !app_assoc.
    + cbn in Hlen. lia.
Qed.

End ListPaths.

(** [list] for a client in hand throws exactly when a fetch fails. *)
Lemma list_uploads_thrown host client opts fuel t e t' :
  list_uploads host client opts fuel t = (Throws e, t') <->
  exists pages,
    length pages < fuel
    /\ served host client opts t None pages
    /\ Forall (fun p => loop_continues p = true) pages
    /\ (capability_upload_list client (t ++ pages_trace host opts None pages)
          (cursor_of (last_response None pages)) = Rejected e
        \/ (capability_upload_list client
              (t ++ pages_trace host opts None pages)
              (cursor_of (last_response None pages)) = Fulfilled None
            /\ e = missing_response))
    /\ t' = t ++ pages_trace host opts None pages
              ++ [Call (UploadList (cursor_of (last_response None pages)))].
Proof.
  split.
  - intros Hrun. apply (list_loop_thrown host client opts fuel None 0).
    unfold list_uploads, bind in Hrun.
    destruct (list_loop host client opts fuel None 0 t) as [[count| | |] t1];
      try discriminate; [|now injection Hrun as <- <-].
    destruct ((count =? 0)%nat && negb (json opts)); discriminate.
  - intros (pages & Hlen & Hs & Hc & Hfail & ->).
    unfold list_uploads, bind.
    now rewrite (list_loop_throws host client opts pages fuel None 0 t e).
Qed.


(** X3.  [list] throws exactly when [getClient()] rejects, and it has then
    done nothing, or when a fetch fails: when the service rejects it, [list]
    throws the error of the service, and when the service answers it with
    nothing, [list] throws "missing upload list response".  The pages fetched
    until then were printed; the failing fetch is not repeated and is the
    last thing [list] does, so the notice is not printed. *)
Theorem list_uploads_throws host getClient opts fuel t e t' :
  list_command host getClient opts fuel t = (Throws e, t') <->
  (getClient = Rejected e /\ t' = t)
  \/ exists client pages,
       getClient = Fulfilled client
       /\ length pages < fuel
       /\ served host client opts t None pages
       /\ Forall (fun p => loop_continues p = true) pages
       /\ (capability_upload_list client
             (t ++ pages_trace host opts None pages)
             (cursor_of (last_response None pages)) = Rejected e
           \/ (capability_upload_list client
                 (t ++ pages_trace host opts None pages)
                 (cursor_of (last_response None pages)) = Fulfilled None
               /\ e = missing_response))
       /\ t' = t ++ pages_trace host opts None pages
                 ++ [Call (UploadList (cursor_of (last_response None pages)))].
Proof.
  unfold list_command, bind at 1, call_sync.
  destruct getClient as [client|e0].
  - unfold ret at 1. rewrite list_uploads_thrown. split.
    + intros (pages & H). right. now exists client, pages.
    + intros [[H _]|(c & pages & [= <-] & H)]; [discriminate|].
      now exists pages.
  - unfold throw. split.
    + intros [= <- <-]. now left.
    + intros [[[= <-] ->]|(c & pages & H & _)]; [reflexivity|discriminate].
Qed.

Lemma list_uploads_throws_witness :
  list_command Sample.host (Fulfilled (page_client [Sample.first_page]))
    Sample.plain 5 []
  = (Throws (mkError "Error" (Some "no more pages")),
     [Call (UploadList None);
      Log ("bafyrootA" +++ nl +++ "bafyrootB");
      Call (UploadList (Some "c1"))]).
Proof.
  apply (proj2 (list_uploads_throws Sample.host
                  (Fulfilled (page_client [Sample.first_page])) Sample.plain
                  5 [] (mkError "Error" (Some "no more pages")) _)).
  right. exists (page_client [Sample.first_page]), [Sample.first_page].
  repeat split.
  - cbn. lia.
  - repeat constructor.
  - left. reflexivity.
Defined.

(** X4.  What [list] prints when it returns: the pages that have items, one
    [console.log] each, in the order fetched; and then the two-line notice
    exactly when nothing at all was listed and [--json] is not set. *)
Theorem list_uploads_output host client opts pages last fuel t :
  served host client opts t None (pages ++ [last]) ->
  Forall (fun p => loop_continues p = true) pages ->
  loop_continues last = false ->
  length pages < fuel ->
  list_uploads host client opts fuel t =
  (Normal tt,
   t ++ pages_trace host opts None (pages ++ [last])
     ++ match pages, results last with
        | [], [] => if json opts then [] else no_uploads_notice
        | _, _ => []
        end).
Proof.
  intros Hs Hc Hl Hfuel. unfold list_uploads, bind.
  rewrite (list_loop_runs host client opts pages last fuel None 0 t Hs Hc Hl Hfuel).
  destruct pages as [|p rest].
  - cbn [app]. rewrite item_count_cons. unfold item_count at 1. cbn [map concat length].
    destruct (results last) as [|x xs]; cbn [length Nat.add Nat.eqb andb].
    + destruct (json opts); cbn [negb].
      * unfold ret. now rewrite app_nil_r.
      * unfold bind, console_log, emit, no_uploads_notice.
        now rewrite <- !app_assoc.
    + unfold ret. now rewrite app_nil_r.
  - inversion Hc as [|? ? Hp _]; subst.
    cbn [app]. rewrite item_count_cons.
    apply loop_continues_iff in Hp. destruct Hp as [_ Hp].
    destruct (results p) as [|x xs]; [contradiction|].
    cbn [length Nat.add Nat.eqb andb]. unfold ret. now rewrite app_nil_r.
Qed.

Lemma list_uploads_output_witness :
  list_uploads Sample.host (page_client [Sample.first_page; Sample.final_page])
    Sample.plain 5 []
  = (Normal tt,
     [Call (UploadList None);
      Log ("bafyrootA" +++ nl +++ "bafyrootB");
      Call (UploadList (Some "c1"));
      Log "bafyrootC"]).
Proof.
  apply (list_uploads_output Sample.host
           (page_client [Sample.first_page; Sample.final_page]) Sample.plain
           [Sample.first_page] Sample.final_page 5 []).
  - repeat constructor.
  - repeat constructor.
  - reflexivity.
  - cbn. lia.
Defined.

(** ** [createDelegation]: what happens before and around the export *)


Lemma service_requests_puts blocks :
  service_requests (map WriterPut blocks) = [].
Proof.
  induction blocks as [|b rest IH]; [reflexivity|exact IH].
Qed.

Lemma service_requests_setup host a opts :
  service_requests (export_setup host a opts) =
  [CreateDelegation a (abilities_of host (can opts)) (delegation_options opts)].
Proof.
  unfold export_setup. now destruct (destination_of opts).
Qed.

Lemma destination_is_output opts path :
  destination_of opts = File path -> output opts = Some path /\ path <> "".
Proof.
  unfold destination_of. destruct (output opts) as [p|]; [|discriminate].
  destruct (p =? "")%string eqn:Hp; [discriminate|].
  intros [= ->]. split; [reflexivity|]. now apply String.eqb_neq.
Qed.

(** X5.  [createDelegation] creates the archive writer, opens the output file
    and writes blocks only after the service has created the delegation, which
    takes a current space, an audience that parses as a DID and at least one
    ability; and the only file it ever opens is the one named by a non-empty
    [--output]. *)
Theorem createDelegation_exports_only_once_created host client audienceDID
    opts t :
  exists evs,
    snd (createDelegation host client audienceDID opts t) = t ++ evs
    /\ (existsb is_export_event evs = true ->
        exists s a d,
          client_currentSpace client = Some s
          /\ DID_parse host audienceDID = Fulfilled a
          /\ abilities_of host (can opts) <> []
          /\ client_createDelegation client t a (abilities_of host (can opts))
               (delegation_options opts) = Fulfilled d)
    /\ (forall path,
           In (CreateWriteStream path) evs ->
           output opts = Some path /\ path <> "").
Proof.
  destruct (createDelegation_cases host client audienceDID opts t)
    as [[_ [e ->]]
       |[(s & e & _ & _ & ->)
        |[(s & a & _ & _ & _ & ->)
         |[(s & a & e & _ & _ & _ & _ & ->)
          |[(s & a & d & p & e & Hs & Ha & Hcan & Hd & Hdest & _ & ->)
           |(s & a & d & c & puts & closing & Hs & Ha & Hcan & Hd & -> & _
             & Hclose)]]]]].
  - exists []. rewrite app_nil_r. repeat split; try discriminate; now intros.
  - exists []. rewrite app_nil_r. repeat split; try discriminate; now intros.
  - eexists. split; [reflexivity|]. split; [discriminate|].
    intros path [H|[]]. discriminate.
  - eexists. split; [reflexivity|]. split; [discriminate|].
    intros path [H|[]]. discriminate.
  - eexists. split; [reflexivity|]. split.
    + intros _. exists s, a, d. repeat split; auto.
      intros Hnil. now rewrite Hnil in Hcan.
    + intros path [H|[H|[H|[]]]]; try discriminate.
      injection H as <-. now apply destination_is_output.
  - eexists. split; [reflexivity|]. split.
    + intros _. exists s, a, d. repeat split; auto.
      intros Hnil. now rewrite Hnil in Hcan.
    + intros path Hin. apply in_app_or in Hin. destruct Hin as [Hin|Hin].
      * unfold export_setup in Hin.
        destruct (destination_of opts) as [|p] eqn:Hdest.
        -- cbn in Hin. repeat (destruct Hin as [Hin|Hin]; [discriminate|]).
           destruct Hin.
        -- cbn in Hin. destruct Hin as [Hin|[Hin|[Hin|[Hin|[]]]]];
             try discriminate.
           injection Hin as ->. now apply destination_is_output.
      * apply in_app_or in Hin. destruct Hin as [Hin|Hin].
        -- apply in_map_iff in Hin. destruct Hin as (b & Hb & _). discriminate.
        -- destruct Hclose as [-> | [-> _]]; [|destruct Hin].
           destruct Hin as [Hin|[]]. discriminate.
Qed.

Lemma createDelegation_exports_only_once_created_witness :
  output SampleExport.flags = Some "delegation.car"
  /\ "delegation.car" <> "".
Proof.
  destruct (createDelegation_exports_only_once_created Sample.host
              SampleExport.client "did:key:audience" SampleExport.flags [])
    as (evs & Hsnd & _ & Hfile).
  apply Hfile. cbn [app] in Hsnd. rewrite <- Hsnd. cbn. auto.
Defined.

(** X6.  [createDelegation] asks the service for one thing at most: the
    delegation, for the audience parsed from its argument, with the abilities
    chosen and the options derived from the flags; it asks for nothing when
    there is no current space, when the audience is not a DID or when no
    ability is left.  The expiration it asks for is [Infinity] exactly when
    [--expiration] is absent or 0, and the given timestamp otherwise. *)
Theorem createDelegation_request host client audienceDID opts t :
  (exists evs,
      snd (createDelegation host client audienceDID opts t) = t ++ evs
      /\ service_requests evs =
         match client_currentSpace client, DID_parse host audienceDID with
         | Some _, Fulfilled a =>
             if has_length (abilities_of host (can opts))
             then [CreateDelegation a (abilities_of host (can opts))
                     (delegation_options opts)]
             else []
         | _, _ => []
         end)
  /\ (expiration (delegation_options opts) = Infinity <->
      opt_expiration opts = None \/ opt_expiration opts = Some 0%Z)
  /\ (forall z,
         opt_expiration opts = Some z -> z <> 0%Z ->
         expiration (delegation_options opts) = At z).
Proof.
  split; [|split].
  - destruct (createDelegation_cases host client audienceDID opts t)
      as [[Hs [e ->]]
         |[(s & e & Hs & Ha & ->)
          |[(s & a & Hs & Ha & Hcan & ->)
           |[(s & a & e & Hs & Ha & Hcan & _ & ->)
            |[(s & a & d & p & e & Hs & Ha & Hcan & _ & _ & _ & ->)
             |(s & a & d & c & puts & closing & Hs & Ha & Hcan & Hd & -> & _
               & Hclose)]]]]];
      rewrite Hs; try rewrite Ha; try rewrite Hcan.
    + exists []. now rewrite app_nil_r.
    + exists []. now rewrite app_nil_r.
    + eexists. split; reflexivity.
    + eexists. split; reflexivity.
    + eexists. split; reflexivity.
    + eexists. split; [reflexivity|].
      rewrite !service_requests_app, service_requests_setup,
        service_requests_puts.
      destruct Hclose as [-> | [-> _]]; reflexivity.
  - unfold delegation_options, expiration_of. cbn [expiration].
    destruct (opt_expiration opts) as [z|]; [|tauto].
    destruct (z =? 0)%Z eqn:Hz.
    + apply Z.eqb_eq in Hz. subst z. tauto.
    + apply Z.eqb_neq in Hz. split; [discriminate|].
      intros [H|H]; [discriminate|]. injection H as ->. contradiction.
  - intros z Hexp Hz. unfold delegation_options, expiration_of.
    cbn [expiration]. rewrite Hexp.
    apply Z.eqb_neq in Hz. now rewrite Hz.
Qed.

Lemma createDelegation_request_witness :
  expiration (delegation_options SampleExport.flags) = Infinity.
Proof.
  apply (proj1 (proj2 (createDelegation_request Sample.host SampleExport.client
                         "did:key:audience" SampleExport.flags []))).
  left. reflexivity.
Defined.

(** X7.  [createDelegation] ends the process, with status 1, exactly when
    there is a current space, the audience parses and no ability is left to
    delegate; it has then printed the error and asked nothing of the service.
    No ability is left exactly when [--can] is an empty list, or when it is
    absent (or the empty string) and the table of space abilities is empty. *)
Theorem createDelegation_without_abilities host client audienceDID opts t :
  (forall code,
      fst (createDelegation host client audienceDID opts t) = Exits code <->
      code = 1%Z
      /\ client_currentSpace client <> None
      /\ (exists a, DID_parse host audienceDID = Fulfilled a)
      /\ abilities_of host (can opts) = [])
  /\ (forall code,
         fst (createDelegation host client audienceDID opts t) = Exits code ->
         snd (createDelegation host client audienceDID opts t) =
         t ++ [LogError "Error: missing capabilities for delegation"])
  /\ (abilities_of host (can opts) = [] <->
      can opts = CanMany []
      \/ ((can opts = CanAbsent \/ can opts = CanOne "")
          /\ spaceAccess host = [])).
Proof.
  assert (Hlen : forall l : list string, has_length l = false <-> l = []).
  { intros [|x l]; cbn; split; congruence. }
  split; [|split].
  - intros code.
    destruct (createDelegation_cases host client audienceDID opts t)
      as [[Hs [e ->]]
         |[(s & e & Hs & Ha & ->)
          |[(s & a & Hs & Ha & Hcan & ->)
           |[(s & a & e & Hs & Ha & Hcan & _ & ->)
            |[(s & a & d & p & e & Hs & Ha & Hcan & _ & _ & _ & ->)
             |(s & a & d & c & puts & closing & Hs & Ha & Hcan & Hd & -> & Hc
               & _)]]]]];
      cbn [fst].
    + split; [discriminate|]. intros (_ & Hno & _). contradiction.
    + split; [discriminate|]. intros (_ & _ & [a Ha'] & _). congruence.
    + split.
      * intros [= <-]. repeat split; [congruence|eauto|now apply Hlen].
      * now intros [-> _].
    + split; [discriminate|]. intros (_ & _ & _ & Hnil).
      apply Hlen in Hnil. congruence.
    + split; [discriminate|]. intros (_ & _ & _ & Hnil).
      apply Hlen in Hnil. congruence.
    + split.
      * destruct Hc as [->|[e ->]]; discriminate.
      * intros (_ & _ & _ & Hnil). apply Hlen in Hnil. congruence.
  - intros code.
    destruct (createDelegation_cases host client audienceDID opts t)
      as [[Hs [e ->]]
         |[(s & e & Hs & Ha & ->)
          |[(s & a & Hs & Ha & Hcan & ->)
           |[(s & a & e & Hs & Ha & Hcan & _ & ->)
            |[(s & a & d & p & e & Hs & Ha & Hcan & _ & _ & _ & ->)
             |(s & a & d & c & puts & closing & Hs & Ha & Hcan & Hd & -> & Hc
               & _)]]]]];
      cbn [fst snd]; try discriminate; [reflexivity|].
    destruct Hc as [->|[e ->]]; discriminate.
  - unfold abilities_of. destruct (can opts) as [|s|l].
    + split; [intros H; right; auto|]. intros [H|[_ H]]; [discriminate|exact H].
    + destruct (s =? "")%string eqn:Hs.
      * apply String.eqb_eq in Hs. subst s.
        split; [intros H; right; auto|].
        intros [H|[_ H]]; [discriminate|exact H].
      * apply String.eqb_neq in Hs. split; [discriminate|].
        intros [H|[[H|H] _]]; try discriminate. injection H as ->.
        contradiction.
    + split; [intros ->; now left|].
      intros [H|[[H|H] _]]; try discriminate. now injection H.
Qed.

Lemma createDelegation_without_abilities_witness :
  fst (createDelegation Sample.host SampleExport.client "did:key:audience"
         {| can := CanMany [];
            opt_name := None;
            opt_type := None;
            opt_expiration := None;
            output := None |} [])
  = Exits 1%Z.
Proof.
  apply (proj1 (createDelegation_without_abilities Sample.host
                  SampleExport.client "did:key:audience"
                  {| can := CanMany [];
                     opt_name := None;
                     opt_type := None;
                     opt_expiration := None;
                     output := None |} []) 1%Z).
  repeat split; [discriminate|eexists; reflexivity].
Defined.

(** ** Computations with a known trace *)

Lemma emits_ret {A} (a : A) : emits (ret a) a [].
Proof. intros t. unfold ret. now rewrite app_nil_r. Qed.

Lemma emits_emit ev : emits (emit ev) tt [ev].
Proof. intros t. reflexivity. Qed.

Lemma emits_bind {A B} (m : M A) (k : A -> M B) a b e1 e2 :
  emits m a e1 -> emits (k a) b e2 -> emits (bind m k) b (e1 ++ e2).
Proof.
  intros Hm Hk t. unfold bind. now rewrite Hm, Hk, app_assoc.
Qed.

Lemma emits_await {A} ev (reply : Trace -> Settled A) a :
  (forall t, reply t = Fulfilled a) -> emits (await ev reply) a [ev].
Proof. intros Hreply t. unfold await. now rewrite Hreply. Qed.

Lemma emits_for_of {A B} (f : B -> A -> B) (g : A -> Trace)
    (body : A -> B -> M B) xs :
  forall acc,
    (forall x acc', In x xs -> emits (body x acc') (f acc' x) (g x)) ->
    emits (for_of xs acc body) (fold_left f xs acc) (flat_map g xs).
Proof.
  induction xs as [|x rest IH]; intros acc Hbody;
    cbn [for_of fold_left flat_map].
  - apply emits_ret.
  - apply emits_bind with (a := f acc x).
    + apply Hbody. now left.
    + apply IH. intros y acc' Hy. apply Hbody. now right.
Qed.

Lemma emits_print_usage host now opts r total :
  emits (print_usage host now opts r total)
    (number_add total (to_number (final (record_size r))))
    (record_lines host now opts r).
Proof.
  intros t. unfold print_usage, record_lines, bind, console_log, emit, ret.
  cbn zeta. destruct (json opts); [reflexivity|]. now rewrite <- !app_assoc.
Qed.

(** The run of [usageReport] when every request is answered. *)
Lemma usageReport_answered host client now opts subs report t :
  let period := {| from := startOfLastMonth host now; to := now |} in
  (forall t a,
      In a (client_accounts client) ->
      capability_subscription_list client t (did a) =
      Fulfilled {| subscriptions := subs a |}) ->
  (forall t a sub s,
      In a (client_accounts client) -> In sub (subs a) ->
      In s (consumers sub) ->
      capability_usage_report client t s period = Fulfilled (report s)) ->
  usageReport host client now opts t =
  (Normal tt,
   t ++ usage_trace host now opts period (client_accounts client) subs report
     ++ total_line host opts
          (total_size (usage_records (client_accounts client) subs report))).
Proof.
  intros period Hsubs Hrep.
  assert (Hloop :
    emits (usage_total host client now opts)
      (total_size (usage_records (client_accounts client) subs report))
      (usage_trace host now opts period (client_accounts client) subs report)).
  { unfold usage_total, total_size, usage_records, usage_trace,
      getSpaceUsageReports.
    rewrite fold_left_flat_map. apply emits_for_of. intros a acc1 Ha.
    apply (emits_bind _ _ {| subscriptions := subs a |} _
             [Call (SubscriptionList (did a))]).
    { apply emits_await. intros t0. now apply Hsubs. }
    cbn [subscriptions]. rewrite fold_left_flat_map.
    apply emits_for_of. intros sub acc2 Hsub.
    rewrite fold_left_flat_map. apply emits_for_of. intros s acc3 Hs.
    apply (emits_bind _ _ (report s) _ [Call (UsageReport s period)]).
    { apply emits_await. intros t0. now apply (Hrep t0 a sub s). }
    rewrite fold_left_map. apply emits_for_of. intros entry acc4 _.
    apply emits_print_usage. }
  unfold usageReport, bind. rewrite Hloop. unfold total_line.
  destruct (json opts); cbn [negb].
  - unfold ret. now rewrite !app_nil_r.
  - unfold console_log, emit. now rewrite <- app_assoc.
Qed.

(** The lines of a record whose size is a safe integer. *)
Lemma record_lines_safe host now opts r :
  (0 <= final (record_size r) <= MAX_SAFE_INTEGER)%Z ->
  record_lines host now opts r = safe_record_lines host now opts r.
Proof.
  intros Hsize. unfold record_lines, safe_record_lines.
  rewrite to_number_safe by lia. rewrite number_to_string_safe by lia.
  reflexivity.
Qed.

Lemma flat_map_ext_in {A B} (f g : A -> list B) xs :
  (forall x, In x xs -> f x = g x) -> flat_map f xs = flat_map g xs.
Proof.
  induction xs as [|x rest IH]; intros Hfg; [reflexivity|].
  cbn [flat_map]. rewrite (Hfg x) by now left.
  rewrite IH; [reflexivity|]. intros y Hy. apply Hfg. now right.
Qed.

(** The run of [usageReport] when every request is answered and the sizes
    are safe. *)
Lemma usageReport_answered_safe host client now opts subs report t :
  let period := {| from := startOfLastMonth host now; to := now |} in
  let records := usage_records (client_accounts client) subs report in
  (forall t a,
      In a (client_accounts client) ->
      capability_subscription_list client t (did a) =
      Fulfilled {| subscriptions := subs a |}) ->
  (forall t a sub s,
      In a (client_accounts client) -> In sub (subs a) ->
      In s (consumers sub) ->
      capability_usage_report client t s period = Fulfilled (report s)) ->
  safe_sizes records ->
  usageReport host client now opts t =
  (Normal tt,
   t ++ usage_trace host now opts period (client_accounts client) subs report
     ++ safe_total_line host opts (sum_of_sizes records)).
Proof.
  intros period records Hsubs Hrep Hsafe.
  rewrite (usageReport_answered host client now opts subs report t Hsubs Hrep).
  fold records. rewrite (total_size_safe records Hsafe).
  unfold total_line, safe_total_line.
  rewrite number_to_string_safe; [reflexivity|].
  destruct Hsafe as [Hall Hsum].
  pose proof (sum_of_sizes_nonneg records Hall). lia.
Qed.

(** X8.  When every request is answered and the sizes reported are byte
    counts whose sum is a safe integer, [usageReport] asks for the
    subscriptions of each account in turn, and for each consumer space of each
    subscription it asks for the report and prints the records of that report
    before it asks for anything else; after the last record it prints the
    total, which is the sum of the final sizes, unless [--json] is set. *)
Theorem usageReport_run host client now opts subs report t :
  let period := {| from := startOfLastMonth host now; to := now |} in
  let records := usage_records (client_accounts client) subs report in
  (forall t a,
      In a (client_accounts client) ->
      capability_subscription_list client t (did a) =
      Fulfilled {| subscriptions := subs a |}) ->
  (forall t a sub s,
      In a (client_accounts client) -> In sub (subs a) ->
      In s (consumers sub) ->
      capability_usage_report client t s period = Fulfilled (report s)) ->
  safe_sizes records ->
  usageReport host client now opts t =
  (Normal tt,
   t ++ usage_trace host now opts period (client_accounts client) subs report
     ++ safe_total_line host opts (sum_of_sizes records)).
Proof.
  intros period records Hsubs Hrep Hsafe.
  exact (usageReport_answered_safe host client now opts subs report t
           Hsubs Hrep Hsafe).
Qed.

Lemma usageReport_run_witness :
  usageReport Sample.host (SampleUsage.client SampleUsage.steady) 5000%Z
    Sample.plain []
  = (Normal tt,
     [Call (SubscriptionList "did:mailto:example.com:alice");
      Call (UsageReport "did:key:space1"
              {| from := startOfLastMonth Sample.host 5000%Z; to := 5000%Z |});
      Log " Account: did:mailto:example.com:alice";
      Log "Provider: did:web:provider";
      Log "   Space: did:key:space1";
      Log ("    Size: 100" +++ nl);
      Call (SubscriptionList "did:mailto:example.com:bob");
      Call (UsageReport "did:key:space2"
              {| from := startOfLastMonth Sample.host 5000%Z; to := 5000%Z |});
      Log " Account: did:mailto:example.com:bob";
      Log "Provider: did:web:provider";
      Log "   Space: did:key:space2";
      Log ("    Size: 100" +++ nl);
      Log "   Total: 200"]).
Proof.
  apply (usageReport_run Sample.host (SampleUsage.client SampleUsage.steady)
           5000%Z Sample.plain
           (fun a => subscriptions (SampleUsage.subscriptions_of (did a)))
           (fun s => SampleUsage.report_of s 100%Z) []).
  - intros t a [<-|[<-|[]]]; reflexivity.
  - intros; reflexivity.
  - split; [repeat constructor; discriminate|discriminate].
Defined.

Lemma logged_flat_map {A} (g : A -> Trace) xs :
  logged (flat_map g xs) = flat_map (fun x => logged (g x)) xs.
Proof.
  induction xs as [|x rest IH]; [reflexivity|].
  cbn [flat_map]. now rewrite logged_app, IH.
Qed.

Lemma flat_map_nested {A B C} (h : B -> list C) (g : A -> list B) xs :
  flat_map h (flat_map g xs) = flat_map (fun x => flat_map h (g x)) xs.
Proof.
  induction xs as [|x rest IH]; [reflexivity|].
  cbn [flat_map]. now rewrite flat_map_app, IH.
Qed.

Lemma flat_map_of_map {A B C} (h : B -> list C) (f : A -> B) xs :
  flat_map h (map f xs) = flat_map (fun x => h (f x)) xs.
Proof.
  induction xs as [|x rest IH]; [reflexivity|].
  cbn [map flat_map]. now rewrite IH.
Qed.

(** The lines of a traversal are the lines of its records, in order. *)
Lemma logged_usage_trace host now opts period accounts subs report :
  logged (usage_trace host now opts period accounts subs report) =
  flat_map (fun r => logged (record_lines host now opts r))
    (usage_records accounts subs report).
Proof.
  unfold usage_trace, usage_records.
  rewrite logged_flat_map, flat_map_nested.
  apply flat_map_ext. intros a.
  change (logged (Call (SubscriptionList (did a)) :: ?l)) with (logged l).
  rewrite logged_flat_map, flat_map_nested.
  apply flat_map_ext. intros sub.
  rewrite logged_flat_map, flat_map_nested.
  apply flat_map_ext. intros sp.
  change (logged (Call (UsageReport sp period) :: ?l)) with (logged l).
  now rewrite logged_flat_map, flat_map_of_map.
Qed.

(** X9.  When every request is answered and the sizes reported are byte
    counts whose sum is a safe integer, what [usageReport] prints is what
    it prints for each record, in the order the records were yielded,
    followed by the total, the sum of the final sizes: with [--json] exactly
    one [console.log] for each record and none for the total, without it four
    for each record, the last of them giving the size of the record in
    digits unless [--human] is set, and one for the total. *)
Theorem usageReport_lines host client now opts subs report t :
  let period := {| from := startOfLastMonth host now; to := now |} in
  let records := usage_records (client_accounts client) subs report in
  (forall t a,
      In a (client_accounts client) ->
      capability_subscription_list client t (did a) =
      Fulfilled {| subscriptions := subs a |}) ->
  (forall t a sub s,
      In a (client_accounts client) -> In sub (subs a) ->
      In s (consumers sub) ->
      capability_usage_report client t s period = Fulfilled (report s)) ->
  safe_sizes records ->
  exists evs,
    usageReport host client now opts t = (Normal tt, t ++ evs)
    /\ logged evs =
       flat_map (fun r => logged (safe_record_lines host now opts r)) records
       ++ logged (safe_total_line host opts (sum_of_sizes records))
    /\ length (logged evs) =
       if json opts then length records else 4 * length records + 1.
Proof.
  intros period records Hsubs Hrep Hsafe.
  eexists. split;
    [exact (usageReport_answered_safe host client now opts subs report t
              Hsubs Hrep Hsafe)|].
  rewrite logged_app, logged_usage_trace. fold records.
  rewrite (flat_map_ext_in
             (fun r => logged (record_lines host now opts r))
             (fun r => logged (safe_record_lines host now opts r))).
  2:{ intros r Hr. now rewrite record_lines_safe
        by exact (safe_sizes_each records r Hsafe Hr). }
  split; [reflexivity|].
  rewrite length_app.
  rewrite (length_flat_map_uniform _ (if json opts then 1 else 4)).
  - unfold safe_total_line. destruct (json opts); cbn; lia.
  - intros r _. unfold safe_record_lines. now destruct (json opts).
Qed.

Lemma usageReport_lines_witness :
  exists evs,
    usageReport Sample.host (SampleUsage.client SampleUsage.steady) 5000%Z
      Sample.plain [] = (Normal tt, evs)
    /\ length (logged evs) = 9.
Proof.
  destruct (usageReport_lines Sample.host
              (SampleUsage.client SampleUsage.steady) 5000%Z Sample.plain
              (fun a => subscriptions (SampleUsage.subscriptions_of (did a)))
              (fun s => SampleUsage.report_of s 100%Z) [])
    as (evs & Hrun & _ & Hlen).
  - intros t a [<-|[<-|[]]]; reflexivity.
  - intros; reflexivity.
  - split; [repeat constructor; discriminate|discriminate].
  - exists evs. split; [exact Hrun|exact Hlen].
Defined.

(** * The handlers for spaces, proofs, delegations and plans *)

(** ** Printing loops *)

Lemma printed_app h1 h2 :
  Agent.printed (h1 ++ h2) = Agent.printed h1 ++ Agent.printed h2.
Proof. apply flat_map_app. Qed.

Lemma invoked_app h1 h2 :
  Agent.invoked (h1 ++ h2) = Agent.invoked h1 ++ Agent.invoked h2.
Proof. apply flat_map_app. Qed.

Lemma for_each_prints {A} (lines : A -> list string) (body : A -> Agent.Prog unit)
    xs :
  (forall x h, body x h = (Normal tt, h ++ map Agent.Print (lines x))) ->
  forall h,
    Agent.for_each xs body h =
    (Normal tt, h ++ map Agent.Print (flat_map lines xs)).
Proof.
  intros Hbody. induction xs as [|x rest IH]; intros h; cbn [Agent.for_each].
  - unfold Agent.ret. cbn. now rewrite app_nil_r.
  - unfold Agent.bind. rewrite Hbody, IH. cbn [flat_map].
    now rewrite map_app, app_assoc.
Qed.

Lemma printed_prints lines : Agent.printed (map Agent.Print lines) = lines.
Proof.
  induction lines as [|l rest IH]; [reflexivity|].
  change (map Agent.Print (l :: rest))
    with ([Agent.Print l] ++ map Agent.Print rest).
  now rewrite printed_app, IH.
Qed.

Lemma invoked_prints lines : Agent.invoked (map Agent.Print lines) = [].
Proof.
  induction lines as [|l rest IH]; [reflexivity|exact IH].
Qed.

Lemma flat_map_singleton {A B} (f : A -> B) xs :
  flat_map (fun x => [f x]) xs = map f xs.
Proof.
  induction xs as [|x rest IH]; [reflexivity|]. cbn. now rewrite IH.
Qed.

(** ** [listSpaces] *)

Lemma starred_iff current s :
  String.prefix "* " (Agent.space_line current s) = true <->
  exists c, current = Some c /\ Agent.space_did c = Agent.space_did s.
Proof.
  unfold Agent.space_line, Agent.space_prefix.
  destruct current as [c|].
  - destruct (Agent.space_did c =? Agent.space_did s)%string eqn:Hc.
    + apply String.eqb_eq in Hc. split; [intros _; eauto|].
      intros _. cbn. now destruct (_ +++ _).
    + apply String.eqb_neq in Hc. split; [discriminate|].
      intros (c' & [= <-] & Heq). contradiction.
  - split; [discriminate|]. intros (c & Hc & _). discriminate.
Qed.

Lemma at_most_one_with_key {A} (key : A -> string) (v : string) xs :
  NoDup (map key xs) ->
  length (filter (fun x => (v =? key x)%string) xs) <= 1.
Proof.
  induction xs as [|x rest IH]; intros Hnd; [cbn; lia|].
  inversion Hnd as [|? ? Hnotin Hrest]; subst. cbn [filter].
  destruct (v =? key x)%string eqn:Hv; [|now apply IH].
  apply String.eqb_eq in Hv. subst v.
  assert (Hnone : filter (fun y => (key x =? key y)%string) rest = []).
  { clear IH Hrest Hnd. induction rest as [|y rest IH]; [reflexivity|].
    cbn [filter]. destruct (key x =? key y)%string eqn:Hy.
    - apply String.eqb_eq in Hy. exfalso. apply Hnotin. left. now symmetry.
    - apply IH. intros Hin. apply Hnotin. now right. }
  rewrite Hnone. cbn. lia.
Qed.

(** X10.  [listSpaces] prints one line, with one [console.log], for each
    space the agent knows, in their order, and does nothing else.  A line
    starts with the mark "* "
    exactly when there is a current space and it has the DID of the space of
    that line; so when the spaces have distinct DIDs at most one line is
    marked. *)
Theorem listSpaces_marks_current client h :
  let spaces := Agent.agent_spaces client h in
  let current := Agent.agent_currentSpace client h in
  Agent.listSpaces client h =
  (Normal tt, h ++ map Agent.Print (map (Agent.space_line current) spaces))
  /\ (forall s,
         String.prefix "* " (Agent.space_line current s) = true <->
         exists c, current = Some c /\ Agent.space_did c = Agent.space_did s)
  /\ (NoDup (map Agent.space_did spaces) ->
      length (filter (fun s => String.prefix "* " (Agent.space_line current s))
                spaces) <= 1).
Proof.
  intros spaces current. split; [|split].
  - unfold Agent.listSpaces. fold spaces current.
    rewrite (for_each_prints (fun s => [Agent.space_line current s])).
    + now rewrite flat_map_singleton.
    + intros s h'. reflexivity.
  - apply starred_iff.
  - intros Hnd. destruct current as [c|] eqn:Hcur.
    + rewrite (filter_ext _ (fun s =>
                 (Agent.space_did c =? Agent.space_did s)%string)).
      * now apply at_most_one_with_key.
      * intros s. unfold Agent.space_line, Agent.space_prefix.
        destruct (Agent.space_did c =? Agent.space_did s)%string; cbn;
          [now destruct (_ +++ _)|reflexivity].
    + rewrite (filter_ext _ (fun _ => false)).
      * generalize spaces as l. intros l.
        induction l as [|x l IH]; [cbn; lia|exact IH].
      * intros s. reflexivity.
Qed.

(** ** [useSpace] *)

Lemma find_space_some d spaces s :
  Agent.find_space d spaces = Some s ->
  In s spaces
  /\ (Agent.space_did s = d
      \/ (Agent.space_name s = Some d
          /\ forall s', In s' spaces -> Agent.space_did s' <> d)).
Proof.
  unfold Agent.find_space.
  destruct (find (fun s0 => (Agent.space_did s0 =? d)%string) spaces)
    as [s0|] eqn:Hdid.
  - intros [= ->]. apply find_some in Hdid. destruct Hdid as [Hin Heq].
    apply String.eqb_eq in Heq. auto.
  - intros Hname. apply find_some in Hname. destruct Hname as [Hin Hnamed].
    split; [exact Hin|]. right. split.
    + unfold Agent.named in Hnamed.
      destruct (Agent.space_name s) as [n|]; [|discriminate].
      apply String.eqb_eq in Hnamed. now subst n.
    + intros s' Hin'. apply (find_none _ _ Hdid) in Hin'.
      now apply String.eqb_neq in Hin'.
Qed.

Lemma find_space_none d spaces :
  Agent.find_space d spaces = None <->
  forall s, In s spaces ->
            Agent.space_did s <> d /\ Agent.space_name s <> Some d.
Proof.
  unfold Agent.find_space. split.
  - destruct (find (fun s0 => (Agent.space_did s0 =? d)%string) spaces)
      as [s0|] eqn:Hdid; [discriminate|].
    intros Hname s Hin. split.
    + apply (find_none _ _ Hdid) in Hin. now apply String.eqb_neq in Hin.
    + apply (find_none _ _ Hname) in Hin. unfold Agent.named in Hin.
      intros Hn. rewrite Hn in Hin. now rewrite String.eqb_refl in Hin.
  - intros Hnone.
    destruct (find (fun s0 => (Agent.space_did s0 =? d)%string) spaces)
      as [s0|] eqn:Hdid.
    + apply find_some in Hdid. destruct Hdid as [Hin Heq].
      apply String.eqb_eq in Heq. now destruct (Hnone s0 Hin).
    + destruct (find (Agent.named d) spaces) as [s0|] eqn:Hname;
        [|reflexivity].
      apply find_some in Hname. destruct Hname as [Hin Hnamed].
      unfold Agent.named in Hnamed.
      destruct (Agent.space_name s0) as [n|] eqn:Hn; [|discriminate].
      apply String.eqb_eq in Hnamed. subst n. now destruct (Hnone s0 Hin).
Qed.

Lemma useSpace_run client d h :
  Agent.useSpace client d h =
  match Agent.find_space d (Agent.agent_spaces client h) with
  | None =>
      (Exits 1%Z, h ++ [Agent.PrintError ("Error: space not found: " +++ d)])
  | Some s =>
      match Agent.agent_setCurrentSpace client h (Agent.space_did s) with
      | Fulfilled _ =>
          (Normal tt,
           h ++ [Agent.Invoke (Agent.SetCurrentSpace (Agent.space_did s));
                 Agent.Print (Agent.space_did s)])
      | Rejected e =>
          (Throws e,
           h ++ [Agent.Invoke (Agent.SetCurrentSpace (Agent.space_did s))])
      end
  end.
Proof.
  unfold Agent.useSpace.
  destruct (Agent.find_space d (Agent.agent_spaces client h)) as [s|].
  - unfold Agent.bind, Agent.await.
    destruct (Agent.agent_setCurrentSpace client h (Agent.space_did s));
      [|reflexivity].
    unfold Agent.console_log. now rewrite <- app_assoc.
  - reflexivity.
Qed.

(** X11.  [useSpace] makes current a space the agent knows that has the
    given string as its DID, or else as its name: a space with that DID is
    preferred to any space with that name, wherever they stand in the list.
    It prints the DID of the space it selected, after the selection
    succeeded. *)
Theorem useSpace_prefers_did client d h x :
  let run := Agent.useSpace client d h in
  let spaces := Agent.agent_spaces client h in
  In (Agent.Invoke (Agent.SetCurrentSpace x))
    (skipn (length h) (snd run)) ->
  (exists s,
      In s spaces /\ Agent.space_did s = x
      /\ (x = d
          \/ (Agent.space_name s = Some d
              /\ forall s', In s' spaces -> Agent.space_did s' <> d)))
  /\ Agent.invoked (skipn (length h) (snd run)) = [Agent.SetCurrentSpace x]
  /\ (fst run = Normal tt ->
      Agent.printed (skipn (length h) (snd run)) = [x]).
Proof.
  intros run spaces. unfold run. rewrite useSpace_run. fold spaces.
  destruct (Agent.find_space d spaces) as [s|] eqn:Hfind.
  - apply find_space_some in Hfind. destruct Hfind as [Hin Hmatch].
    destruct (Agent.agent_setCurrentSpace client h (Agent.space_did s));
      cbn [fst snd]; rewrite skipn_app, skipn_all, Nat.sub_diag;
      cbn [skipn app]; intros Hx.
    + destruct Hx as [Hx|[Hx|[]]]; [|discriminate].
      injection Hx as <-. split; [|split; [reflexivity|reflexivity]].
      exists s. repeat split; [exact Hin|].
      destruct Hmatch as [Hd|Hn]; [left; now symmetry|now right].
    + destruct Hx as [Hx|[]]. injection Hx as <-.
      split; [|split; [reflexivity|discriminate]].
      exists s. repeat split; [exact Hin|].
      destruct Hmatch as [Hd|Hn]; [left; now symmetry|now right].
  - cbn [fst snd]. rewrite skipn_app, skipn_all, Nat.sub_diag.
    cbn [skipn app]. intros [Hx|[]]. discriminate.
Qed.

Lemma useSpace_prefers_did_witness :
  Agent.invoked
    (snd (Agent.useSpace AgentSample.client "did:key:home" []))
  = [Agent.SetCurrentSpace "did:key:home"].
Proof.
  apply (useSpace_prefers_did AgentSample.client "did:key:home" []
           "did:key:home").
  cbn. left. reflexivity.
Defined.

(** X12.  [useSpace] ends the process with status 1 exactly when no space the
    agent knows has the given string as its DID or as its name; it has then
    printed the error and left the current space as it was. *)
Theorem useSpace_unknown_space client d h :
  let run := Agent.useSpace client d h in
  (fst run = Exits 1%Z <->
   forall s, In s (Agent.agent_spaces client h) ->
             Agent.space_did s <> d /\ Agent.space_name s <> Some d)
  /\ (fst run = Exits 1%Z ->
      snd run = h ++ [Agent.PrintError ("Error: space not found: " +++ d)]).
Proof.
  intros run. unfold run. rewrite useSpace_run.
  rewrite <- find_space_none.
  destruct (Agent.find_space d (Agent.agent_spaces client h)) as [s|].
  - destruct (Agent.agent_setCurrentSpace client h (Agent.space_did s));
      cbn [fst snd]; repeat split; discriminate.
  - cbn [fst snd]. repeat split; reflexivity.
Qed.

Lemma useSpace_unknown_space_witness :
  snd (Agent.useSpace AgentSample.client "nowhere" [])
  = [Agent.PrintError "Error: space not found: nowhere"].
Proof.
  apply (proj2 (useSpace_unknown_space AgentSample.client "nowhere" [])).
  reflexivity.
Defined.

(** ** [spaceInfo] *)

Lemma spaceInfo_run lib client opts h d :
  Agent.space_to_describe client opts h = Some d ->
  d <> "" ->
  Agent.spaceInfo lib client opts h =
  (Normal tt,
   h ++ [Agent.Invoke (Agent.GetSpaceInfo d);
         Agent.Print
           match Agent.agent_space_info client h d with
           | Fulfilled info => rendered_info lib opts info
           | Rejected err =>
               if (err_name err =? "SpaceUnknown")%string
               then rendered_info lib opts
                      {| Agent.info_did := d; Agent.info_providers := None |}
               else "Error getting info about " +++ d +++ ": "
                    +++ Agent.message_text err
           end]).
Proof.
  intros Hspace Hd. unfold Agent.spaceInfo. rewrite Hspace.
  apply String.eqb_neq in Hd. rewrite Hd.
  unfold Agent.bind at 1, Agent.try_catch, Agent.bind, Agent.await.
  unfold rendered_info.
  destruct (Agent.agent_space_info client h d) as [info|err].
  - unfold Agent.ret. destruct (Agent.info_json opts);
      unfold Agent.console_log; now rewrite <- app_assoc.
  - destruct (err_name err =? "SpaceUnknown")%string.
    + unfold Agent.ret. destruct (Agent.info_json opts);
        unfold Agent.console_log; now rewrite <- app_assoc.
    + unfold Agent.console_log, Agent.ret. now rewrite <- app_assoc.
Qed.

(** X13.  Once it knows which space to describe, [spaceInfo] asks the service
    about that space once, calls [console.log] exactly once and returns,
    whatever the service answers: a space the service does not know
    ([SpaceUnknown]) is described by its DID alone, with no providers, and any
    other failure is printed as a message; neither changes the exit status. *)
Theorem spaceInfo_always_returns lib client opts h d :
  Agent.space_to_describe client opts h = Some d ->
  d <> "" ->
  let unknown := {| Agent.info_did := d; Agent.info_providers := None |} in
  (exists line,
      Agent.spaceInfo lib client opts h =
      (Normal tt,
       h ++ [Agent.Invoke (Agent.GetSpaceInfo d); Agent.Print line])
      /\ (forall info,
             Agent.agent_space_info client h d = Fulfilled info ->
             line = rendered_info lib opts info)
      /\ (forall err,
             Agent.agent_space_info client h d = Rejected err ->
             err_name err = "SpaceUnknown" ->
             line = rendered_info lib opts unknown)
      /\ (forall err,
             Agent.agent_space_info client h d = Rejected err ->
             err_name err <> "SpaceUnknown" ->
             line = "Error getting info about " +++ d +++ ": "
                    +++ Agent.message_text err))
  /\ Agent.info_text lib unknown =
     nl +++ "      DID: " +++ d +++ nl +++ "Providers: "
     +++ Agent.dim lib "none".
Proof.
  intros Hspace Hd unknown. split; [|reflexivity].
  eexists. split; [now apply spaceInfo_run|].
  destruct (Agent.agent_space_info client h d) as [info|err].
  - repeat split; try discriminate. now intros info' [= ->].
  - repeat split; try discriminate.
    + intros err' [= <-] Hname. apply String.eqb_eq in Hname.
      now rewrite Hname.
    + intros err' [= <-] Hname. apply String.eqb_neq in Hname.
      now rewrite Hname.
Qed.

Lemma spaceInfo_always_returns_witness :
  Agent.spaceInfo AgentSample.lib AgentSample.client
    {| Agent.info_space := Some "did:key:elsewhere"; Agent.info_json := false |}
    []
  = (Normal tt,
     [Agent.Invoke (Agent.GetSpaceInfo "did:key:elsewhere");
      Agent.Print (nl +++ "      DID: did:key:elsewhere" +++ nl
                   +++ "Providers: none")]).
Proof.
  destruct (spaceInfo_always_returns AgentSample.lib AgentSample.client
              {| Agent.info_space := Some "did:key:elsewhere";
                 Agent.info_json := false |}
              [] "did:key:elsewhere" eq_refl)
    as [(line & Hrun & _ & Hunknown & _) _].
  - discriminate.
  - rewrite Hrun.
    now rewrite (Hunknown AgentSample.space_unknown eq_refl eq_refl).
Defined.

(** [spaceInfo] for a client in hand throws exactly when no space is left
    to describe. *)
Lemma spaceInfo_thrown lib client opts h :
  (forall d,
      Agent.info_space opts = Some d ->
      Agent.space_to_describe client opts h = Some d)
  /\ (Agent.info_space opts = None ->
      Agent.space_to_describe client opts h =
      option_map Agent.space_did (Agent.agent_currentSpace client h))
  /\ (forall e,
         fst (Agent.spaceInfo lib client opts h) = Throws e <->
         e = Agent.no_space_error
         /\ (Agent.space_to_describe client opts h = None
             \/ Agent.space_to_describe client opts h = Some ""))
  /\ (forall e,
         fst (Agent.spaceInfo lib client opts h) = Throws e ->
         snd (Agent.spaceInfo lib client opts h) = h).
Proof.
  split; [|split; [|split]].
  - intros d Hd. unfold Agent.space_to_describe. now rewrite Hd.
  - intros Hnone. unfold Agent.space_to_describe. now rewrite Hnone.
  - intros e.
    destruct (Agent.space_to_describe client opts h) as [d|] eqn:Hspace.
    + destruct (string_dec d "") as [->|Hd].
      * unfold Agent.spaceInfo. rewrite Hspace. cbn. split.
        -- intros [= <-]. auto.
        -- now intros [-> _].
      * rewrite (spaceInfo_run lib client opts h d Hspace Hd). cbn [fst].
        split; [discriminate|]. intros [_ [H|H]]; congruence.
    + unfold Agent.spaceInfo. rewrite Hspace. cbn. split.
      * intros [= <-]. auto.
      * now intros [-> _].
  - intros e.
    destruct (Agent.space_to_describe client opts h) as [d|] eqn:Hspace.
    + destruct (string_dec d "") as [->|Hd].
      * unfold Agent.spaceInfo. now rewrite Hspace.
      * rewrite (spaceInfo_run lib client opts h d Hspace Hd). discriminate.
    + unfold Agent.spaceInfo. now rewrite Hspace.
Qed.


Lemma with_client_run {A} getClient (handler : Agent.Client -> Agent.Prog A) h :
  Agent.with_client getClient handler h =
  match getClient with
  | Fulfilled client => handler client h
  | Rejected e => (Throws e, h)
  end.
Proof.
  unfold Agent.with_client, Agent.bind, Agent.call_sync.
  now destruct getClient.
Qed.

(** X14.  The space [spaceInfo] describes is the one given with [--space],
    and the current space only when none is given.  [spaceInfo] throws,
    having asked and printed nothing, exactly when [getClient()] rejects or
    when no space is left to describe: no [--space] and no current space, or
    an empty DID, as with an empty [--space] even when there is a current
    space. *)
Theorem spaceInfo_needs_a_space lib getClient opts h :
  let run := Agent.spaceInfo_command lib getClient opts h in
  (forall client d,
      Agent.info_space opts = Some d ->
      Agent.space_to_describe client opts h = Some d)
  /\ (forall client,
         Agent.info_space opts = None ->
         Agent.space_to_describe client opts h =
         option_map Agent.space_did (Agent.agent_currentSpace client h))
  /\ (forall e,
         fst run = Throws e <->
         getClient = Rejected e
         \/ exists client,
              getClient = Fulfilled client
              /\ e = Agent.no_space_error
              /\ (Agent.space_to_describe client opts h = None
                  \/ Agent.space_to_describe client opts h = Some ""))
  /\ (forall e, fst run = Throws e -> snd run = h).
Proof.
  intros run. unfold run, Agent.spaceInfo_command. rewrite with_client_run.
  split; [|split; [|split]].
  - intros client. apply (spaceInfo_thrown lib client opts h).
  - intros client. apply (spaceInfo_thrown lib client opts h).
  - intros e. destruct getClient as [client|e0].
    + destruct (spaceInfo_thrown lib client opts h) as (_ & _ & Hthrows & _).
      rewrite Hthrows. split.
      * intros H. right. now exists client.
      * intros [H|(c & [= <-] & H)]; [discriminate|exact H].
    + cbn [fst]. split.
      * intros [= <-]. now left.
      * intros [[= <-]|(c & H & _)]; [reflexivity|discriminate].
  - intros e. destruct getClient as [client|e0]; [|reflexivity].
    apply (spaceInfo_thrown lib client opts h).
Qed.

Lemma spaceInfo_needs_a_space_witness :
  fst (Agent.spaceInfo_command AgentSample.lib (Fulfilled AgentSample.client)
         {| Agent.info_space := Some ""; Agent.info_json := false |} [])
  = Throws Agent.no_space_error.
Proof.
  destruct (spaceInfo_needs_a_space AgentSample.lib
              (Fulfilled AgentSample.client)
              {| Agent.info_space := Some ""; Agent.info_json := false |} [])
    as (_ & _ & Hthrows & _).
  apply Hthrows. right. exists AgentSample.client.
  split; [reflexivity|]. split; [reflexivity|]. now right.
Defined.

(** ** [addProof] *)

Lemma print_capabilities_run caps h :
  Agent.print_capabilities caps h =
  (Normal tt, h ++ map Agent.Print (capability_lines caps)).
Proof.
  unfold Agent.print_capabilities, capability_lines.
  apply for_each_prints. intros c h'.
  unfold Agent.bind, Agent.console_log. now rewrite <- app_assoc.
Qed.

Lemma print_proof_run lib opts p h :
  (if Agent.proof_json opts
   then Agent.console_log (Agent.stringify_proof lib p)
   else
     Agent.bind (Agent.console_log (Agent.ucan_cid p))
       (fun _ =>
          Agent.bind
            (Agent.console_log ("  issuer: " +++ Agent.ucan_issuer p))
            (fun _ => Agent.print_capabilities (Agent.ucan_capabilities p))))
    h
  = (Normal tt, h ++ map Agent.Print (proof_lines lib opts p)).
Proof.
  unfold proof_lines. destruct (Agent.proof_json opts); [reflexivity|].
  unfold Agent.bind, Agent.console_log. rewrite print_capabilities_run.
  cbn [map]. now rewrite <- !app_assoc.
Qed.

Lemma addProof_run lib client path opts h :
  Agent.addProof lib client path opts h =
  match Agent.readProof lib h path with
  | Rejected e =>
      (Exits 1%Z,
       h ++ [Agent.Invoke (Agent.ReadProof path);
             Agent.Print ("Error: " +++ Agent.message_text e)])
  | Fulfilled p =>
      if Agent.dry_run opts
      then
        (Normal tt,
         h ++ Agent.Invoke (Agent.ReadProof path)
           :: map Agent.Print (proof_lines lib opts p))
      else
        match Agent.agent_addProof client
                (h ++ [Agent.Invoke (Agent.ReadProof path)]) p with
        | Fulfilled _ =>
            (Normal tt,
             h ++ Agent.Invoke (Agent.ReadProof path)
               :: Agent.Invoke (Agent.AddProof p)
               :: map Agent.Print (proof_lines lib opts p))
        | Rejected e =>
            (Exits 1%Z,
             h ++ [Agent.Invoke (Agent.ReadProof path);
                   Agent.Invoke (Agent.AddProof p);
                   Agent.Print ("Error: " +++ Agent.message_text e)])
        end
  end.
Proof.
  unfold Agent.addProof.
  unfold Agent.bind at 1, Agent.try_catch, Agent.bind at 1, Agent.await at 1.
  destruct (Agent.readProof lib h path) as [p|e].
  - unfold Agent.bind at 1. destruct (Agent.dry_run opts).
    + unfold Agent.ret. rewrite print_proof_run. now rewrite <- app_assoc.
    + unfold Agent.await.
      destruct (Agent.agent_addProof client _ p) as [[]|e].
      * unfold Agent.ret. rewrite print_proof_run. now rewrite <- !app_assoc.
      * unfold Agent.bind, Agent.console_log, Agent.process_exit.
        now rewrite <- !app_assoc.
  - unfold Agent.bind, Agent.console_log, Agent.process_exit.
    now rewrite <- !app_assoc.
Qed.

(** X15.  With [--dry-run], [addProof] reads the proof and prints it exactly
    as it does after adding it, and it never asks the client to add it. *)
Theorem addProof_dry_run lib client path opts h p :
  Agent.readProof lib h path = Fulfilled p ->
  (Agent.dry_run opts = true ->
   Agent.addProof lib client path opts h =
   (Normal tt,
    h ++ Agent.Invoke (Agent.ReadProof path)
      :: map Agent.Print (proof_lines lib opts p)))
  /\ (Agent.dry_run opts = false ->
      Agent.agent_addProof client
        (h ++ [Agent.Invoke (Agent.ReadProof path)]) p = Fulfilled tt ->
      Agent.addProof lib client path opts h =
      (Normal tt,
       h ++ Agent.Invoke (Agent.ReadProof path)
         :: Agent.Invoke (Agent.AddProof p)
         :: map Agent.Print (proof_lines lib opts p))).
Proof.
  intros Hread. split.
  - intros Hdry. now rewrite addProof_run, Hread, Hdry.
  - intros Hdry Hadd. now rewrite addProof_run, Hread, Hdry, Hadd.
Qed.

Lemma addProof_dry_run_witness :
  Agent.addProof AgentSample.lib AgentSample.client "proof.car"
    {| Agent.proof_json := false; Agent.dry_run := true |} []
  = (Normal tt,
     [Agent.Invoke (Agent.ReadProof "proof.car");
      Agent.Print "bafyproof";
      Agent.Print "  issuer: did:key:issuer";
      Agent.Print "  with: did:key:home";
      Agent.Print "  can: store/add";
      Agent.Print "  with: did:key:home";
      Agent.Print "  can: upload/add"]).
Proof.
  apply (proj1 (addProof_dry_run AgentSample.lib AgentSample.client
                  "proof.car"
                  {| Agent.proof_json := false; Agent.dry_run := true |} []
                  AgentSample.proof eq_refl)).
  reflexivity.
Defined.

(** [addProof] for a client in hand returns, or ends the process with
    status 1 when the proof cannot be read or added. *)
Lemma addProof_outcome lib client path opts h :
  let run := Agent.addProof lib client path opts h in
  (fst run = Normal tt \/ fst run = Exits 1%Z)
  /\ (fst run = Exits 1%Z <->
      (exists e, Agent.readProof lib h path = Rejected e)
      \/ (exists p e,
            Agent.readProof lib h path = Fulfilled p
            /\ Agent.dry_run opts = false
            /\ Agent.agent_addProof client
                 (h ++ [Agent.Invoke (Agent.ReadProof path)]) p = Rejected e))
  /\ (fst run = Exits 1%Z ->
      exists e,
        Agent.printed (skipn (length h) (snd run)) =
        ["Error: " +++ Agent.message_text e]).
Proof.
  intros run. unfold run. rewrite addProof_run.
  destruct (Agent.readProof lib h path) as [p|e] eqn:Hread.
  - destruct (Agent.dry_run opts) eqn:Hdry.
    + cbn [fst snd]. split; [now left|]. split; [|discriminate].
      split; [discriminate|].
      intros [[e He]|(p' & e & _ & Hd & _)]; discriminate.
    + destruct (Agent.agent_addProof client _ p) as [[]|e] eqn:Hadd;
        cbn [fst snd].
      * split; [now left|]. split; [|discriminate]. split; [discriminate|].
        intros [[e He]|(p' & e & [= <-] & _ & Ha)]; [discriminate|].
        rewrite Hadd in Ha. discriminate.
      * split; [now right|]. split.
        -- split; [|reflexivity]. intros _. right. now exists p, e.
        -- intros _. exists e.
           rewrite skipn_app, skipn_all, Nat.sub_diag. reflexivity.
  - cbn [fst snd]. split; [now right|]. split.
    + split; [|reflexivity]. intros _. left. now exists e.
    + intros _. exists e.
      rewrite skipn_app, skipn_all, Nat.sub_diag. reflexivity.
Qed.


(** X16.  [addProof] throws only when [getClient()] rejects, and it has then
    done nothing.  When the proof cannot be read, or cannot be added, it
    does not throw: it prints "Error: " and the message, with one
    [console.log], and ends the process with status 1 without printing
    anything of the proof; otherwise it returns. *)
Theorem addProof_failure lib getClient path opts h :
  let run := Agent.addProof_command lib getClient path opts h in
  (fst run = Normal tt \/ fst run = Exits 1%Z \/ exists e, fst run = Throws e)
  /\ (forall e, fst run = Throws e <-> getClient = Rejected e)
  /\ (forall e, fst run = Throws e -> snd run = h)
  /\ (fst run = Exits 1%Z <->
      exists client,
        getClient = Fulfilled client
        /\ ((exists e, Agent.readProof lib h path = Rejected e)
            \/ (exists p e,
                  Agent.readProof lib h path = Fulfilled p
                  /\ Agent.dry_run opts = false
                  /\ Agent.agent_addProof client
                       (h ++ [Agent.Invoke (Agent.ReadProof path)]) p
                     = Rejected e)))
  /\ (fst run = Exits 1%Z ->
      exists e,
        Agent.printed (skipn (length h) (snd run)) =
        ["Error: " +++ Agent.message_text e]).
Proof.
  intros run. unfold run, Agent.addProof_command. rewrite with_client_run.
  destruct getClient as [client|e0].
  - destruct (addProof_outcome lib client path opts h)
      as (Hends & Hexit & Hprinted).
    cbn zeta in Hends, Hexit, Hprinted.
    split; [|split; [|split; [|split]]].
    + destruct Hends as [H|H]; auto.
    + intros e. split; [|discriminate].
      intros H. destruct Hends as [H'|H']; rewrite H' in H; discriminate.
    + intros e H. destruct Hends as [H'|H']; rewrite H' in H; discriminate.
    + rewrite Hexit. split.
      * intros H. now exists client.
      * now intros (c & [= <-] & H).
    + exact Hprinted.
  - cbn [fst snd]. split; [eauto|]. split; [|split; [|split]].
    + intros e. split; now intros [= <-].
    + reflexivity.
    + split; [discriminate|]. intros (c & H & _). discriminate.
    + discriminate.
Qed.

Lemma addProof_failure_witness :
  fst (Agent.addProof_command AgentSample.lib (Rejected AgentSample.no_agent)
         "proof.car" {| Agent.proof_json := false; Agent.dry_run := false |}
         [])
  = Throws AgentSample.no_agent.
Proof.
  destruct (addProof_failure AgentSample.lib (Rejected AgentSample.no_agent)
              "proof.car"
              {| Agent.proof_json := false; Agent.dry_run := false |} [])
    as (_ & Hthrows & _).
  now apply Hthrows.
Defined.

(** ** [revokeDelegation] *)

Lemma revokeDelegation_run lib client delegationCid proofPath h :
  Agent.revokeDelegation lib client delegationCid proofPath h =
  match proofs_read lib h proofPath with
  | Rejected e =>
      (Exits 1%Z,
       h ++ [Agent.Invoke
               (Agent.ReadProof
                  match proofPath with Some path => path | None => "" end);
             Agent.Print ("Error: reading proof: " +++ Agent.message_text e)])
  | Fulfilled (proofs, h') =>
      match Agent.parseLink lib (Agent.string_trim lib delegationCid) with
      | Rejected e =>
          (Exits 1%Z,
           h' ++ [Agent.PrintError
                    ("Error: invalid CID: " +++ delegationCid +++ ": "
                     +++ Agent.message_text e)])
      | Fulfilled c =>
          match Agent.agent_revokeDelegation client h' c proofs with
          | Rejected e => (Throws e, h' ++ [Agent.Invoke (Agent.Revoke c proofs)])
          | Fulfilled r =>
              match Agent.ok r with
              | Some _ =>
                  (Normal tt,
                   h' ++ [Agent.Invoke (Agent.Revoke c proofs);
                          Agent.Print ("⁂ delegation " +++ delegationCid
                                       +++ " revoked")])
              | None =>
                  (Exits 1%Z,
                   h' ++ [Agent.Invoke (Agent.Revoke c proofs);
                          Agent.PrintError
                            ("Error: revoking " +++ delegationCid +++ ": "
                             +++ Agent.optional_message (Agent.error r))])
              end
          end
      end
  end.
Proof.
  assert (Hafter : forall proof h',
    Agent.bind
      (Agent.try_catch
         (Agent.call_sync
            (Agent.parseLink lib (Agent.string_trim lib delegationCid)))
         (fun err =>
            Agent.bind
              (Agent.console_error
                 ("Error: invalid CID: " +++ delegationCid +++ ": "
                  +++ Agent.message_text err))
              (fun _ => Agent.process_exit 1)))
      (fun cid =>
         let proofs := match proof with Some p => [p] | None => [] end in
         Agent.bind
           (Agent.await (Agent.Revoke cid proofs)
              (fun h0 => Agent.agent_revokeDelegation client h0 cid proofs))
           (fun result =>
              match Agent.ok result with
              | Some _ =>
                  Agent.console_log
                    ("⁂ delegation " +++ delegationCid +++ " revoked")
              | None =>
                  Agent.bind
                    (Agent.console_error
                       ("Error: revoking " +++ delegationCid +++ ": "
                        +++ Agent.optional_message (Agent.error result)))
                    (fun _ => Agent.process_exit 1)
              end)) h'
    = match Agent.parseLink lib (Agent.string_trim lib delegationCid) with
      | Rejected e =>
          (Exits 1%Z,
           h' ++ [Agent.PrintError
                    ("Error: invalid CID: " +++ delegationCid +++ ": "
                     +++ Agent.message_text e)])
      | Fulfilled c =>
          let proofs := match proof with Some p => [p] | None => [] end in
          match Agent.agent_revokeDelegation client h' c proofs with
          | Rejected e => (Throws e, h' ++ [Agent.Invoke (Agent.Revoke c proofs)])
          | Fulfilled r =>
              match Agent.ok r with
              | Some _ =>
                  (Normal tt,
                   h' ++ [Agent.Invoke (Agent.Revoke c proofs);
                          Agent.Print ("⁂ delegation " +++ delegationCid
                                       +++ " revoked")])
              | None =>
                  (Exits 1%Z,
                   h' ++ [Agent.Invoke (Agent.Revoke c proofs);
                          Agent.PrintError
                            ("Error: revoking " +++ delegationCid +++ ": "
                             +++ Agent.optional_message (Agent.error r))])
              end
          end
      end).
  { intros proof h'.
    unfold Agent.bind at 1, Agent.try_catch, Agent.call_sync.
    destruct (Agent.parseLink lib (Agent.string_trim lib delegationCid))
      as [c|e]; [|reflexivity].
    unfold Agent.ret. cbn zeta. unfold Agent.bind at 1, Agent.await.
    destruct (Agent.agent_revokeDelegation client h' c _) as [r|e];
      [|reflexivity].
    destruct (Agent.ok r).
    - unfold Agent.console_log. now rewrite <- app_assoc.
    - unfold Agent.bind, Agent.console_error, Agent.process_exit.
      now rewrite <- app_assoc. }
  unfold Agent.revokeDelegation, proofs_read.
  unfold Agent.bind at 1, Agent.try_catch at 1.
  destruct proofPath as [path|]; cbn [truthy].
  - destruct (path =? "")%string; cbn [negb].
    + unfold Agent.ret at 1. apply (Hafter None).
    + unfold Agent.bind at 1, Agent.await at 1.
      destruct (Agent.readProof lib h path) as [p|e].
      * unfold Agent.ret at 1. apply (Hafter (Some p)).
      * unfold Agent.bind, Agent.console_log, Agent.process_exit.
        now rewrite <- app_assoc.
  - unfold Agent.ret at 1. apply (Hafter None).
Qed.

Lemma skipn_new {A} (h evs : list A) : skipn (length h) (h ++ evs) = evs.
Proof. now rewrite skipn_app, skipn_all, Nat.sub_diag. Qed.

Lemma proofs_read_history lib h proofPath proofs h' :
  proofs_read lib h proofPath = Fulfilled (proofs, h') ->
  h' = h \/ exists path, h' = h ++ [Agent.Invoke (Agent.ReadProof path)].
Proof.
  unfold proofs_read. destruct proofPath as [path|].
  - destruct (path =? "")%string; [intros [= _ <-]; now left|].
    destruct (Agent.readProof lib h path); [|discriminate].
    intros [= _ <-]. right. now exists path.
  - intros [= _ <-]. now left.
Qed.

(** The outcomes of [revokeDelegation] for a client in hand. *)
Lemma revokeDelegation_given_client lib client delegationCid proofPath h :
  let run := Agent.revokeDelegation lib client delegationCid proofPath h in
  let link := Agent.parseLink lib (Agent.string_trim lib delegationCid) in
  (fst run = Normal tt <->
   exists proofs h' c r,
     proofs_read lib h proofPath = Fulfilled (proofs, h')
     /\ link = Fulfilled c
     /\ Agent.agent_revokeDelegation client h' c proofs = Fulfilled r
     /\ Agent.ok r <> None)
  /\ (forall e,
         fst run = Throws e <->
         exists proofs h' c,
           proofs_read lib h proofPath = Fulfilled (proofs, h')
           /\ link = Fulfilled c
           /\ Agent.agent_revokeDelegation client h' c proofs = Rejected e)
  /\ (forall code, fst run = Exits code -> code = 1%Z)
  /\ (forall c ps,
         In (Agent.Invoke (Agent.Revoke c ps)) (skipn (length h) (snd run)) ->
         link = Fulfilled c
         /\ exists h', proofs_read lib h proofPath = Fulfilled (ps, h')).
Proof.
  intros run link. unfold run, link. rewrite revokeDelegation_run.
  destruct (proofs_read lib h proofPath) as [[proofs h']|e0] eqn:Hread.
  2:{ cbn [fst snd]. rewrite skipn_new. split; [|split; [|split]].
      - split; [discriminate|]. intros (? & ? & ? & ? & H & _). discriminate.
      - intros e. split; [discriminate|].
        intros (? & ? & ? & H & _). discriminate.
      - now intros code [= <-].
      - intros c ps [H|[H|[]]]; discriminate. }
  destruct (proofs_read_history lib h proofPath proofs h' Hread)
    as [->|[path ->]];
    (destruct (Agent.parseLink lib (Agent.string_trim lib delegationCid))
       as [c|e0] eqn:Hlink;
     [destruct (Agent.agent_revokeDelegation client _ c proofs)
        as [r|e0] eqn:Hrevoke;
      [destruct (Agent.ok r) as [[]|] eqn:Hok|]|]);
    cbn [fst snd]; rewrite <- ?app_assoc, skipn_new;
    (split; [|split; [|split]]);
    try (split; [discriminate|]);
    try (intros (ps & h1 & c1 & r1 & H1 & H2 & H3 & H4); congruence);
    try (intros (ps & h1 & c1 & H1 & H2 & H3); congruence);
    try (intros code H; congruence);
    try (intros c' ps H; cbn in H;
         repeat (destruct H as [H|H]; [try discriminate H|]);
         try contradiction;
         injection H as <- <-; eauto).
  - split; [|reflexivity]. intros _. exists proofs, h, c, r.
    rewrite Hok. repeat split; auto. discriminate.
  - intros e. split.
    + intros [= <-]. now exists proofs, h, c.
    + intros (ps & h1 & c1 & H1 & H2 & H3). congruence.
  - split; [|reflexivity]. intros _.
    exists proofs, (h ++ [Agent.Invoke (Agent.ReadProof path)]), c, r.
    rewrite Hok. repeat split; auto. discriminate.
  - intros e. split.
    + intros [= <-].
      now exists proofs, (h ++ [Agent.Invoke (Agent.ReadProof path)]), c.
    + intros (ps & h1 & c1 & H1 & H2 & H3). congruence.
Qed.


(** X17.  [revokeDelegation] returns only when the service answers the
    revocation with [ok], and it has then printed that the delegation is
    revoked.  It asks for the revocation only after the proof named by
    [--proof], if any, has been read and the identifier has parsed, and it
    passes that proof, or no proof; a proof that cannot be read, an invalid
    identifier and an answer without [ok] each end the process with status
    1, and it throws exactly when [getClient()] rejects or the request for
    the revocation is rejected. *)
Theorem revokeDelegation_outcome lib getClient delegationCid proofPath h :
  let run :=
    Agent.revokeDelegation_command lib getClient delegationCid proofPath h in
  let link := Agent.parseLink lib (Agent.string_trim lib delegationCid) in
  (fst run = Normal tt <->
   exists client proofs h' c r,
     getClient = Fulfilled client
     /\ proofs_read lib h proofPath = Fulfilled (proofs, h')
     /\ link = Fulfilled c
     /\ Agent.agent_revokeDelegation client h' c proofs = Fulfilled r
     /\ Agent.ok r <> None)
  /\ (forall e,
         fst run = Throws e <->
         getClient = Rejected e
         \/ exists client proofs h' c,
              getClient = Fulfilled client
              /\ proofs_read lib h proofPath = Fulfilled (proofs, h')
              /\ link = Fulfilled c
              /\ Agent.agent_revokeDelegation client h' c proofs = Rejected e)
  /\ (forall code, fst run = Exits code -> code = 1%Z)
  /\ (forall c ps,
         In (Agent.Invoke (Agent.Revoke c ps)) (skipn (length h) (snd run)) ->
         link = Fulfilled c
         /\ exists h', proofs_read lib h proofPath = Fulfilled (ps, h')).
Proof.
  intros run link. unfold run, link, Agent.revokeDelegation_command.
  rewrite with_client_run. destruct getClient as [client|e0].
  - destruct (revokeDelegation_given_client lib client delegationCid
                proofPath h) as (Hok & Hthrows & Hexit & Hasked).
    cbn zeta in Hok, Hthrows, Hexit, Hasked.
    split; [|split; [|split; [exact Hexit|exact Hasked]]].
    + rewrite Hok. split.
      * intros (proofs & h' & c & r & H). now exists client, proofs, h', c, r.
      * intros (c0 & proofs & h' & c & r & [= <-] & H).
        now exists proofs, h', c, r.
    + intros e. rewrite Hthrows. split.
      * intros (proofs & h' & c & H). right. now exists client, proofs, h', c.
      * intros [H|(c0 & proofs & h' & c & [= <-] & H)]; [discriminate|].
        now exists proofs, h', c.
  - cbn [fst snd]. rewrite skipn_all.
    split; [|split; [|split]].
    + split; [discriminate|]. intros (c0 & ? & ? & ? & ? & H & _).
      discriminate.
    + intros e. split.
      * intros [= <-]. now left.
      * intros [[= <-]|(c0 & ? & ? & ? & H & _)]; [reflexivity|discriminate].
    + discriminate.
    + intros c ps [].
Qed.

Lemma revokeDelegation_outcome_witness :
  fst (Agent.revokeDelegation_command AgentSample.lib
         (Fulfilled AgentSample.client) "bafydelegation" (Some "proof.car") [])
  = Normal tt.
Proof.
  destruct (revokeDelegation_outcome AgentSample.lib
              (Fulfilled AgentSample.client) "bafydelegation"
              (Some "proof.car") [])
    as (Hok & _).
  apply Hok.
  exists AgentSample.client, [AgentSample.proof],
    [Agent.Invoke (Agent.ReadProof "proof.car")],
    "bafydelegation", {| Agent.ok := Some tt; Agent.error := None |}.
  repeat split. discriminate.
Defined.

(** ** [getPlan] *)

Lemma getPlan_run lib client email h :
  Agent.getPlan lib client email h =
  let op := fst (account_lookup lib h email) in
  match snd (account_lookup lib h email) with
  | Rejected e => (Throws e, h ++ [Agent.Invoke op])
  | Fulfilled None => (Exits 1%Z, h ++ [Agent.Invoke op])
  | Fulfilled (Some a) =>
      let h' := h ++ [Agent.Invoke op] in
      match Agent.agent_plan_get client h' (did a) with
      | Rejected e => (Throws e, h' ++ [Agent.Invoke (Agent.PlanGet (did a))])
      | Fulfilled r =>
          match Agent.ok r, Agent.error r with
          | Some plan, _ =>
              (Normal tt,
               h' ++ [Agent.Invoke (Agent.PlanGet (did a));
                      Agent.Print ("⁂ " +++ Agent.product plan)])
          | None, Some err =>
              if (err_name err =? "PlanNotFound")%string
              then
                (Normal tt,
                 h' ++ [Agent.Invoke (Agent.PlanGet (did a));
                        Agent.Print "⁂ no plan has been selected yet"])
              else
                (Exits 1%Z,
                 h' ++ [Agent.Invoke (Agent.PlanGet (did a));
                        Agent.PrintError
                          ("Failed to get plan - " +++ Agent.message_text err)])
          | None, None =>
              (Throws Agent.undefined_message,
               h' ++ [Agent.Invoke (Agent.PlanGet (did a))])
          end
      end
  end.
Proof.
  unfold Agent.getPlan, account_lookup.
  assert (Hplan : forall a h',
    Agent.bind
      (Agent.await (Agent.PlanGet (did a))
         (fun h0 => Agent.agent_plan_get client h0 (did a)))
      (fun result =>
         match Agent.ok result with
         | Some plan => Agent.console_log ("⁂ " +++ Agent.product plan)
         | None =>
             match Agent.error result with
             | Some err =>
                 if (err_name err =? "PlanNotFound")%string
                 then Agent.console_log "⁂ no plan has been selected yet"
                 else
                   Agent.bind
                     (Agent.console_error
                        ("Failed to get plan - " +++ Agent.message_text err))
                     (fun _ => Agent.process_exit 1)
             | None => Agent.throw Agent.undefined_message
             end
         end) h'
    = match Agent.agent_plan_get client h' (did a) with
      | Rejected e => (Throws e, h' ++ [Agent.Invoke (Agent.PlanGet (did a))])
      | Fulfilled r =>
          match Agent.ok r, Agent.error r with
          | Some plan, _ =>
              (Normal tt,
               h' ++ [Agent.Invoke (Agent.PlanGet (did a));
                      Agent.Print ("⁂ " +++ Agent.product plan)])
          | None, Some err =>
              if (err_name err =? "PlanNotFound")%string
              then
                (Normal tt,
                 h' ++ [Agent.Invoke (Agent.PlanGet (did a));
                        Agent.Print "⁂ no plan has been selected yet"])
              else
                (Exits 1%Z,
                 h' ++ [Agent.Invoke (Agent.PlanGet (did a));
                        Agent.PrintError
                          ("Failed to get plan - " +++ Agent.message_text err)])
          | None, None =>
              (Throws Agent.undefined_message,
               h' ++ [Agent.Invoke (Agent.PlanGet (did a))])
          end
      end).
  { intros a h'. unfold Agent.bind at 1, Agent.await.
    destruct (Agent.agent_plan_get client h' (did a)) as [r|e]; [|reflexivity].
    destruct (Agent.ok r) as [plan|].
    - unfold Agent.console_log. now rewrite <- app_assoc.
    - destruct (Agent.error r) as [err|]; [|reflexivity].
      destruct (err_name err =? "PlanNotFound")%string.
      + unfold Agent.console_log. now rewrite <- app_assoc.
      + unfold Agent.bind, Agent.console_error, Agent.process_exit.
        now rewrite <- app_assoc. }
  destruct (email =? "")%string; cbn [fst snd]; cbn zeta;
    unfold Agent.bind at 1, Agent.await at 1.
  - destruct (Agent.selectAccount lib h) as [[a|]|e]; try reflexivity.
    apply Hplan.
  - destruct (Agent.useAccount lib h email) as [[a|]|e]; try reflexivity.
    apply Hplan.
Qed.

(** X18.  [getPlan] returns exactly when an account is found and its plan is
    either known or reported by the service as [PlanNotFound], which counts
    as an answer and not as a failure.  When no account is found it ends the
    process with status 1 without printing anything; every exit it makes has
    status 1. *)
Theorem getPlan_outcome lib client email h :
  let run := Agent.getPlan lib client email h in
  let op := fst (account_lookup lib h email) in
  (fst run = Normal tt <->
   exists a r,
     snd (account_lookup lib h email) = Fulfilled (Some a)
     /\ Agent.agent_plan_get client (h ++ [Agent.Invoke op]) (did a) =
        Fulfilled r
     /\ (Agent.ok r <> None
         \/ exists err,
              Agent.error r = Some err /\ err_name err = "PlanNotFound"))
  /\ (snd (account_lookup lib h email) = Fulfilled None ->
      run = (Exits 1%Z, h ++ [Agent.Invoke op]))
  /\ (forall code, fst run = Exits code -> code = 1%Z).
Proof.
  intros run op. unfold run. rewrite getPlan_run. fold op. cbn zeta.
  destruct (snd (account_lookup lib h email)) as [[a|]|e] eqn:Hlookup.
  2:{ cbn [fst]. split; [|split].
      - split; [discriminate|]. intros (? & ? & H & _). discriminate.
      - reflexivity.
      - now intros code [= <-]. }
  2:{ cbn [fst]. split; [|split].
      - split; [discriminate|]. intros (? & ? & H & _). discriminate.
      - discriminate.
      - discriminate. }
  split; [|split; [discriminate|]].
  - destruct (Agent.agent_plan_get client (h ++ [Agent.Invoke op]) (did a))
      as [r|e] eqn:Hplan.
    2:{ cbn [fst]. split; [discriminate|].
        intros (a' & r' & [= <-] & H & _). congruence. }
    destruct (Agent.ok r) as [plan|] eqn:Hok.
    { cbn [fst]. split; [|reflexivity].
      intros _. exists a, r. rewrite Hok. repeat split; auto.
      left. discriminate. }
    destruct (Agent.error r) as [err|] eqn:Herr.
    2:{ cbn [fst]. split; [discriminate|].
        intros (a' & r' & [= <-] & H & Hr). rewrite Hplan in H.
        injection H as <-. destruct Hr as [Hr|(err & Hr & _)]; congruence. }
    destruct (err_name err =? "PlanNotFound")%string eqn:Hname; cbn [fst].
    + apply String.eqb_eq in Hname. split; [|reflexivity].
      intros _. exists a, r. repeat split; auto. right. now exists err.
    + apply String.eqb_neq in Hname. split; [discriminate|].
      intros (a' & r' & [= <-] & H & Hr). rewrite Hplan in H.
      injection H as <-. destruct Hr as [Hr|(err' & Hr & Hn)]; congruence.
  - intros code.
    destruct (Agent.agent_plan_get client (h ++ [Agent.Invoke op]) (did a))
      as [r|e]; [|discriminate].
    destruct (Agent.ok r); [discriminate|].
    destruct (Agent.error r) as [err|]; [|discriminate].
    destruct (err_name err =? "PlanNotFound")%string; [discriminate|].
    now intros [= <-].
Qed.

Lemma getPlan_outcome_witness :
  Agent.getPlan AgentSample.lib AgentSample.client "nobody@example.com" []
  = (Exits 1%Z, [Agent.Invoke (Agent.UseAccount "nobody@example.com")]).
Proof.
  destruct (getPlan_outcome AgentSample.lib AgentSample.client
              "nobody@example.com" [])
    as (_ & Hnone & _).
  apply Hnone. reflexivity.
Defined.

(** ** [listDelegations] *)

Lemma listDelegations_run lib client json h :
  Agent.listDelegations lib client json h =
  (Normal tt,
   h ++ map Agent.Print
          (flat_map (delegation_lines lib json)
             (Agent.agent_delegations client h))).
Proof.
  unfold Agent.listDelegations, delegation_lines. destruct json.
  - apply for_each_prints. intros d h'. reflexivity.
  - apply for_each_prints. intros d h'.
    unfold Agent.bind, Agent.console_log. rewrite print_capabilities_run.
    cbn [map]. now rewrite <- !app_assoc.
Qed.

Lemma length_flat_map_sum {A B} (f : A -> list B) xs :
  length (flat_map f xs) = list_sum (map (fun x => length (f x)) xs).
Proof.
  induction xs as [|x rest IH]; [reflexivity|].
  cbn [flat_map map list_sum]. now rewrite length_app, IH.
Qed.

(** X19.  [listDelegations] only reads the delegations the client holds and
    prints them in their order, asking nothing of the service: with [--json]
    exactly one [console.log] for each delegation; without it, for each
    delegation, one for its CID, one for its audience and two for each of its
    capabilities. *)
Theorem listDelegations_lines lib client json h :
  let delegations := Agent.agent_delegations client h in
  exists evs,
    Agent.listDelegations lib client json h = (Normal tt, h ++ evs)
    /\ Agent.invoked evs = []
    /\ Agent.printed evs = flat_map (delegation_lines lib json) delegations
    /\ length (Agent.printed evs) =
       if json then length delegations
       else list_sum
              (map (fun d => 2 + 2 * length (Agent.ucan_capabilities d))
                 delegations).
Proof.
  intros delegations. eexists. split; [apply listDelegations_run|].
  fold delegations. rewrite invoked_prints, printed_prints.
  repeat split. rewrite length_flat_map_sum. unfold delegation_lines.
  destruct json.
  - generalize delegations as l. intros l.
    induction l as [|d rest IH]; [reflexivity|].
    cbn [map list_sum length Nat.add]. now rewrite <- IH.
  - f_equal. apply map_ext. intros d. cbn [length]. f_equal. f_equal.
    unfold capability_lines.
    rewrite (length_flat_map_uniform _ 2); [lia|reflexivity].
Qed.

Lemma listDelegations_lines_witness :
  exists evs,
    Agent.listDelegations AgentSample.lib AgentSample.client false []
    = (Normal tt, evs)
    /\ length (Agent.printed evs) = 6.
Proof.
  destruct (listDelegations_lines AgentSample.lib AgentSample.client false [])
    as (evs & Hrun & _ & _ & Hlen).
  exists evs. split; [exact Hrun|exact Hlen].
Defined.

Lemma listSpaces_marks_current_witness :
  Agent.listSpaces AgentSample.client []
  = (Normal tt,
     [Agent.Print "  did:key:decoy did:key:home";
      Agent.Print "  did:key:unnamed ";
      Agent.Print "* did:key:home home"]).
Proof.
  exact (proj1 (listSpaces_marks_current AgentSample.client [])).
Defined.
